(** * react-lifetime-component: the lifetime registry and its accessors

    A shallow embedding of [src/Component/LifetimeController.tsx] (the
    revision that carries the [CanRecover] flag) together with the properties
    its specification states about it.

    Modelling conventions.
    - The package is compiled to Luau, where a [Map] is a table.  Its
      contents are an association list ([JsMap]): [set] overwrites in place
      or adds the key, [delete] removes it, [get] reads by key.  The order
      in which a loop meets the entries of a table is left to the runtime:
      for [AllComponents] it is the parameter [walk] of [Runtime], and the
      general statements hold whatever that order is; for a table handed in
      by the caller the list is read as the order in which the loop meets
      its entries; for [CurrentRendered] the order is shown not to matter
      ([first_loop_any_order]).
    - [React.createElement] keeps the reserved entries of its config out of
      the props it builds; which names are reserved is the parameter
      [reserved] of [Runtime], [key] and [ref] being among them.
    - [HttpService.GenerateGUID] is an external service: it is a parameter
      [GenerateGUID : nat -> GUID], the [n]-th identifier it hands out, and
      is assumed injective (globally unique identifiers).
    - Props tables are heap objects: an element refers to its table by
      address, so writes through an alias are visible to the owner.
    - A thrown value or a runtime type error is the [Raise] case of
      [result]. *)

From stdpp Require Import base decidable option list strings pretty gmap.

(** ** Maps *)

Module JsMap.
Section jsmap.
Context {K V : Type} `{!EqDecision K}.

Fixpoint get (m : list (K * V)) (k : K) : option V :=
  match m with
  | [] => None
  | (k', v) :: m' => if decide (k' = k) then Some v else get m' k
  end.

Fixpoint set (m : list (K * V)) (k : K) (v : V) : list (K * V) :=
  match m with
  | [] => [(k, v)]
  | (k', v') :: m' =>
      if decide (k' = k) then (k, v) :: m' else (k', v') :: set m' k v
  end.

Definition delete (m : list (K * V)) (k : K) : list (K * V) :=
  filter (λ kv, kv.1 ≠ k) m.

Definition keys (m : list (K * V)) : list K := m.*1.

(** A list represents a map when no key is stored twice. *)
Definition wf (m : list (K * V)) : Prop := NoDup (keys m).
End jsmap.
End JsMap.

Abbreviation JsMap K V := (list (K * V)) (only parsing).

(** ** Data model *)

(** [string | number] map keys. *)
Inductive LogicalKey :=
  | KStr (s : string)
  | KNum (n : Z).

#[global] Instance LogicalKey_eq_dec : EqDecision LogicalKey.
Proof. solve_decision. Defined.

(** Identifiers returned by [GenerateGUID]. *)
Definition GUID := string.

(** Addresses of props tables and of controller objects. *)
Definition Loc := nat.
Definition ControllerRef := nat.

Inductive PropVal :=
  | VStr (s : string)
  | VNum (n : Z)
  | VBool (b : bool).

(** [PropsType = Record<any, any>].  The two [newproxy()] keys
    [LifetimeInternal] and [UIDInternal] are private to the module and
    differ from every key an application can write, so a table is its
    ordinary fields plus one slot per private key. *)
Record PropsType := mkProps {
  fields : gmap string PropVal;
  LifetimeInternal : option ControllerRef;
  UIDInternal : option GUID;
}.

Definition empty_props : PropsType := mkProps ∅ None None.

(** The [props] member of an element: absent (["props" in element] is
    false), present but [undefined], or a reference to a table. *)
Inductive PropsSlot :=
  | PropsMissing
  | PropsUndefined
  | PropsAt (l : Loc).

Record ReactElement := mkElement {
  type : string;
  props : PropsSlot;
}.

Record ComponentState := mkComponent {
  Key : LogicalKey;
  Element : ReactElement;
  UID : GUID;
}.

(** The change notifier: the class default [() => {}] or a callback of the
    host, named by a number. *)
Inductive UpdaterFn :=
  | DefaultUpdater
  | HostUpdater (id : nat).

Record LifetimeController := mkController {
  CanRecover : bool;
  AllComponents : JsMap GUID ComponentState;
  CurrentRendered : JsMap LogicalKey GUID;
  Updater : UpdaterFn;
}.

Definition new_LifetimeController : LifetimeController :=
  mkController false [] [] DefaultUpdater.

(** The controller object together with what its methods touch outside
    it: how many identifiers the GUID service has handed out, the log of
    notifier invocations, and the heap of props tables. *)
Record World := mkWorld {
  this : LifetimeController;
  guid_calls : nat;
  updater_calls : list UpdaterFn;
  heap : list PropsType;
}.

Definition new_World : World := mkWorld new_LifetimeController 0 [] [].

Definition with_this (f : LifetimeController → LifetimeController) (w : World) : World :=
  mkWorld (f (this w)) (guid_calls w) (updater_calls w) (heap w).

Definition set_AllComponents (ac : JsMap GUID ComponentState)
    (t : LifetimeController) : LifetimeController :=
  mkController (CanRecover t) ac (CurrentRendered t) (Updater t).

Definition set_CurrentRendered (cr : JsMap LogicalKey GUID)
    (t : LifetimeController) : LifetimeController :=
  mkController (CanRecover t) (AllComponents t) cr (Updater t).

Definition set_CanRecover (b : bool) (t : LifetimeController) : LifetimeController :=
  mkController b (AllComponents t) (CurrentRendered t) (Updater t).

(** ** The runtime under the module

    Iterating a table visits its entries in the order of the table's
    internal layout, which the language leaves open: [walk m] is the order
    in which a loop over the entries table [m] meets them, and all that is
    known of it is that it meets every entry once.  [React.createElement]
    keeps the reserved entries of its config, [key] and [ref] among them,
    out of the props it builds: [reserved] tells which names these are. *)
Class Runtime := {
  walk : JsMap GUID ComponentState → JsMap GUID ComponentState;
  walk_visits_all m : walk m ≡ₚ m;
  reserved : string → bool;
  reserved_key : reserved "key" = true;
  reserved_ref : reserved "ref" = true;
}.

(** ** Controller methods that only touch the controller *)

Definition SetUpdater (updater : UpdaterFn) (t : LifetimeController) : LifetimeController :=
  mkController (CanRecover t) (AllComponents t) (CurrentRendered t) updater.

Definition GetComponent (uid : GUID) (t : LifetimeController) : option ComponentState :=
  JsMap.get (AllComponents t) uid.

(** Returns the key under which [component] is bound, or [undefined]. *)
Definition GetRendered (component : ComponentState) (t : LifetimeController)
    : option LogicalKey :=
  match JsMap.get (CurrentRendered t) (Key component) with
  | None => None
  | Some renderKey =>
      if decide (renderKey ≠ UID component) then None else Some (Key component)
  end.

Definition IsComponentActive (uid : GUID) (t : LifetimeController) : bool :=
  match GetComponent uid t with
  | None => false
  | Some component =>
      match GetRendered component t with
      | None => false
      | Some render => bool_decide (JsMap.get (CurrentRendered t) render = Some uid)
      end
  end.

Definition RemoveRenderedByUID (uid : GUID) (t : LifetimeController) : LifetimeController :=
  match GetComponent uid t with
  | None => t
  | Some component =>
      if decide (JsMap.get (CurrentRendered t) (Key component) = Some uid)
      then set_CurrentRendered (JsMap.delete (CurrentRendered t) (Key component)) t
      else t
  end.

Definition UpdateComponent (uid : GUID) (element : ReactElement)
    (t : LifetimeController) : LifetimeController :=
  match JsMap.get (AllComponents t) uid with
  | None => t
  | Some component =>
      set_AllComponents
        (JsMap.set (AllComponents t) uid
           (mkComponent (Key component) element (UID component))) t
  end.

(** First entry of [m] stored with this logical key. *)
Fixpoint find_by_key (m : JsMap GUID ComponentState) (key : LogicalKey)
    : option ComponentState :=
  match m with
  | [] => None
  | (_, component) :: m' =>
      if decide (Key component = key) then Some component else find_by_key m' key
  end.

(** The [for ... of] over [AllComponents] returns at the first entry it
    meets with this logical key. *)
Definition GetRenderedComponentByKey {rt : Runtime} (key : LogicalKey)
    (t : LifetimeController) : option ComponentState :=
  find_by_key (walk (AllComponents t)) key.

(** ** Methods with effects outside the controller *)

Definition UnlistComponent (uid : GUID) (w : World) : World :=
  if IsComponentActive uid (this w) then w
  else
    let t1 := RemoveRenderedByUID uid (this w) in
    let t2 := set_AllComponents (JsMap.delete (AllComponents t1) uid) t1 in
    mkWorld t2 (guid_calls w) (updater_calls w ++ [Updater t2]) (heap w).

Section controller.
(** The identifier service: [GenerateGUID n] is the result of its [n]-th
    call. *)
Context {rt : Runtime} (GenerateGUID : nat → GUID).

Definition RegistryComponent (element : ReactElement) (key : LogicalKey)
    (w : World) : World :=
  let uid := GenerateGUID (guid_calls w) in
  let newComponent := mkComponent key element uid in
  let t := this w in
  let t1 := set_AllComponents (JsMap.set (AllComponents t) uid newComponent) t in
  let t2 := set_CurrentRendered (JsMap.set (CurrentRendered t1) key uid) t1 in
  mkWorld t2 (S (guid_calls w)) (updater_calls w) (heap w).

(** Body of the first [forEach]: keep the binding of a key that is still
    requested and hand its entry the new element.  The loop fills a new
    table that is read by key only, so the order of its visits is not
    observed. *)
Definition keep_child (children : JsMap LogicalKey ReactElement)
    (acc : JsMap LogicalKey GUID * LifetimeController)
    (binding : LogicalKey * GUID) : JsMap LogicalKey GUID * LifetimeController :=
  let '(newChildren, t) := acc in
  let '(key, uid) := binding in
  match JsMap.get children key with
  | None => acc
  | Some child => (JsMap.set newChildren key uid, UpdateComponent uid child t)
  end.

(** Body of the second [forEach]: a requested key without a binding
    recovers a stored entry or registers a new one. *)
Definition place_child (w : World) (kc : LogicalKey * ReactElement) : World :=
  let '(key, child) := kc in
  match JsMap.get (CurrentRendered (this w)) key with
  | Some _ => w
  | None =>
      if CanRecover (this w) then
        match GetRenderedComponentByKey key (this w) with
        | Some component =>
            with_this
              (λ t, set_CurrentRendered
                      (JsMap.set (CurrentRendered (UpdateComponent (UID component) child t))
                         key (UID component))
                      (UpdateComponent (UID component) child t)) w
        | None => RegistryComponent child key w
        end
      else RegistryComponent child key w
  end.

Definition ProcessChildren (children : JsMap LogicalKey ReactElement)
    (w : World) : World :=
  let '(newChildren, t1) :=
    foldl (keep_child children) ([], this w) (CurrentRendered (this w)) in
  let w1 := with_this (λ _, set_CurrentRendered newChildren t1) w in
  foldl place_child w1 children.
End controller.

(** ** Rendering *)

(** The content of one [<React.Fragment>]: the [child] map of
    [RenderComponents], which holds a single element under the entry's
    logical key. *)
Definition Fragment := list (LogicalKey * ReactElement).

Definition write_LifetimeInternal (c : ControllerRef) (p : PropsType) : PropsType :=
  mkProps (fields p) (Some c) (UIDInternal p).

Definition write_UIDInternal (u : GUID) (p : PropsType) : PropsType :=
  mkProps (fields p) (LifetimeInternal p) (Some u).

(** The entries of a config that [React.createElement] copies into the
    props: all but the reserved ones. *)
Definition unreserved {rt : Runtime} (config : gmap string PropVal)
    : gmap string PropVal :=
  filter (λ kv, reserved kv.1 = false) config.

(** [React.createElement(type, { ...props })]: the spread copies [config],
    and [createElement] builds the props of the new element from the copy
    in a table of its own, without the reserved entries: those configure
    the element itself (its key and ref), which the element record does not
    carry.  The private keys are not reserved names and are copied. *)
Definition createElement {rt : Runtime} (ty : string) (config : PropsType)
    (h : list PropsType) : ReactElement * list PropsType :=
  (mkElement ty (PropsAt (length h)),
   h ++ [mkProps (unreserved (fields config)) (LifetimeInternal config)
           (UIDInternal config)]).

(** Body of the [forEach] of [RenderComponents].  [element.props ?? {}]
    is the element's own table when there is one and a fresh empty table
    otherwise; the two assignments write through that reference. *)
Definition render_component {rt : Runtime} (self : ControllerRef)
    (acc : JsMap GUID Fragment * list PropsType)
    (entry : GUID * ComponentState) : JsMap GUID Fragment * list PropsType :=
  let '(renderedChildren, h) := acc in
  let '(uid, component) := entry in
  let element := Element component in
  match props element with
  | PropsMissing =>
      (JsMap.set renderedChildren uid (JsMap.set [] (Key component) element), h)
  | slot =>
      let '(l, h0) :=
        match slot with
        | PropsAt l => (l, h)
        | _ => (length h, h ++ [empty_props])
        end in
      let h1 := alter (write_LifetimeInternal self) l h0 in
      let h2 := alter (write_UIDInternal uid) l h1 in
      let '(created, h3) :=
        createElement (type element) (default empty_props (h2 !! l)) h2 in
      (JsMap.set renderedChildren uid (JsMap.set [] (Key component) created), h3)
  end.

Definition RenderComponents {rt : Runtime} (self : ControllerRef) (w : World)
    : JsMap GUID Fragment * World :=
  let '(renderedChildren, h) :=
    foldl (render_component self) ([], heap w) (walk (AllComponents (this w))) in
  (renderedChildren, mkWorld (this w) (guid_calls w) (updater_calls w) h).

(** ** Hooks: what a call does during the render pass *)

Inductive Exn :=
  | TypeError (what : string)
  | Thrown (message : string).

Inductive result (A : Type) :=
  | Ok (a : A)
  | Raise (e : Exn).
Arguments Ok {A} a.
Arguments Raise {A} e.

#[global] Instance result_ret : MRet result := λ A a, Ok a.
#[global] Instance result_bind : MBind result := λ A B f m,
  match m with
  | Ok a => f a
  | Raise e => Raise e
  end.

Record IntrinsicData := mkIntrinsic {
  uid : option GUID;
  controller : option ControllerRef;
}.

Definition useIntrinsicData (props : PropsType) : option IntrinsicData :=
  let uid := UIDInternal props in
  let controller := LifetimeInternal props in
  if bool_decide (uid = None) || bool_decide (controller = None) then None
  else Some (mkIntrinsic uid controller).

(** [const { uid, controller } = useIntrinsicData(props)!]: the [!] is
    erased by the compiler, and destructuring [undefined] is a runtime
    error. *)
Definition destructure (d : option IntrinsicData) : result IntrinsicData :=
  match d with
  | Some d => Ok d
  | None => Raise (TypeError "Cannot destructure property 'uid' of undefined")
  end.

Definition dquote : string := String (Ascii.ascii_of_nat 34) EmptyString.

Definition not_a_child_message (article : string) : string :=
  "You cant use useComponentLifetime hook in components that are not children of "
  +:+ article +:+ dquote +:+ "LifetimeComponent" +:+ dquote.

Section hooks.
(** The controller object behind each reference. *)
Context (store : ControllerRef → LifetimeController).

Definition useComponentIsActive (props : PropsType) : result bool :=
  d ← destructure (useIntrinsicData props);
  match uid d, controller d with
  | Some uid, Some controller => Ok (IsComponentActive uid (store controller))
  | _, _ => Ok true
  end.

(** The three removal strategies.  Only their synchronous part is
    modelled: the value computed during the render pass, here the
    activity flag their effects are keyed on.  The effects themselves
    run after the pass, from the host's scheduler. *)
Definition useComponentLifetime (props : PropsType) : result bool :=
  d ← destructure (useIntrinsicData props);
  match uid d, controller d with
  | Some uid, Some controller => Ok (IsComponentActive uid (store controller))
  | _, _ => Raise (Thrown (not_a_child_message "a "))
  end.

Definition useDeferLifetime (props : PropsType) : result bool :=
  active ← useComponentIsActive props;
  d ← destructure (useIntrinsicData props);
  match uid d, controller d with
  | Some _, Some _ => Ok active
  | _, _ => Raise (Thrown (not_a_child_message EmptyString))
  end.

Definition useLifetimeAsync (props : PropsType) : result bool :=
  d ← destructure (useIntrinsicData props);
  active ← useComponentIsActive props;
  match uid d, controller d with
  | Some _, Some _ => Ok active
  | _, _ => Raise (Thrown (not_a_child_message EmptyString))
  end.
End hooks.

(** ** Calls on a controller and the states they reach *)

Inductive Call :=
  | CallSetUpdater (updater : UpdaterFn)
  | CallSetCanRecover (b : bool)
  | CallRemoveRenderedByUID (uid : GUID)
  | CallUnlistComponent (uid : GUID)
  | CallRegistryComponent (element : ReactElement) (key : LogicalKey)
  | CallUpdateComponent (uid : GUID) (element : ReactElement)
  | CallProcessChildren (children : JsMap LogicalKey ReactElement)
  | CallRenderComponents (self : ControllerRef).

#[global] Instance PropVal_eq_dec : EqDecision PropVal.
Proof. solve_decision. Defined.
#[global] Instance PropsSlot_eq_dec : EqDecision PropsSlot.
Proof. solve_decision. Defined.
#[global] Instance ReactElement_eq_dec : EqDecision ReactElement.
Proof. solve_decision. Defined.
#[global] Instance UpdaterFn_eq_dec : EqDecision UpdaterFn.
Proof. solve_decision. Defined.
#[global] Instance Call_eq_dec : EqDecision Call.
Proof. solve_decision. Defined.

Section run.
Context {rt : Runtime} (GenerateGUID : nat → GUID).

Definition exec (w : World) (c : Call) : World :=
  match c with
  | CallSetUpdater updater => with_this (SetUpdater updater) w
  | CallSetCanRecover b => with_this (set_CanRecover b) w
  | CallRemoveRenderedByUID uid => with_this (RemoveRenderedByUID uid) w
  | CallUnlistComponent uid => UnlistComponent uid w
  | CallRegistryComponent element key => RegistryComponent GenerateGUID element key w
  | CallUpdateComponent uid element => with_this (UpdateComponent uid element) w
  | CallProcessChildren children => ProcessChildren GenerateGUID children w
  | CallRenderComponents self => (RenderComponents self w).2
  end.

Definition run (w : World) (cs : list Call) : World := foldl exec w cs.

Inductive reachable : World → Prop :=
  | reachable_new : reachable new_World
  | reachable_exec w c : reachable w → reachable (exec w c).
End run.

(** ** Vocabulary of the specification *)

(** The entries of [m] stored with logical key [k]. *)
Definition by_key (m : JsMap GUID ComponentState) (k : LogicalKey)
    : JsMap GUID ComponentState :=
  filter (λ uc, Key uc.2 = k) m.

(** [UpdateComponent]'s new record for an entry. *)
Definition rebind (element : ReactElement) (c : ComponentState) : ComponentState :=
  mkComponent (Key c) element (UID c).

(** A list of entries once the entry stored under [u] carries [el]. *)
Definition rebound (u : GUID) (el : ReactElement) (m : JsMap GUID ComponentState)
    : JsMap GUID ComponentState :=
  (λ uc, if decide (uc.1 = u) then (uc.1, rebind el uc.2) else uc) <$> m.

(** The data-model invariants: both lists are maps, every binding names a
    stored entry whose [Key] is the bound key, and an entry is stored under
    its own [UID]. *)
Record bindings_ok (t : LifetimeController) : Prop := mk_bindings_ok {
  ok_entries_wf : JsMap.wf (AllComponents t);
  ok_bindings_wf : JsMap.wf (CurrentRendered t);
  ok_bound : ∀ k u, JsMap.get (CurrentRendered t) k = Some u →
    ∃ c, JsMap.get (AllComponents t) u = Some c ∧ Key c = k;
  ok_uid : ∀ u c, JsMap.get (AllComponents t) u = Some c → UID c = u;
}.

(** The stored identities were handed out by the identifier service. *)
Definition issued (GenerateGUID : nat → GUID) (w : World) : Prop :=
  ∀ u, u ∈ JsMap.keys (AllComponents (this w)) →
    ∃ n, n < guid_calls w ∧ u = GenerateGUID n.

Definition Inv (GenerateGUID : nat → GUID) (w : World) : Prop :=
  bindings_ok (this w) ∧ issued GenerateGUID w.

(** The physical keys of a render pass. *)
Definition physical_keys {rt : Runtime} (self : ControllerRef) (w : World)
    : list GUID :=
  JsMap.keys (RenderComponents self w).1.

(** The controller between the two loops of [ProcessChildren]: entries of
    still-requested keys carry their new element and [CurrentRendered] is
    the rebuilt map. *)
Definition after_rebind (children : JsMap LogicalKey ReactElement) (w : World) : World :=
  let r := foldl (keep_child children) ([], this w) (CurrentRendered (this w)) in
  with_this (λ _, set_CurrentRendered r.1 r.2) w.

(** The requested children that the second loop of [ProcessChildren]
    handles before it comes to the one for [k]. *)
Fixpoint earlier_than (k : LogicalKey) (children : JsMap LogicalKey ReactElement)
    : JsMap LogicalKey ReactElement :=
  match children with
  | [] => []
  | (k', child) :: rest =>
      if decide (k' = k) then [] else (k', child) :: earlier_than k rest
  end.

(** The state in which the second loop comes to the requested child [k]. *)
Definition on_reaching {rt : Runtime} (GenerateGUID : nat → GUID) (k : LogicalKey)
    (children : JsMap LogicalKey ReactElement) (w : World) : World :=
  foldl (place_child GenerateGUID) (after_rebind children w) (earlier_than k children).

(** What [RenderComponents] emits for a stored entry: an item under the
    entry's identity whose fragment holds one element, of the entry's
    component type, under the entry's logical key. *)
Definition rendered_as (entry : GUID * ComponentState) (item : GUID * Fragment) : Prop :=
  item.1 = entry.1
  ∧ ∃ el, item.2 = [(Key entry.2, el)] ∧ type el = type (Element entry.2).

(** ** A concrete identifier service, two runtimes and a small scenario

    [serial_GUID] numbers the identifiers it hands out.  [stored_order] is
    a runtime whose loops meet the entries in the order in which they were
    added, [reverse_order] one whose loops meet them the other way round;
    both keep React's reserved names out of the props.  The scenario is a
    parent that requests windows [A] and [B] in its first pass. *)
Definition serial_GUID (n : nat) : GUID := "guid-" +:+ pretty n.

Definition RESERVED_PROPS : list string := ["key"; "ref"; "__self"; "__source"].

Definition stored_order : Runtime :=
  {| walk := λ m, m;
     walk_visits_all := λ m, Permutation_refl m;
     reserved := λ name, existsb (String.eqb name) RESERVED_PROPS;
     reserved_key := eq_refl;
     reserved_ref := eq_refl |}.

Definition reverse_order : Runtime :=
  {| walk := reverse;
     walk_visits_all := reverse_Permutation;
     reserved := λ name, existsb (String.eqb name) RESERVED_PROPS;
     reserved_key := eq_refl;
     reserved_ref := eq_refl |}.

Definition window (name : string) : ReactElement := mkElement name PropsMissing.

Definition key_A : LogicalKey := KStr "A".
Definition key_B : LogicalKey := KStr "B".

Definition two_windows : World :=
  run (rt := stored_order) serial_GUID new_World
    [CallProcessChildren [(key_A, window "a1"); (key_B, window "b1")]].

(** [A] requested, dropped, requested again and dropped again while
    recovery is off; recovery is switched on afterwards. *)
Definition twice_dropped_calls : list Call :=
  [CallProcessChildren [(key_A, window "a1")];
   CallProcessChildren [];
   CallProcessChildren [(key_A, window "a2")];
   CallProcessChildren [];
   CallSetCanRecover true].

Definition twice_dropped (passes : nat) : World :=
  run (rt := stored_order) serial_GUID new_World (take passes twice_dropped_calls).

(** A caller that owns the props table [{ title = "hi" }] at address 0 and
    requests one element built on it. *)
Definition titled_props : PropsType := mkProps {["title" := VStr "hi"]} None None.

Definition titled_window : World :=
  run (rt := stored_order) serial_GUID (mkWorld new_LifetimeController 0 [] [titled_props])
    [CallProcessChildren [(key_A, mkElement "Window" (PropsAt 0))]].

(** ** The rest of the module: [SanitizeProps], [useIsLifetimeComponent],
    the deferred-frames callback, and the host adapter *)

(** [SanitizeProps]: a value that is not a table is returned as it is; a
    table is copied, entry by entry, into a new table, leaving out the two
    private keys. *)
Definition SanitizeProps (props : option Loc) (h : list PropsType)
    : option Loc * list PropsType :=
  match props with
  | None => (None, h)
  | Some l =>
      let old := default empty_props (h !! l) in
      (Some (length h), h ++ [mkProps (fields old) None None])
  end.

(** [useIsLifetimeComponent]: [useMemo] with an empty dependency list runs
    its function in the first render and returns the stored value in every
    later one; [memo] is that storage. *)
Definition useIsLifetimeComponent (memo : option bool) (props : PropsType)
    : bool * option bool :=
  let data := useIntrinsicData props in
  match memo with
  | Some isComponent => (isComponent, memo)
  | None =>
      let isComponent := bool_decide (data ≠ None) in
      (isComponent, Some isComponent)
  end.

(** The hook called in a series of renders, each with its own props. *)
Fixpoint renders_useIsLifetimeComponent (memo : option bool) (ps : list PropsType)
    : list bool :=
  match ps with
  | [] => []
  | props :: ps' =>
      let r := useIsLifetimeComponent memo props in
      r.1 :: renders_useIsLifetimeComponent r.2 ps'
  end.

(** The [Heartbeat] callback that [useDeferLifetime] connects while the
    component is inactive: [deferred] is the counter kept in the ref. *)
Definition defer_heartbeat (frames : Z) (uid : GUID) (st : Z * World) : Z * World :=
  let deferred := (st.1 + 1)%Z in
  if decide (deferred < frames)%Z then (deferred, st.2)
  else (deferred, UnlistComponent uid st.2).

(** The children handed to [LifetimeComponent]: nothing ([undefined] or
    [false]), a valid element (its [key] member shown beside it), or a table
    (an array or a map) of further nodes. *)
Inductive ReactNode :=
  | NodeFalse
  | NodeElement (key : option LogicalKey) (element : ReactElement)
  | NodeTable (entries : list (LogicalKey * ReactNode)).

(** Body of the [for] loop of [CreateChildrenMap] for one table entry; the
    table case is the recursive call, which walks the nested table with the
    same accumulator. *)
Fixpoint collect_child (appened : JsMap LogicalKey ReactElement)
    (key : LogicalKey) (element : ReactNode) : JsMap LogicalKey ReactElement :=
  match element with
  | NodeFalse => appened
  | NodeElement (Some own) el => JsMap.set appened own el
  | NodeElement None el => JsMap.set appened key el
  | NodeTable entries => foldl (λ a kn, collect_child a kn.1 kn.2) appened entries
  end.

(** [CreateChildrenMap].  A single element is walked as the one-entry
    table [[children]], whose entry sits at index 1. *)
Definition CreateChildrenMap (children : ReactNode)
    (append : option (JsMap LogicalKey ReactElement))
    : JsMap LogicalKey ReactElement :=
  let appened := default [] append in
  match children with
  | NodeFalse => appened
  | NodeElement _ _ => foldl (λ a kn, collect_child a kn.1 kn.2) appened [(KNum 1, children)]
  | NodeTable entries => foldl (λ a kn, collect_child a kn.1 kn.2) appened entries
  end.

Section host_adapter.
Context {rt : Runtime} (GenerateGUID : nat → GUID).

(** One render of [LifetimeComponent] once its controller exists:
    [CanRecover] is the optional prop, [children] the children prop. *)
Definition LifetimeComponent (self : ControllerRef) (CanRecoverProp : option bool)
    (children : ReactNode) (w : World) : JsMap GUID Fragment * World :=
  let w1 := with_this (set_CanRecover (default false CanRecoverProp)) w in
  let requested := CreateChildrenMap children None in
  let w2 := ProcessChildren GenerateGUID requested w1 in
  RenderComponents self w2.
End host_adapter.

(** The logical keys of the stored entries. *)
Definition stored_keys (t : LifetimeController) : list LogicalKey :=
  (λ uc, Key uc.2) <$> AllComponents t.

(** Calls that neither switch recovery off nor register an entry behind
    the back of [ProcessChildren]. *)
Definition keeps_recovery (c : Call) : bool :=
  match c with
  | CallRegistryComponent _ _ => false
  | CallSetCanRecover b => b
  | _ => true
  end.

(** Every props table an element refers to exists. *)
Definition heap_closed (w : World) : Prop :=
  ∀ u c l, (u, c) ∈ AllComponents (this w) →
    props (Element c) = PropsAt l → l < length (heap w).

(** How a render pass may change the heap: tables are never removed, their
    ordinary fields never change, and tables from address [n] on are left
    as they are. *)
Definition heap_extends (n : nat) (h h' : list PropsType) : Prop :=
  length h ≤ length h'
  ∧ (∀ i p, h !! i = Some p → ∃ p', h' !! i = Some p' ∧ fields p' = fields p)
  ∧ (∀ i p, n ≤ i → h !! i = Some p → h' !! i = Some p).

(** The elements of a tree of children, each with the key it is stored
    under: its own key if it has one, else the key of its table entry. *)
Fixpoint node_elements (key : LogicalKey) (node : ReactNode)
    : list (LogicalKey * ReactElement) :=
  match node with
  | NodeFalse => []
  | NodeElement (Some own) el => [(own, el)]
  | NodeElement None el => [(key, el)]
  | NodeTable entries => flat_map (λ kn, node_elements kn.1 kn.2) entries
  end.

(** * Properties *)

(** ** Lookup, update and removal in maps *)

Module JsMapFacts.
Section facts.
Context {K V : Type} `{!EqDecision K}.
Implicit Types (m : list (K * V)) (k : K) (v : V).

Lemma get_set m k k' v :
  JsMap.get (JsMap.set m k v) k' = if decide (k = k') then Some v else JsMap.get m k'.
Proof.
  induction m as [|[k0 v0] m IH]; simpl.
  - by destruct (decide (k = k')).
  - destruct (decide (k0 = k)) as [->|Hne]; simpl.
    + by destruct (decide (k = k')).
    + rewrite IH. destruct (decide (k0 = k')) as [->|]; [|done].
      by rewrite decide_False.
Qed.

Lemma get_set_eq m k v : JsMap.get (JsMap.set m k v) k = Some v.
Proof. by rewrite get_set, decide_True. Qed.

Lemma get_set_ne m k k' v : k ≠ k' → JsMap.get (JsMap.set m k v) k' = JsMap.get m k'.
Proof. intros. by rewrite get_set, decide_False. Qed.

Lemma get_delete m k k' :
  JsMap.get (JsMap.delete m k) k' = if decide (k = k') then None else JsMap.get m k'.
Proof.
  unfold JsMap.delete. induction m as [|[k0 v0] m IH]; simpl.
  - by destruct (decide (k = k')).
  - rewrite filter_cons. simpl. destruct (decide (k0 ≠ k)) as [Hne|Heq]; simpl.
    + rewrite IH. destruct (decide (k0 = k')) as [->|]; [|done].
      by rewrite decide_False.
    + apply dec_stable in Heq as ->. rewrite IH.
      by destruct (decide (k = k')).
Qed.

Lemma get_None m k : JsMap.get m k = None ↔ k ∉ JsMap.keys m.
Proof.
  unfold JsMap.keys. induction m as [|[k0 v0] m IH]; simpl.
  - split; [intros _; apply not_elem_of_nil | done].
  - rewrite not_elem_of_cons. destruct (decide (k0 = k)) as [->|Hne].
    + split; [done | intros [? _]; done].
    + rewrite IH. split; [by intros ? | by intros [_ ?]].
Qed.

Lemma get_is_Some m k : is_Some (JsMap.get m k) ↔ k ∈ JsMap.keys m.
Proof.
  rewrite <-not_eq_None_Some, get_None.
  split; [apply dec_stable | by intros ? ?].
Qed.

Lemma get_Some_elem m k v : JsMap.get m k = Some v → (k, v) ∈ m.
Proof.
  induction m as [|[k0 v0] m IH]; simpl; [done|].
  destruct (decide (k0 = k)) as [->|]; intros H.
  - injection H as ->. left.
  - right. by apply IH.
Qed.

Lemma elem_get m k v : JsMap.wf m → (k, v) ∈ m → JsMap.get m k = Some v.
Proof.
  unfold JsMap.wf, JsMap.keys.
  induction m as [|[k0 v0] m IH]; simpl; intros Hwf Hin.
  - by apply elem_of_nil in Hin.
  - apply NoDup_cons in Hwf as [Hk0 Hwf].
    apply elem_of_cons in Hin as [Heq|Hin].
    + simplify_eq. by rewrite decide_True.
    + rewrite decide_False; [by apply IH|].
      intros ->. apply Hk0. apply list_elem_of_fmap. by exists (k, v).
Qed.

Lemma get_app m1 m2 k :
  JsMap.get (m1 ++ m2) k
  = match JsMap.get m1 k with Some v => Some v | None => JsMap.get m2 k end.
Proof.
  induction m1 as [|[k0 v0] m1 IH]; simpl; [done|].
  by destruct (decide (k0 = k)).
Qed.

Lemma set_absent m k v : JsMap.get m k = None → JsMap.set m k v = m ++ [(k, v)].
Proof.
  induction m as [|[k0 v0] m IH]; simpl; [done|].
  destruct (decide (k0 = k)); [done|]. intros H. by rewrite IH.
Qed.

Lemma keys_set_present m k v :
  is_Some (JsMap.get m k) → JsMap.keys (JsMap.set m k v) = JsMap.keys m.
Proof.
  unfold JsMap.keys. induction m as [|[k0 v0] m IH]; simpl.
  - by intros [? ?].
  - destruct (decide (k0 = k)) as [->|]; simpl; [done|].
    intros H. f_equal. by apply IH.
Qed.

Lemma keys_set m k v :
  JsMap.keys (JsMap.set m k v)
  = if JsMap.get m k is Some _ then JsMap.keys m else JsMap.keys m ++ [k].
Proof.
  destruct (JsMap.get m k) eqn:E.
  - apply keys_set_present. by rewrite E.
  - rewrite set_absent by done. unfold JsMap.keys. by rewrite fmap_app.
Qed.

Lemma wf_nil : JsMap.wf (@nil (K * V)).
Proof. apply NoDup_nil_2. Qed.

Lemma wf_set m k v : JsMap.wf m → JsMap.wf (JsMap.set m k v).
Proof.
  unfold JsMap.wf. rewrite keys_set. destruct (JsMap.get m k) eqn:E; [done|].
  intros Hwf. apply NoDup_app. split_and!; [done| |apply NoDup_singleton].
  intros x Hx ->%list_elem_of_singleton. by apply get_None in E.
Qed.

Lemma wf_delete m k : JsMap.wf m → JsMap.wf (JsMap.delete m k).
Proof.
  unfold JsMap.wf, JsMap.keys, JsMap.delete.
  induction m as [|[k0 v0] m IH]; simpl; [done|].
  rewrite NoDup_cons. intros [Hk0 Hwf]. rewrite filter_cons. simpl.
  destruct (decide (k0 ≠ k)); [|by apply IH].
  simpl. apply NoDup_cons. split; [|by apply IH].
  intros Hin. apply Hk0. apply list_elem_of_fmap in Hin as [[k1 v1] [-> Hin]].
  apply list_elem_of_filter in Hin as [_ Hin].
  apply list_elem_of_fmap. by exists (k1, v1).
Qed.

Lemma delete_absent m k : JsMap.get m k = None → JsMap.delete m k = m.
Proof.
  unfold JsMap.delete. induction m as [|[k0 v0] m IH]; simpl; [done|].
  destruct (decide (k0 = k)); [done|]. intros H.
  rewrite filter_cons. simpl. rewrite decide_True by done. by rewrite IH.
Qed.

Lemma length_delete_present m k v :
  JsMap.get m k = Some v → length (JsMap.delete m k) < length m.
Proof.
  unfold JsMap.delete. induction m as [|[k0 v0] m IH]; simpl; [done|].
  rewrite filter_cons. simpl. destruct (decide (k0 = k)) as [->|Hne].
  - intros _. rewrite decide_False by (by intros ?).
    pose proof (length_filter (λ kv : K * V, kv.1 ≠ k) m). lia.
  - intros H. rewrite decide_True by done. simpl. specialize (IH H). lia.
Qed.
End facts.
End JsMapFacts.
Import JsMapFacts.

(** ** Entries grouped by logical key *)

Section by_key_facts.
Implicit Types (m : list (GUID * ComponentState)) (k : LogicalKey).

Lemma elem_of_by_key m k u c : (u, c) ∈ by_key m k ↔ (u, c) ∈ m ∧ Key c = k.
Proof. unfold by_key. rewrite list_elem_of_filter. simpl. tauto. Qed.

Lemma by_key_app m1 m2 k : by_key (m1 ++ m2) k = by_key m1 k ++ by_key m2 k.
Proof. apply filter_app. Qed.

Lemma find_by_key_head m k : find_by_key m k = snd <$> head (by_key m k).
Proof.
  unfold by_key. induction m as [|[u c] m IH]; simpl; [done|].
  rewrite filter_cons. simpl. by destruct (decide (Key c = k)).
Qed.

Lemma find_by_key_first (m : list (GUID * ComponentState)) k :
  match find_by_key m k with
  | None => ∀ u c, (u, c) ∈ m → Key c ≠ k
  | Some c =>
      ∃ pre u post, m = pre ++ (u, c) :: post ∧ Key c = k
        ∧ ∀ u' c', (u', c') ∈ pre → Key c' ≠ k
  end.
Proof.
  induction m as [|[u0 c0] m IH]; simpl.
  - intros u c Hin. by apply elem_of_nil in Hin.
  - destruct (decide (Key c0 = k)) as [Hk|Hk].
    + exists [], u0, m. split_and!; [done..|]. intros u' c' Hin.
      by apply elem_of_nil in Hin.
    + destruct (find_by_key m k) as [c|].
      * destruct IH as (pre & u & post & -> & Hkey & Hpre).
        exists ((u0, c0) :: pre), u, post. split_and!; [done..|].
        intros u' c' [Heq|Hin]%elem_of_cons; [by injection Heq as -> -> | by eapply Hpre].
      * intros u c [Heq|Hin]%elem_of_cons; [by injection Heq as -> -> | by eapply IH].
Qed.

Lemma by_key_set_other m k u c :
  (∀ c0, JsMap.get m u = Some c0 → Key c0 ≠ k) → Key c ≠ k →
  by_key (JsMap.set m u c) k = by_key m k.
Proof.
  unfold by_key. intros Hold Hnew.
  induction m as [|[u' c'] m IH]; simpl in *.
  - by rewrite filter_cons_False.
  - destruct (decide (u' = u)) as [->|Hne].
    + rewrite !filter_cons. simpl.
      rewrite decide_False by done.
      rewrite decide_False by (by apply Hold). done.
    + rewrite !filter_cons. simpl. by rewrite IH.
Qed.

End by_key_facts.

(** ** Reading the controller *)

Section reading.
Context {rt : Runtime}.
Implicit Types (t : LifetimeController) (u : GUID) (k : LogicalKey).

Lemma elem_of_walk (m : list (GUID * ComponentState)) x : x ∈ walk m ↔ x ∈ m.
Proof. by rewrite walk_visits_all. Qed.

Lemma walk_elem (m : list (GUID * ComponentState)) x : x ∈ walk m → x ∈ m.
Proof. apply elem_of_walk. Qed.

Lemma elem_walk (m : list (GUID * ComponentState)) x : x ∈ m → x ∈ walk m.
Proof. apply elem_of_walk. Qed.

Lemma wf_walk (m : list (GUID * ComponentState)) : JsMap.wf (walk m) ↔ JsMap.wf m.
Proof. unfold JsMap.wf, JsMap.keys. by rewrite walk_visits_all. Qed.

Lemma keys_walk (m : list (GUID * ComponentState)) :
  JsMap.keys (walk m) ≡ₚ JsMap.keys m.
Proof. unfold JsMap.keys. by rewrite walk_visits_all. Qed.

Lemma by_key_walk (m : list (GUID * ComponentState)) k :
  by_key (walk m) k ≡ₚ by_key m k.
Proof. unfold by_key. by rewrite walk_visits_all. Qed.

Lemma IsComponentActive_true u t :
  IsComponentActive u t = true ↔
  ∃ c, JsMap.get (AllComponents t) u = Some c ∧ UID c = u
       ∧ JsMap.get (CurrentRendered t) (Key c) = Some u.
Proof.
  unfold IsComponentActive, GetComponent, GetRendered.
  destruct (JsMap.get (AllComponents t) u) as [c|].
  2: { split; [done | by intros (c & ? & _)]. }
  destruct (JsMap.get (CurrentRendered t) (Key c)) as [rk|] eqn:Hrk.
  2: { split; [done|]. intros (c' & Hc' & _ & Hb). simplify_eq. }
  destruct (decide (rk ≠ UID c)) as [Hne|Heq].
  - split; [done|]. intros (c' & Hc' & Hu & Hb). simplify_eq.
  - apply dec_stable in Heq as ->. rewrite bool_decide_eq_true.
    split.
    + intros Hu. exists c. rewrite Hrk in Hu. by simplify_eq.
    + intros (c' & Hc' & Hu & Hb). by simplify_eq.
Qed.

Lemma IsComponentActive_bound u t :
  bindings_ok t →
  IsComponentActive u t = true ↔ ∃ k, JsMap.get (CurrentRendered t) k = Some u.
Proof.
  intros Hok. rewrite IsComponentActive_true. split.
  - intros (c & _ & _ & ?). by exists (Key c).
  - intros [k Hk]. destruct (ok_bound _ Hok _ _ Hk) as (c & Hc & <-).
    exists c. split_and!; [done | by eapply ok_uid | done].
Qed.

Lemma IsComponentActive_absent u t :
  JsMap.get (AllComponents t) u = None → IsComponentActive u t = false.
Proof. unfold IsComponentActive, GetComponent. by intros ->. Qed.

Lemma IsComponentActive_unbound u t c :
  JsMap.get (AllComponents t) u = Some c →
  JsMap.get (CurrentRendered t) (Key c) = None →
  IsComponentActive u t = false.
Proof.
  intros Hc Hk. apply not_true_is_false. rewrite IsComponentActive_true.
  intros (c' & Hc' & _ & Hb). congruence.
Qed.

Lemma GetRenderedComponentByKey_Some k t c :
  GetRenderedComponentByKey k t = Some c →
  ∃ u, (u, c) ∈ AllComponents t ∧ Key c = k.
Proof.
  unfold GetRenderedComponentByKey. rewrite find_by_key_head.
  destruct (by_key (walk (AllComponents t)) k) as [|[u c'] rest] eqn:E; [done|].
  simpl. intros [= ->]. exists u.
  assert ((u, c) ∈ by_key (walk (AllComponents t)) k) as [Hin Hk]%elem_of_by_key
    by (rewrite E; left).
  split; [by apply walk_elem | done].
Qed.

Lemma GetRenderedComponentByKey_None k t :
  GetRenderedComponentByKey k t = None ↔ by_key (AllComponents t) k = [].
Proof.
  unfold GetRenderedComponentByKey. rewrite find_by_key_head.
  pose proof (by_key_walk (AllComponents t) k) as Hp.
  destruct (by_key (walk (AllComponents t)) k) as [|x l] eqn:E; simpl.
  - symmetry in Hp. by apply Permutation_nil_r in Hp as ->.
  - split; [done|]. intros Hnil. rewrite Hnil in Hp.
    by apply Permutation_nil_r in Hp.
Qed.

(** The entry that the lookup returns is stored under its own identity. *)
Lemma GetRenderedComponentByKey_stored k t c :
  bindings_ok t → GetRenderedComponentByKey k t = Some c →
  JsMap.get (AllComponents t) (UID c) = Some c ∧ Key c = k
  ∧ (UID c, c) ∈ by_key (AllComponents t) k.
Proof.
  intros Hok Hget. destruct (GetRenderedComponentByKey_Some _ _ _ Hget) as (u & Hin & Hk).
  pose proof (elem_get _ _ _ (ok_entries_wf _ Hok) Hin) as Hu.
  pose proof (ok_uid _ Hok _ _ Hu) as <-.
  split_and!; [done..|]. by apply elem_of_by_key.
Qed.
End reading.

(** ** [UpdateComponent] *)

Section update_component.
Implicit Types (t : LifetimeController) (u : GUID) (k : LogicalKey).

Lemma UpdateComponent_fields u el t :
  CanRecover (UpdateComponent u el t) = CanRecover t
  ∧ CurrentRendered (UpdateComponent u el t) = CurrentRendered t
  ∧ Updater (UpdateComponent u el t) = Updater t.
Proof. unfold UpdateComponent. by destruct (JsMap.get _ _). Qed.

Lemma UpdateComponent_get u el t u' :
  JsMap.get (AllComponents (UpdateComponent u el t)) u'
  = if decide (u = u') then rebind el <$> JsMap.get (AllComponents t) u
    else JsMap.get (AllComponents t) u'.
Proof.
  unfold UpdateComponent.
  destruct (JsMap.get (AllComponents t) u) as [c|] eqn:E; simpl.
  - by rewrite get_set.
  - destruct (decide (u = u')) as [<-|]; [by rewrite E|done].
Qed.

Lemma UpdateComponent_keys u el t :
  JsMap.keys (AllComponents (UpdateComponent u el t)) = JsMap.keys (AllComponents t).
Proof.
  unfold UpdateComponent.
  destruct (JsMap.get (AllComponents t) u) as [c|] eqn:E; simpl; [|done].
  apply keys_set_present. by rewrite E.
Qed.

Lemma UpdateComponent_by_key_other u el t k :
  (∀ c, JsMap.get (AllComponents t) u = Some c → Key c ≠ k) →
  by_key (AllComponents (UpdateComponent u el t)) k = by_key (AllComponents t) k.
Proof.
  intros H. unfold UpdateComponent.
  destruct (JsMap.get (AllComponents t) u) as [c|] eqn:E; simpl; [|done].
  apply by_key_set_other; [rewrite E; intros ? [= <-]; by apply H | simpl; by apply H].
Qed.

Lemma UpdateComponent_ok u el t : bindings_ok t → bindings_ok (UpdateComponent u el t).
Proof.
  intros [Hwf1 Hwf2 Hb Hu].
  destruct (UpdateComponent_fields u el t) as (_ & Hcr & _).
  split.
  - unfold JsMap.wf. by rewrite UpdateComponent_keys.
  - by rewrite Hcr.
  - intros k u' Hk. rewrite Hcr in Hk. destruct (Hb _ _ Hk) as (c & Hc & <-).
    rewrite UpdateComponent_get. destruct (decide (u = u')) as [->|].
    + rewrite Hc. by exists (rebind el c).
    + by exists c.
  - intros u' c. rewrite UpdateComponent_get. destruct (decide (u = u')) as [->|].
    + destruct (JsMap.get (AllComponents t) u') as [c0|] eqn:E; [|done].
      simpl. intros [= <-]. simpl. by apply Hu.
    + apply Hu.
Qed.
Lemma rebound_absent (m : list (GUID * ComponentState)) u el :
  u ∉ JsMap.keys m → rebound u el m = m.
Proof.
  unfold rebound, JsMap.keys. induction m as [|[u0 c0] m IH]; [done|].
  rewrite !fmap_cons, not_elem_of_cons. simpl. intros [Hne Hm].
  rewrite decide_False by done. by rewrite IH.
Qed.

Lemma set_rebound (m : list (GUID * ComponentState)) u c el :
  JsMap.wf m → JsMap.get m u = Some c → JsMap.set m u (rebind el c) = rebound u el m.
Proof.
  unfold JsMap.wf, JsMap.keys. induction m as [|[u0 c0] m IH]; [done|].
  rewrite fmap_cons, NoDup_cons. intros [Hfresh Hwf].
  change (rebound u el ((u0, c0) :: m))
    with ((if decide (u0 = u) then (u0, rebind el c0) else (u0, c0)) :: rebound u el m).
  simpl. destruct (decide (u0 = u)) as [->|Hne].
  - intros [= ->]. f_equal. symmetry. by apply rebound_absent.
  - intros Hget. f_equal. by apply IH.
Qed.

Lemma keys_rebound (m : list (GUID * ComponentState)) u el :
  JsMap.keys (rebound u el m) = JsMap.keys m.
Proof.
  unfold rebound, JsMap.keys. induction m as [|[u0 c0] m IH]; [done|].
  rewrite !fmap_cons, IH. simpl. by destruct (decide (u0 = u)).
Qed.

Lemma by_key_rebound (m : list (GUID * ComponentState)) u el k :
  by_key (rebound u el m) k = rebound u el (by_key m k).
Proof.
  induction m as [|[u0 c0] m IH]; [done|].
  change (rebound u el ((u0, c0) :: m))
    with ((if decide (u0 = u) then (u0, rebind el c0) else (u0, c0)) :: rebound u el m).
  unfold by_key in *. rewrite !filter_cons.
  destruct (decide (u0 = u)) as [->|Hne]; simpl;
    destruct (decide (Key c0 = k)); rewrite IH; [|done| |done].
  - unfold rebound at 2. rewrite fmap_cons. simpl. by rewrite decide_True.
  - unfold rebound at 2. rewrite fmap_cons. simpl. by rewrite decide_False.
Qed.

Lemma elem_of_rebound (m : list (GUID * ComponentState)) u el u' c :
  (u', c) ∈ m → (u', if decide (u' = u) then rebind el c else c) ∈ rebound u el m.
Proof.
  intros Hin. unfold rebound. apply list_elem_of_fmap. exists (u', c).
  split; [|done]. simpl. by destruct (decide (u' = u)).
Qed.

Lemma UpdateComponent_rebound u el t :
  JsMap.wf (AllComponents t) →
  AllComponents (UpdateComponent u el t) = rebound u el (AllComponents t).
Proof.
  intros Hwf. unfold UpdateComponent.
  destruct (JsMap.get (AllComponents t) u) as [c|] eqn:E; simpl.
  - by apply (set_rebound _ _ c).
  - symmetry. by apply rebound_absent, get_None.
Qed.
End update_component.

(** ** First loop of [ProcessChildren] *)

Section rebind_loop.
Context (children : list (LogicalKey * ReactElement)).
Implicit Types (l nc : list (LogicalKey * GUID)) (t : LifetimeController).

Lemma keep_loop_fields l nc t :
  let r := foldl (keep_child children) (nc, t) l in
  CanRecover r.2 = CanRecover t ∧ CurrentRendered r.2 = CurrentRendered t
  ∧ Updater r.2 = Updater t
  ∧ JsMap.keys (AllComponents r.2) = JsMap.keys (AllComponents t).
Proof.
  revert nc t. induction l as [|[k u] l IH]; intros nc t; simpl; [done|].
  destruct (JsMap.get children k) as [child|]; [|apply IH].
  destruct (IH (JsMap.set nc k u) (UpdateComponent u child t)) as (-> & -> & -> & ->).
  destruct (UpdateComponent_fields u child t) as (-> & -> & ->).
  by rewrite UpdateComponent_keys.
Qed.

Lemma keep_loop_bindings l nc t k :
  JsMap.wf l →
  JsMap.get (foldl (keep_child children) (nc, t) l).1 k
  = match JsMap.get children k, JsMap.get l k with
    | Some _, Some u => Some u
    | _, _ => JsMap.get nc k
    end.
Proof.
  unfold JsMap.wf, JsMap.keys.
  revert nc t. induction l as [|[k0 u0] l IH]; intros nc t Hwf; simpl.
  - by destruct (JsMap.get children k).
  - rewrite fmap_cons in Hwf. apply NoDup_cons in Hwf as [Hk0 Hwf]. simpl in Hk0.
    destruct (JsMap.get children k0) as [child0|] eqn:E0.
    + rewrite IH by done. destruct (decide (k0 = k)) as [<-|Hne].
      * rewrite E0. apply (get_None l k0) in Hk0 as ->. apply get_set_eq.
      * by rewrite get_set_ne.
    + rewrite IH by done. destruct (decide (k0 = k)) as [<-|Hne]; [|done].
      by rewrite E0.
Qed.

Lemma keep_loop_wf l nc t :
  JsMap.wf nc → JsMap.wf (foldl (keep_child children) (nc, t) l).1.
Proof.
  revert nc t. induction l as [|[k u] l IH]; intros nc t Hwf; simpl; [done|].
  destruct (JsMap.get children k); apply IH; [by apply wf_set | done].
Qed.

(** An entry is left alone unless some binding to it is still requested,
    and then it carries the requested element. *)
Lemma keep_loop_entries l nc t u :
  let r := foldl (keep_child children) (nc, t) l in
  (¬ (∃ k child, (k, u) ∈ l ∧ JsMap.get children k = Some child)
     ∧ JsMap.get (AllComponents r.2) u = JsMap.get (AllComponents t) u)
  ∨ (∃ k child, (k, u) ∈ l ∧ JsMap.get children k = Some child
     ∧ JsMap.get (AllComponents r.2) u = rebind child <$> JsMap.get (AllComponents t) u).
Proof.
  induction l as [|[k0 u0] l IH] using rev_ind; simpl.
  - left. split; [|done]. intros (k & child & Hin & _). by apply elem_of_nil in Hin.
  - rewrite foldl_snoc. destruct (foldl (keep_child children) (nc, t) l) as [nc' t'].
    simpl in *. destruct (JsMap.get children k0) as [child0|] eqn:E0; simpl.
    + rewrite UpdateComponent_get. destruct (decide (u0 = u)) as [->|Hne].
      * right. exists k0, child0.
        split_and!; [apply elem_of_app; right; left | done |].
        destruct IH as [[_ ->]|(k & child & _ & _ & ->)]; [done|].
        by destruct (JsMap.get (AllComponents t) u).
      * destruct IH as [[Hno ->]|(k & child & Hin & Hc & ->)].
        -- left. split; [|done]. intros (k & child & Hin & Hc).
           apply elem_of_app in Hin as [Hin|Hin].
           ++ apply Hno. by exists k, child.
           ++ apply list_elem_of_singleton in Hin. by simplify_eq.
        -- right. exists k, child.
           split_and!; [apply elem_of_app; by left | done..].
    + destruct IH as [[Hno ->]|(k & child & Hin & Hc & ->)].
      * left. split; [|done]. intros (k & child & Hin & Hc).
        apply elem_of_app in Hin as [Hin|Hin].
        -- apply Hno. by exists k, child.
        -- apply list_elem_of_singleton in Hin. simplify_eq.
      * right. exists k, child.
        split_and!; [apply elem_of_app; by left | done..].
Qed.

Lemma keep_loop_by_key l nc t k :
  (∀ k' u c, (k', u) ∈ l → is_Some (JsMap.get children k') →
     JsMap.get (AllComponents t) u = Some c → Key c ≠ k) →
  by_key (AllComponents (foldl (keep_child children) (nc, t) l).2) k
  = by_key (AllComponents t) k.
Proof.
  revert nc t. induction l as [|[k0 u0] l IH]; intros nc t H; simpl; [done|].
  destruct (JsMap.get children k0) as [child0|] eqn:E0.
  - rewrite IH.
    + apply UpdateComponent_by_key_other. intros c Hc.
      apply (H k0 u0); [left | by rewrite E0 | done].
    + intros k' u c Hin Hsome. rewrite UpdateComponent_get.
      destruct (decide (u0 = u)) as [->|].
      * destruct (JsMap.get (AllComponents t) u) as [c0|] eqn:Ec0; [|done].
        simpl. intros [= <-]. simpl. apply (H k0 u); [left | by rewrite E0 | done].
      * apply (H k' u); [by right | done].
  - apply IH. intros k' u c Hin. apply H. by right.
Qed.
End rebind_loop.

(** ** The first loop may visit the bindings in any order

    [CurrentRendered] is a table as well, and the first loop of
    [ProcessChildren] meets its bindings in the runtime's order.  The loop
    is modelled on the list as it stands; whatever the order, the entries
    come out the same and the new table holds the same bindings. *)

Section first_loop_order.
Context (children : list (LogicalKey * ReactElement)).
Implicit Types (l nc : list (LogicalKey * GUID)) (t : LifetimeController).

Lemma get_Permutation {K V} `{!EqDecision K} (m m' : list (K * V)) (x : K) :
  JsMap.wf m → m ≡ₚ m' → JsMap.get m x = JsMap.get m' x.
Proof.
  intros Hwf Hp. assert (JsMap.wf m') as Hwf'.
  { unfold JsMap.wf, JsMap.keys in *. by rewrite <-Hp. }
  destruct (JsMap.get m x) as [v|] eqn:E.
  - symmetry. apply elem_get; [done|]. rewrite <-Hp. by apply get_Some_elem.
  - symmetry. apply get_None. apply get_None in E.
    unfold JsMap.keys in *. by rewrite <-Hp.
Qed.

Lemma UpdateComponent_as_rebound u el t :
  JsMap.wf (AllComponents t) →
  UpdateComponent u el t = set_AllComponents (rebound u el (AllComponents t)) t.
Proof.
  intros Hwf. rewrite <-UpdateComponent_rebound by done.
  destruct (UpdateComponent_fields u el t) as (Hrec & Hcr & Hupd).
  unfold set_AllComponents. rewrite <-Hrec, <-Hcr, <-Hupd.
  by destruct (UpdateComponent u el t).
Qed.

Lemma UpdateComponent_comm u1 el1 u2 el2 t :
  JsMap.wf (AllComponents t) → u1 ≠ u2 →
  UpdateComponent u1 el1 (UpdateComponent u2 el2 t)
  = UpdateComponent u2 el2 (UpdateComponent u1 el1 t).
Proof.
  intros Hwf Hne.
  assert (∀ u el, JsMap.wf (AllComponents (UpdateComponent u el t))) as Hwf'.
  { intros u el. unfold JsMap.wf. by rewrite UpdateComponent_keys. }
  rewrite (UpdateComponent_as_rebound u1 el1 (UpdateComponent u2 el2 t)) by done.
  rewrite (UpdateComponent_as_rebound u2 el2 (UpdateComponent u1 el1 t)) by done.
  rewrite !(UpdateComponent_as_rebound _ _ t) by done.
  unfold set_AllComponents. simpl. f_equal.
  unfold rebound. rewrite <-!list_fmap_compose. apply list_fmap_ext.
  intros i [u c] _. simpl.
  destruct (decide (u = u2)), (decide (u = u1)); simpl;
    repeat case_decide; congruence.
Qed.

Lemma keep_loop_same_list l nc nc' t :
  nc ≡ₚ nc' → NoDup (JsMap.keys nc ++ JsMap.keys l) →
  (foldl (keep_child children) (nc', t) l).2 = (foldl (keep_child children) (nc, t) l).2
  ∧ (foldl (keep_child children) (nc', t) l).1 ≡ₚ (foldl (keep_child children) (nc, t) l).1.
Proof.
  unfold JsMap.keys.
  revert nc nc' t. induction l as [|[k u] l IH]; intros nc nc' t Hp Hnd; simpl.
  - split; [done | by symmetry].
  - rewrite fmap_cons in Hnd. simpl in Hnd.
    assert (NoDup (nc.*1 ++ l.*1)) as Hnd'.
    { apply NoDup_app in Hnd as (? & Hdisj & [_ ?]%NoDup_cons).
      apply NoDup_app. split_and!; [done| |done].
      intros x Hx Hin. apply (Hdisj x Hx). by right. }
    destruct (JsMap.get children k) as [child|]; [|by apply IH].
    assert (JsMap.get nc k = None) as Hfresh.
    { apply get_None. intros Hin. apply NoDup_app in Hnd as (_ & Hdisj & _).
      apply (Hdisj _ Hin). left. }
    assert (JsMap.get nc' k = None) as Hfresh'.
    { apply get_None. apply get_None in Hfresh. unfold JsMap.keys in *.
      by rewrite <-Hp. }
    rewrite (set_absent nc), (set_absent nc') by done.
    apply IH; [by rewrite Hp|].
    rewrite fmap_app. simpl. rewrite <-app_assoc. simpl.
    apply NoDup_app in Hnd as (? & Hdisj & ?).
    apply NoDup_app. split_and!; [done| |done]. intros x Hx. by apply Hdisj.
Qed.

Lemma keep_loop_any_order l l' nc t :
  l ≡ₚ l' →
  JsMap.wf (AllComponents t) →
  NoDup (JsMap.keys nc ++ JsMap.keys l) →
  (∀ k k' u, (k, u) ∈ l → (k', u) ∈ l → k = k') →
  (foldl (keep_child children) (nc, t) l').2 = (foldl (keep_child children) (nc, t) l).2
  ∧ (foldl (keep_child children) (nc, t) l').1 ≡ₚ (foldl (keep_child children) (nc, t) l).1.
Proof.
  unfold JsMap.keys. intros Hp. revert nc t.
  induction Hp as [|[k u] l l' Hp IH|[k2 u2] [k1 u1] l|l l'' l' Hp1 IH1 Hp2 IH2];
    intros nc t Hwf Hnd Hinj.
  - done.
  - simpl. rewrite fmap_cons in Hnd. simpl in Hnd.
    assert (∀ k0 k' u0, (k0, u0) ∈ l → (k', u0) ∈ l → k0 = k') as Hinj'.
    { intros k0 k' u0 H1 H2. apply (Hinj k0 k' u0); by right. }
    assert (NoDup (nc.*1 ++ l.*1)) as Hnd'.
    { apply NoDup_app in Hnd as (? & Hdisj & [_ ?]%NoDup_cons).
      apply NoDup_app. split_and!; [done| |done].
      intros x Hx Hin. apply (Hdisj x Hx). by right. }
    destruct (JsMap.get children k) as [child|]; [|by apply IH].
    apply IH; [|  |done].
    + unfold JsMap.wf. by rewrite UpdateComponent_keys.
    + assert (JsMap.get nc k = None) as Hfresh.
      { apply get_None. intros Hin. apply NoDup_app in Hnd as (_ & Hdisj & _).
        apply (Hdisj _ Hin). left. }
      rewrite set_absent by done. rewrite fmap_app. simpl. rewrite <-app_assoc. simpl.
      apply NoDup_app in Hnd as (? & Hdisj & ?).
      apply NoDup_app. split_and!; [done| |done]. intros x Hx. by apply Hdisj.
  - rewrite !fmap_cons in Hnd. simpl in Hnd.
    pose proof Hnd as Hnd0.
    apply NoDup_app in Hnd as (Hnc & Hdisj & Hl).
    apply NoDup_cons in Hl as [Hk1 Hl]. apply NoDup_cons in Hl as [Hk2 Hl].
    apply not_elem_of_cons in Hk1 as [Hk12 Hk1].
    assert (JsMap.get nc k1 = None) as Hf1.
    { apply get_None. intros Hin. apply (Hdisj _ Hin). left. }
    assert (JsMap.get nc k2 = None) as Hf2.
    { apply get_None. intros Hin. apply (Hdisj _ Hin). right. left. }
    assert (u1 ≠ u2) as Hu.
    { intros <-. apply Hk12. apply (Hinj k1 k2 u1); [left | right; left]. }
    assert (JsMap.set (JsMap.set nc k1 u1) k2 u2 = nc ++ [(k1, u1); (k2, u2)]) as E12.
    { rewrite (set_absent nc k1) by done.
      rewrite set_absent; [by rewrite <-app_assoc|].
      rewrite get_app, Hf2. simpl. by rewrite decide_False. }
    assert (JsMap.set (JsMap.set nc k2 u2) k1 u1 = nc ++ [(k2, u2); (k1, u1)]) as E21.
    { rewrite (set_absent nc k2) by done.
      rewrite set_absent; [by rewrite <-app_assoc|].
      rewrite get_app, Hf1. simpl. by rewrite decide_False. }
    assert (NoDup ((nc ++ [(k1, u1); (k2, u2)]).*1 ++ l.*1)) as Hnd2.
    { rewrite fmap_app, <-app_assoc. done. }
    destruct (JsMap.get children k1) as [c1|] eqn:E1,
      (JsMap.get children k2) as [c2|] eqn:E2;
      simpl; rewrite ?E1, ?E2; simpl; rewrite ?E1, ?E2; try (split; reflexivity).
    rewrite (UpdateComponent_comm u1 c1 u2 c2) by done. rewrite E12, E21.
    apply keep_loop_same_list; [apply Permutation_app_head, perm_swap | done].
  - assert (NoDup (nc.*1 ++ l''.*1)) as Hnd''. { by rewrite <-Hp1. }
    assert (∀ k k' u, (k, u) ∈ l'' → (k', u) ∈ l'' → k = k') as Hinj''.
    { intros k k' u. rewrite <-!Hp1. apply Hinj. }
    destruct (IH1 nc t Hwf Hnd Hinj) as [E1 P1].
    destruct (IH2 nc t Hwf Hnd'' Hinj'') as [E2 P2].
    split; [congruence | by rewrite P2].
Qed.

(** At the controller: with the bindings visited in any order [l'], the
    first loop leaves the same controller and a table with the same
    bindings. *)
Lemma first_loop_any_order t l' :
  bindings_ok t → l' ≡ₚ CurrentRendered t →
  let r := foldl (keep_child children) ([], t) (CurrentRendered t) in
  let r' := foldl (keep_child children) ([], t) l' in
  r'.2 = r.2 ∧ r'.1 ≡ₚ r.1 ∧ ∀ k, JsMap.get r'.1 k = JsMap.get r.1 k.
Proof.
  intros Hok Hp. cbv zeta.
  destruct (keep_loop_any_order (CurrentRendered t) l' [] t) as [E P].
  { by symmetry. }
  { apply Hok. }
  { apply Hok. }
  { intros k k' u Hk Hk'. apply elem_get in Hk, Hk'; try apply Hok.
    destruct (ok_bound _ Hok _ _ Hk) as (c & Hc & <-).
    destruct (ok_bound _ Hok _ _ Hk') as (c' & Hc' & <-). congruence. }
  split_and!; [done..|]. intros k. apply get_Permutation; [|done].
  apply keep_loop_wf, wf_nil.
Qed.
End first_loop_order.

(** ** The controller between the two loops *)

Section after_rebind_facts.
Context (children : list (LogicalKey * ReactElement)).
Implicit Types (w : World) (k : LogicalKey) (u : GUID).

Lemma get_by_key (m : list (GUID * ComponentState)) u c :
  JsMap.wf m → JsMap.get m u = Some c ↔ (u, c) ∈ by_key m (Key c).
Proof.
  intros Hwf. rewrite elem_of_by_key. split.
  - intros H. split; [by apply get_Some_elem | done].
  - intros [H _]. by apply elem_get.
Qed.

Lemma after_rebind_frame w :
  guid_calls (after_rebind children w) = guid_calls w
  ∧ updater_calls (after_rebind children w) = updater_calls w
  ∧ heap (after_rebind children w) = heap w
  ∧ CanRecover (this (after_rebind children w)) = CanRecover (this w)
  ∧ Updater (this (after_rebind children w)) = Updater (this w)
  ∧ JsMap.keys (AllComponents (this (after_rebind children w)))
    = JsMap.keys (AllComponents (this w)).
Proof.
  unfold after_rebind. simpl.
  destruct (keep_loop_fields children (CurrentRendered (this w)) [] (this w))
    as (? & _ & ? & ?).
  done.
Qed.

Lemma after_rebind_bindings w k :
  JsMap.wf (CurrentRendered (this w)) →
  JsMap.get (CurrentRendered (this (after_rebind children w))) k
  = match JsMap.get children k with
    | Some _ => JsMap.get (CurrentRendered (this w)) k
    | None => None
    end.
Proof.
  intros Hwf. unfold after_rebind. simpl.
  rewrite keep_loop_bindings by done. simpl.
  destruct (JsMap.get children k); [|done].
  by destruct (JsMap.get (CurrentRendered (this w)) k).
Qed.

Lemma bound_key_unique w k k' u :
  bindings_ok (this w) →
  JsMap.get (CurrentRendered (this w)) k = Some u →
  JsMap.get (CurrentRendered (this w)) k' = Some u → k = k'.
Proof.
  intros Hok Hk Hk'.
  destruct (ok_bound _ Hok _ _ Hk) as (c & Hc & <-).
  destruct (ok_bound _ Hok _ _ Hk') as (c' & Hc' & <-).
  congruence.
Qed.

Lemma after_rebind_requested w k u child :
  bindings_ok (this w) →
  JsMap.get (CurrentRendered (this w)) k = Some u →
  JsMap.get children k = Some child →
  JsMap.get (AllComponents (this (after_rebind children w))) u
  = rebind child <$> JsMap.get (AllComponents (this w)) u.
Proof.
  intros Hok Hk Hchild. unfold after_rebind. simpl.
  destruct (keep_loop_entries children (CurrentRendered (this w)) [] (this w) u)
    as [[Hno _]|(k' & child' & Hin & Hc' & ->)].
  - exfalso. apply Hno. exists k, child. split; [by apply get_Some_elem | done].
  - apply elem_get in Hin; [|by apply Hok].
    assert (k = k') as <- by (by eapply bound_key_unique).
    congruence.
Qed.

Lemma after_rebind_untouched w u :
  JsMap.wf (CurrentRendered (this w)) →
  (∀ k, JsMap.get (CurrentRendered (this w)) k = Some u → JsMap.get children k = None) →
  JsMap.get (AllComponents (this (after_rebind children w))) u
  = JsMap.get (AllComponents (this w)) u.
Proof.
  intros Hwf Hno. unfold after_rebind. simpl.
  destruct (keep_loop_entries children (CurrentRendered (this w)) [] (this w) u)
    as [[_ ->]|(k' & child' & Hin & Hc' & _)]; [done|].
  apply elem_get in Hin; [|done]. apply Hno in Hin. congruence.
Qed.

Lemma after_rebind_by_key w k :
  bindings_ok (this w) →
  (∀ u, JsMap.get (CurrentRendered (this w)) k = Some u → JsMap.get children k = None) →
  by_key (AllComponents (this (after_rebind children w))) k
  = by_key (AllComponents (this w)) k.
Proof.
  intros Hok Hno. unfold after_rebind. simpl.
  apply keep_loop_by_key. intros k' u c Hin [child Hchild] Hc Hkey.
  apply elem_get in Hin; [|by apply Hok].
  destruct (ok_bound _ Hok _ _ Hin) as (c' & Hc' & Hk').
  assert (k' = k) as -> by congruence.
  apply Hno in Hin. congruence.
Qed.

Lemma after_rebind_ok w : bindings_ok (this w) → bindings_ok (this (after_rebind children w)).
Proof.
  intros Hok. destruct (after_rebind_frame w) as (_ & _ & _ & _ & _ & Hkeys).
  split.
  - unfold JsMap.wf. rewrite Hkeys. apply Hok.
  - unfold after_rebind. simpl. apply keep_loop_wf, wf_nil.
  - intros k u. rewrite after_rebind_bindings by apply Hok.
    destruct (JsMap.get children k) as [child|] eqn:Hchild; [|done].
    intros Hk. rewrite (after_rebind_requested w k u child) by done.
    destruct (ok_bound _ Hok _ _ Hk) as (c & -> & <-).
    by exists (rebind child c).
  - intros u c. unfold after_rebind. simpl.
    destruct (keep_loop_entries children (CurrentRendered (this w)) [] (this w) u)
      as [[_ ->]|(k' & child' & _ & _ & ->)]; [by apply ok_uid|].
    destruct (JsMap.get (AllComponents (this w)) u) as [c0|] eqn:E; [|done].
    simpl. intros [= <-]. simpl. by eapply ok_uid.
Qed.
End after_rebind_facts.

(** ** Identities handed out by the service *)

Section issuing.
Context {rt : Runtime} (GenerateGUID : nat → GUID).
Implicit Types (w : World) (u : GUID).

Lemma issued_elem w u :
  issued GenerateGUID w → u ∈ JsMap.keys (AllComponents (this w)) →
  ∃ n, n < guid_calls w ∧ u = GenerateGUID n.
Proof. intros Hi. apply Hi. Qed.

Lemma issued_same w w' :
  JsMap.keys (AllComponents (this w')) = JsMap.keys (AllComponents (this w)) →
  guid_calls w ≤ guid_calls w' →
  issued GenerateGUID w → issued GenerateGUID w'.
Proof.
  intros Hk Hle Hi u Hu. rewrite Hk in Hu. destruct (Hi u Hu) as (n & Hn & ->).
  exists n. split; [lia | done].
Qed.

Lemma issued_append w w' :
  issued GenerateGUID w →
  JsMap.keys (AllComponents (this w'))
  = JsMap.keys (AllComponents (this w)) ++ [GenerateGUID (guid_calls w)] →
  guid_calls w' = S (guid_calls w) →
  issued GenerateGUID w'.
Proof.
  intros Hi Hk Hn u Hu. rewrite Hk in Hu. apply elem_of_app in Hu as [Hu|Hu].
  - destruct (Hi u Hu) as (n & Hlt & ->). exists n. split; [lia | done].
  - apply list_elem_of_singleton in Hu as ->. exists (guid_calls w).
    split; [lia | done].
Qed.

Lemma issued_delete w w' u :
  issued GenerateGUID w →
  AllComponents (this w') = JsMap.delete (AllComponents (this w)) u →
  guid_calls w' = guid_calls w →
  issued GenerateGUID w'.
Proof.
  intros Hi Hac Hn u' Hu. rewrite Hac in Hu. rewrite Hn. apply Hi.
  unfold JsMap.keys, JsMap.delete in *.
  apply list_elem_of_fmap in Hu as ([u0 c0] & -> & Hin).
  apply list_elem_of_filter in Hin as [_ Hin].
  apply list_elem_of_fmap. by exists (u0, c0).
Qed.
End issuing.

(** ** Registering and placing a requested child *)

Section placing.
Context {rt : Runtime} (GenerateGUID : nat → GUID) `{!Inj (=) (=) GenerateGUID}.
Implicit Types (w : World) (k key : LogicalKey) (u : GUID).

Lemma issued_fresh w n :
  issued GenerateGUID w → guid_calls w ≤ n →
  JsMap.get (AllComponents (this w)) (GenerateGUID n) = None.
Proof.
  intros Hi Hn. apply get_None. intros Hin.
  destruct (issued_elem GenerateGUID w _ Hi Hin) as (m & Hm & Heq).
  apply (inj GenerateGUID) in Heq. lia.
Qed.

Lemma RegistryComponent_shape el key w :
  issued GenerateGUID w →
  let uid := GenerateGUID (guid_calls w) in
  let w' := RegistryComponent GenerateGUID el key w in
  AllComponents (this w') = AllComponents (this w) ++ [(uid, mkComponent key el uid)]
  ∧ CurrentRendered (this w') = JsMap.set (CurrentRendered (this w)) key uid
  ∧ guid_calls w' = S (guid_calls w).
Proof.
  intros Hi. simpl. split; [|done].
  apply set_absent. by apply issued_fresh.
Qed.

Lemma RegistryComponent_Inv el key w :
  Inv GenerateGUID w → Inv GenerateGUID (RegistryComponent GenerateGUID el key w).
Proof.
  intros [Hok Hi]. pose proof (issued_fresh w (guid_calls w) Hi (le_n _)) as Hfresh.
  destruct (RegistryComponent_shape el key w Hi) as (Hac & Hcr & Hn).
  set (uid := GenerateGUID (guid_calls w)) in *.
  set (w' := RegistryComponent GenerateGUID el key w) in *.
  assert (AllComponents (this w')
          = JsMap.set (AllComponents (this w)) uid (mkComponent key el uid)) as Hset
    by done.
  split; [split|].
  - rewrite Hset. apply wf_set, Hok.
  - rewrite Hcr. apply wf_set, Hok.
  - intros k u. rewrite Hcr, Hset, get_set. destruct (decide (key = k)) as [->|Hne].
    + intros [= <-]. rewrite get_set_eq. by eexists.
    + intros Hk. destruct (ok_bound _ Hok _ _ Hk) as (c & Hc & <-).
      exists c. split; [|done]. rewrite get_set_ne; [done|]. congruence.
  - intros u c. rewrite Hset, get_set. destruct (decide (uid = u)) as [<-|].
    + by intros [= <-].
    + by apply ok_uid.
  - apply (issued_append GenerateGUID w); [done| |done].
    rewrite Hac. unfold JsMap.keys. by rewrite fmap_app.
Qed.

Lemma place_child_bound w key child u :
  JsMap.get (CurrentRendered (this w)) key = Some u →
  place_child GenerateGUID w (key, child) = w.
Proof. simpl. by intros ->. Qed.

Lemma place_child_register w key child :
  JsMap.get (CurrentRendered (this w)) key = None →
  CanRecover (this w) = false ∨ by_key (AllComponents (this w)) key = [] →
  place_child GenerateGUID w (key, child) = RegistryComponent GenerateGUID child key w.
Proof.
  simpl. intros -> [->|Hnone]; [done|].
  apply GetRenderedComponentByKey_None in Hnone as ->.
  by destruct (CanRecover (this w)).
Qed.

Lemma place_child_recover w key child c :
  JsMap.get (CurrentRendered (this w)) key = None →
  CanRecover (this w) = true →
  GetRenderedComponentByKey key (this w) = Some c →
  place_child GenerateGUID w (key, child)
  = with_this (λ t, set_CurrentRendered
                      (JsMap.set (CurrentRendered t) key (UID c))
                      (UpdateComponent (UID c) child t)) w.
Proof.
  intros Hk Hrec Hget. simpl. rewrite Hk, Hrec, Hget. unfold with_this.
  destruct (UpdateComponent_fields (UID c) child (this w)) as (_ & -> & _). done.
Qed.

Lemma place_child_cases w key child :
  JsMap.get (CurrentRendered (this w)) key = None →
  (place_child GenerateGUID w (key, child) = RegistryComponent GenerateGUID child key w
   ∧ (CanRecover (this w) = false ∨ by_key (AllComponents (this w)) key = [])
   ∧ (CanRecover (this w) = false ∨ GetRenderedComponentByKey key (this w) = None))
  ∨ (∃ c, CanRecover (this w) = true
        ∧ GetRenderedComponentByKey key (this w) = Some c
        ∧ place_child GenerateGUID w (key, child)
          = with_this (λ t, set_CurrentRendered
                              (JsMap.set (CurrentRendered t) key (UID c))
                              (UpdateComponent (UID c) child t)) w).
Proof.
  intros Hk. destruct (CanRecover (this w)) eqn:Hrec.
  2: { left. rewrite place_child_register by auto. auto. }
  destruct (GetRenderedComponentByKey key (this w)) as [c|] eqn:Hget.
  - right. exists c. split_and!; [done..|]. by apply place_child_recover.
  - left. pose proof Hget as Hnil. apply GetRenderedComponentByKey_None in Hnil.
    rewrite place_child_register by auto. auto.
Qed.

Lemma place_child_Inv w kc :
  Inv GenerateGUID w → Inv GenerateGUID (place_child GenerateGUID w kc).
Proof.
  destruct kc as [key child]. intros HInv.
  destruct (JsMap.get (CurrentRendered (this w)) key) as [u|] eqn:Hk.
  { by erewrite place_child_bound. }
  destruct (place_child_cases w key child Hk) as [(-> & _)|(c & Hrec & Hget & ->)].
  { by apply RegistryComponent_Inv. }
  destruct HInv as [Hok Hi].
  destruct (GetRenderedComponentByKey_stored _ _ _ Hok Hget) as (Hc & Hkey & _).
  pose proof (UpdateComponent_ok (UID c) child _ Hok) as [Hwf1 Hwf2 Hb Huid].
  destruct (UpdateComponent_fields (UID c) child (this w)) as (_ & Hcr & _).
  rewrite Hcr in Hwf2, Hb.
  split; [split|]; simpl.
  - done.
  - by apply wf_set.
  - intros k u'. rewrite get_set. destruct (decide (key = k)) as [<-|Hne].
    + intros [= <-]. rewrite UpdateComponent_get, decide_True, Hc by done.
      by exists (rebind child c).
    + apply Hb.
  - done.
  - apply (issued_same GenerateGUID w); [|done..].
    simpl. apply UpdateComponent_keys.
Qed.

Lemma place_child_frame w kc :
  let w' := place_child GenerateGUID w kc in
  CanRecover (this w') = CanRecover (this w) ∧ Updater (this w') = Updater (this w)
  ∧ updater_calls w' = updater_calls w ∧ heap w' = heap w
  ∧ guid_calls w ≤ guid_calls w'.
Proof.
  destruct kc as [key child]. simpl.
  destruct (JsMap.get (CurrentRendered (this w)) key); [done|].
  destruct (CanRecover (this w)) eqn:Hrec; [|simpl; split_and!; [done..|lia]].
  destruct (GetRenderedComponentByKey key (this w)) as [c|];
    [|simpl; split_and!; [done..|lia]].
  simpl. destruct (UpdateComponent_fields (UID c) child (this w)) as (-> & _ & ->).
  done.
Qed.

(** Placing [key] leaves the binding and the entries of every other key
    as they were. *)
Lemma place_child_other w key child k :
  Inv GenerateGUID w → k ≠ key →
  let w' := place_child GenerateGUID w (key, child) in
  JsMap.get (CurrentRendered (this w')) k = JsMap.get (CurrentRendered (this w)) k
  ∧ by_key (AllComponents (this w')) k = by_key (AllComponents (this w)) k.
Proof.
  intros [Hok Hi] Hne w'. subst w'.
  destruct (JsMap.get (CurrentRendered (this w)) key) as [u|] eqn:Hk.
  { by erewrite place_child_bound. }
  assert (∀ el, let w' := RegistryComponent GenerateGUID el key w in
    JsMap.get (CurrentRendered (this w')) k = JsMap.get (CurrentRendered (this w)) k
    ∧ by_key (AllComponents (this w')) k = by_key (AllComponents (this w)) k) as Hreg.
  { intros el. pose proof (RegistryComponent_shape el key w Hi) as Hshape.
    cbv zeta in Hshape |- *. destruct Hshape as (Hac & Hcr & _).
    rewrite Hac, Hcr. split; [by apply get_set_ne|].
    rewrite by_key_app. unfold by_key at 2. rewrite filter_cons_False by (simpl; congruence).
    rewrite filter_nil. apply app_nil_r. }
  destruct (place_child_cases w key child Hk) as [(-> & _)|(c & Hrec & Hget & ->)].
  { apply Hreg. }
  destruct (GetRenderedComponentByKey_stored _ _ _ Hok Hget) as (Hc & Hkey & _).
  simpl. split.
  - by apply get_set_ne.
  - apply UpdateComponent_by_key_other. intros c' Hc'. congruence.
Qed.

(** Placing an unbound [key]: with recovery on, the entry that the lookup
    returns is rebound; without such an entry, or with recovery off, a new
    entry is added. *)
Lemma place_child_here w key child :
  Inv GenerateGUID w →
  JsMap.get (CurrentRendered (this w)) key = None →
  let w' := place_child GenerateGUID w (key, child) in
  let uid := GenerateGUID (guid_calls w) in
  match CanRecover (this w), GetRenderedComponentByKey key (this w) with
  | true, Some c =>
      by_key (AllComponents (this w')) key
      = rebound (UID c) child (by_key (AllComponents (this w)) key)
      ∧ JsMap.get (CurrentRendered (this w')) key = Some (UID c)
  | _, _ =>
      by_key (AllComponents (this w')) key
      = by_key (AllComponents (this w)) key ++ [(uid, mkComponent key child uid)]
      ∧ JsMap.get (CurrentRendered (this w')) key = Some uid
  end.
Proof.
  intros [Hok Hi] Hk w' uid. subst w'.
  assert (∀ el, let w' := RegistryComponent GenerateGUID el key w in
    by_key (AllComponents (this w')) key
    = by_key (AllComponents (this w)) key ++ [(uid, mkComponent key el uid)]
    ∧ JsMap.get (CurrentRendered (this w')) key = Some uid) as Hreg.
  { intros el. pose proof (RegistryComponent_shape el key w Hi) as Hshape.
    cbv zeta in Hshape |- *. destruct Hshape as (Hac & Hcr & _).
    rewrite Hac, Hcr. split; [|by apply get_set_eq].
    rewrite by_key_app. f_equal. unfold by_key. by rewrite filter_cons_True. }
  destruct (place_child_cases w key child Hk)
    as [(-> & _ & [Hrec|Hget])|(c & Hrec & Hget & ->)].
  - rewrite Hrec. apply Hreg.
  - rewrite Hget. destruct (CanRecover (this w)); apply Hreg.
  - rewrite Hrec, Hget. simpl. split; [|apply get_set_eq].
    rewrite UpdateComponent_rebound by apply Hok. apply by_key_rebound.
Qed.
End placing.

(** ** Second loop and the whole of [ProcessChildren] *)

Section process_children.
Context {rt : Runtime} (GenerateGUID : nat → GUID) `{!Inj (=) (=) GenerateGUID}.
Implicit Types (w : World) (k key : LogicalKey) (u : GUID)
  (l children : list (LogicalKey * ReactElement)).

Lemma ProcessChildren_unfold children w :
  ProcessChildren GenerateGUID children w
  = foldl (place_child GenerateGUID) (after_rebind children w) children.
Proof.
  unfold ProcessChildren, after_rebind.
  by destruct (foldl (keep_child children) ([], this w) (CurrentRendered (this w))).
Qed.

Lemma place_loop_Inv l w :
  Inv GenerateGUID w → Inv GenerateGUID (foldl (place_child GenerateGUID) w l).
Proof.
  revert w. induction l as [|kc l IH]; intros w HInv; simpl; [done|].
  by apply IH, place_child_Inv.
Qed.

Lemma place_loop_frame l w :
  let w' := foldl (place_child GenerateGUID) w l in
  CanRecover (this w') = CanRecover (this w) ∧ Updater (this w') = Updater (this w)
  ∧ updater_calls w' = updater_calls w ∧ heap w' = heap w
  ∧ guid_calls w ≤ guid_calls w'.
Proof.
  revert w. induction l as [|kc l IH]; intros w; simpl; [done|].
  destruct (IH (place_child GenerateGUID w kc)) as (-> & -> & -> & -> & Hle).
  destruct (place_child_frame GenerateGUID w kc) as (-> & -> & -> & -> & Hle').
  split_and!; [done..|lia].
Qed.

(** A key that is not requested, or is already bound, keeps its binding
    and its entries through the loop. *)
Lemma place_loop_stable l w k :
  Inv GenerateGUID w →
  k ∉ JsMap.keys l ∨ is_Some (JsMap.get (CurrentRendered (this w)) k) →
  let w' := foldl (place_child GenerateGUID) w l in
  JsMap.get (CurrentRendered (this w')) k = JsMap.get (CurrentRendered (this w)) k
  ∧ by_key (AllComponents (this w')) k = by_key (AllComponents (this w)) k.
Proof.
  revert w. induction l as [|[key child] l IH]; intros w HInv Hk; [done|].
  cbn [foldl]. destruct (decide (k = key)) as [->|Hne].
  - destruct Hk as [Hk|[u Hu]].
    { exfalso. apply Hk. left. }
    rewrite (place_child_bound _ _ _ _ u) by done.
    apply IH; [done|]. right. by exists u.
  - destruct (place_child_other GenerateGUID w key child k HInv Hne) as [Hcr Hby].
    cbv zeta. rewrite <-Hcr, <-Hby. apply IH; [by apply place_child_Inv|].
    rewrite Hcr. destruct Hk as [Hk|Hk]; [|by right].
    left. intros Hin. apply Hk. by right.
Qed.

Lemma earlier_than_keys l k : k ∉ JsMap.keys (earlier_than k l).
Proof.
  unfold JsMap.keys. induction l as [|[key child] l IH]; simpl.
  - apply not_elem_of_nil.
  - destruct (decide (key = k)); [apply not_elem_of_nil|].
    rewrite fmap_cons, not_elem_of_cons. simpl. split; [congruence | done].
Qed.

(** A requested key without a binding is settled where the loop first
    comes to it: until then its entries are as they were, and there the
    lookup decides between recovery and creation. *)
Lemma place_loop_first l w k child :
  Inv GenerateGUID w →
  JsMap.get (CurrentRendered (this w)) k = None →
  JsMap.get l k = Some child →
  let w' := foldl (place_child GenerateGUID) w l in
  let wk := foldl (place_child GenerateGUID) w (earlier_than k l) in
  let uid := GenerateGUID (guid_calls wk) in
  guid_calls w ≤ guid_calls wk
  ∧ by_key (AllComponents (this wk)) k = by_key (AllComponents (this w)) k
  ∧ match CanRecover (this w), GetRenderedComponentByKey k (this wk) with
    | true, Some c =>
        by_key (AllComponents (this w')) k
        = rebound (UID c) child (by_key (AllComponents (this w)) k)
        ∧ JsMap.get (CurrentRendered (this w')) k = Some (UID c)
    | _, _ =>
        by_key (AllComponents (this w')) k
        = by_key (AllComponents (this w)) k ++ [(uid, mkComponent k child uid)]
        ∧ JsMap.get (CurrentRendered (this w')) k = Some uid
    end.
Proof.
  revert w. induction l as [|[key child0] l IH]; intros w HInv Hk Hl; [done|].
  cbn [foldl earlier_than]. simpl in Hl. destruct (decide (key = k)) as [->|Hne].
  - injection Hl as ->. cbn [foldl]. split; [done|]. split; [done|].
    pose proof (place_child_here GenerateGUID w k child HInv Hk) as Hhere.
    cbv zeta in Hhere.
    set (w1 := place_child GenerateGUID w (k, child)) in *.
    assert (is_Some (JsMap.get (CurrentRendered (this w1)) k)) as Hb.
    { destruct (CanRecover (this w)), (GetRenderedComponentByKey k (this w));
        destruct Hhere as [_ ->]; by eexists. }
    destruct (place_loop_stable l w1 k) as [-> ->];
      [by apply place_child_Inv | by right | done].
  - cbn [foldl].
    destruct (place_child_other GenerateGUID w key child0 k HInv) as [Hcr Hby];
      [done|].
    destruct (place_child_frame GenerateGUID w (key, child0)) as (Hrec & _ & _ & _ & Hle).
    destruct (IH (place_child GenerateGUID w (key, child0))) as (Hn & Hbyk & Hres).
    { by apply place_child_Inv. }
    { by rewrite Hcr. }
    { done. }
    split; [lia|]. split; [by rewrite Hbyk|]. by rewrite Hrec, Hby in Hres.
Qed.

Lemma ProcessChildren_Inv children w :
  Inv GenerateGUID w → Inv GenerateGUID (ProcessChildren GenerateGUID children w).
Proof.
  intros [Hok Hi]. rewrite ProcessChildren_unfold. apply place_loop_Inv.
  destruct (after_rebind_frame children w) as (Hn & _ & _ & _ & _ & Hkeys).
  split; [by apply after_rebind_ok|].
  apply (issued_same GenerateGUID w); [done | lia | done].
Qed.

Lemma ProcessChildren_frame children w :
  let w' := ProcessChildren GenerateGUID children w in
  CanRecover (this w') = CanRecover (this w) ∧ Updater (this w') = Updater (this w)
  ∧ updater_calls w' = updater_calls w ∧ heap w' = heap w
  ∧ guid_calls w ≤ guid_calls w'.
Proof.
  cbv zeta. rewrite ProcessChildren_unfold.
  destruct (place_loop_frame children (after_rebind children w))
    as (-> & -> & -> & -> & Hle).
  destruct (after_rebind_frame children w) as (Hn & -> & -> & -> & -> & _).
  split_and!; [done..|lia].
Qed.

Lemma after_rebind_Inv children w :
  Inv GenerateGUID w → Inv GenerateGUID (after_rebind children w).
Proof.
  intros [Hok Hi].
  destruct (after_rebind_frame children w) as (Hn & _ & _ & _ & _ & Hkeys).
  split; [by apply after_rebind_ok|].
  apply (issued_same GenerateGUID w); [done | lia | done].
Qed.

(** A bound key that is still requested keeps its identity; its entry
    carries the new element. *)
Lemma ProcessChildren_kept children w k u child :
  Inv GenerateGUID w →
  JsMap.get (CurrentRendered (this w)) k = Some u →
  JsMap.get children k = Some child →
  let w' := ProcessChildren GenerateGUID children w in
  JsMap.get (CurrentRendered (this w')) k = Some u
  ∧ JsMap.get (AllComponents (this w')) u = Some (mkComponent k child u).
Proof.
  intros HInv Hk Hchild. cbv zeta.
  pose proof (ProcessChildren_Inv children w HInv) as [Hok' _].
  rewrite ProcessChildren_unfold in Hok' |- *.
  pose proof (after_rebind_Inv children w HInv) as HInv1.
  destruct HInv as [Hok Hi].
  assert (JsMap.get (CurrentRendered (this (after_rebind children w))) k = Some u) as Hk1.
  { rewrite after_rebind_bindings by apply Hok. by rewrite Hchild. }
  destruct (ok_bound _ Hok _ _ Hk) as (c & Hc & Hkey).
  pose proof (ok_uid _ Hok _ _ Hc) as Huid.
  assert (JsMap.get (AllComponents (this (after_rebind children w))) u
          = Some (mkComponent k child u)) as Hc1.
  { rewrite (after_rebind_requested children w k u child) by done.
    rewrite Hc. simpl. unfold rebind. by rewrite Hkey, Huid. }
  destruct (place_loop_stable children (after_rebind children w) k HInv1) as [Hcr Hby].
  { right. by rewrite Hk1. }
  split; [by rewrite Hcr|].
  apply (get_by_key _ u (mkComponent k child u)); [apply Hok'|].
  simpl. rewrite Hby.
  apply (get_by_key _ u (mkComponent k child u)); [apply HInv1 | done].
Qed.

(** A key that is not requested ends without a binding, and the entries
    stored with it are exactly as before. *)
Lemma ProcessChildren_dropped children w k :
  Inv GenerateGUID w →
  JsMap.get children k = None →
  let w' := ProcessChildren GenerateGUID children w in
  JsMap.get (CurrentRendered (this w')) k = None
  ∧ by_key (AllComponents (this w')) k = by_key (AllComponents (this w)) k.
Proof.
  intros HInv Hchild. cbv zeta. rewrite ProcessChildren_unfold.
  pose proof (after_rebind_Inv children w HInv) as HInv1.
  destruct (place_loop_stable children (after_rebind children w) k HInv1) as [-> ->].
  { left. by apply get_None. }
  destruct HInv as [Hok Hi]. split.
  - rewrite after_rebind_bindings by apply Hok. by rewrite Hchild.
  - by apply after_rebind_by_key.
Qed.

Lemma on_reaching_Inv children w k :
  Inv GenerateGUID w → Inv GenerateGUID (on_reaching GenerateGUID k children w).
Proof. intros HInv. by apply place_loop_Inv, after_rebind_Inv. Qed.

(** A requested key without a binding.  With recovery on and an entry
    stored with that key, the entry that the lookup returns when the loop
    comes to the key is rebound, and it is one of those entries; otherwise a
    new entry is added. *)
Lemma ProcessChildren_placed children w k child :
  Inv GenerateGUID w →
  JsMap.get (CurrentRendered (this w)) k = None →
  JsMap.get children k = Some child →
  let w' := ProcessChildren GenerateGUID children w in
  let wk := on_reaching GenerateGUID k children w in
  match CanRecover (this w), by_key (AllComponents (this w)) k with
  | true, _ :: _ =>
      ∃ c, GetRenderedComponentByKey k (this wk) = Some c
        ∧ (UID c, c) ∈ by_key (AllComponents (this w)) k
        ∧ by_key (AllComponents (this w')) k
          = rebound (UID c) child (by_key (AllComponents (this w)) k)
        ∧ JsMap.get (CurrentRendered (this w')) k = Some (UID c)
  | _, old =>
      ∃ n, guid_calls w ≤ n
        ∧ by_key (AllComponents (this w')) k
          = old ++ [(GenerateGUID n, mkComponent k child (GenerateGUID n))]
        ∧ JsMap.get (CurrentRendered (this w')) k = Some (GenerateGUID n)
  end.
Proof.
  intros HInv Hk Hchild. cbv zeta. rewrite ProcessChildren_unfold.
  pose proof (after_rebind_Inv children w HInv) as HInv1.
  pose proof (on_reaching_Inv children w k HInv) as [Hokk _].
  destruct (place_loop_first children (after_rebind children w) k child HInv1)
    as (Hn & Hbyk & Hres); [|done|].
  { destruct HInv as [Hok _]. rewrite after_rebind_bindings by apply Hok.
    by rewrite Hchild. }
  fold (on_reaching GenerateGUID k children w) in Hn, Hbyk, Hres, Hokk.
  set (wk := on_reaching GenerateGUID k children w) in *.
  destruct (after_rebind_frame children w) as (Hg & _ & _ & Hrec & _ & _).
  rewrite Hrec, after_rebind_by_key in Hres;
    [|apply HInv | intros u; by rewrite Hk].
  rewrite after_rebind_by_key in Hbyk; [|apply HInv | intros u; by rewrite Hk].
  destruct (GetRenderedComponentByKey k (this wk)) as [c|] eqn:Hget.
  - destruct (GetRenderedComponentByKey_stored _ _ _ Hokk Hget) as (_ & _ & Hin).
    rewrite Hbyk in Hin.
    destruct (CanRecover (this w)),
      (by_key (AllComponents (this w)) k) as [|x old] eqn:Hby.
    + by apply elem_of_nil in Hin.
    + exists c. by destruct Hres.
    + exists (guid_calls wk). split; [lia | done].
    + exists (guid_calls wk). split; [lia | done].
  - apply GetRenderedComponentByKey_None in Hget. rewrite Hbyk in Hget.
    rewrite Hget in Hres |- *.
    destruct (CanRecover (this w)); exists (guid_calls wk); (split; [lia | done]).
Qed.
End process_children.

(** ** Removal *)

Section removal.
Implicit Types (w : World) (t : LifetimeController) (k : LogicalKey) (u : GUID).

Lemma RemoveRenderedByUID_entries u t :
  AllComponents (RemoveRenderedByUID u t) = AllComponents t.
Proof.
  unfold RemoveRenderedByUID, GetComponent.
  destruct (JsMap.get (AllComponents t) u) as [c|]; [|done].
  by destruct (decide _).
Qed.

Lemma RemoveRenderedByUID_absent u t :
  JsMap.get (AllComponents t) u = None → RemoveRenderedByUID u t = t.
Proof. unfold RemoveRenderedByUID, GetComponent. by intros ->. Qed.

Lemma RemoveRenderedByUID_unbound u t :
  (∀ k, JsMap.get (CurrentRendered t) k ≠ Some u) → RemoveRenderedByUID u t = t.
Proof.
  intros H. unfold RemoveRenderedByUID, GetComponent.
  destruct (JsMap.get (AllComponents t) u) as [c|]; [|done].
  rewrite decide_False; [done | apply H].
Qed.

Lemma RemoveRenderedByUID_ok u t : bindings_ok t → bindings_ok (RemoveRenderedByUID u t).
Proof.
  intros Hok. unfold RemoveRenderedByUID, GetComponent.
  destruct (JsMap.get (AllComponents t) u) as [c|]; [|done].
  destruct (decide _) as [Hb|]; [|done].
  destruct Hok as [Hwf1 Hwf2 Hbound Huid]. split; simpl; [done | by apply wf_delete | | done].
  intros k u'. rewrite get_delete. destruct (decide (Key c = k)); [done|]. apply Hbound.
Qed.

Lemma UnlistComponent_active u w :
  IsComponentActive u (this w) = true → UnlistComponent u w = w.
Proof. unfold UnlistComponent. by intros ->. Qed.

Lemma UnlistComponent_inactive u w :
  IsComponentActive u (this w) = false →
  AllComponents (this (UnlistComponent u w)) = JsMap.delete (AllComponents (this w)) u
  ∧ updater_calls (UnlistComponent u w) = updater_calls w ++ [Updater (this w)]
  ∧ guid_calls (UnlistComponent u w) = guid_calls w
  ∧ heap (UnlistComponent u w) = heap w
  ∧ CanRecover (this (UnlistComponent u w)) = CanRecover (this w).
Proof.
  unfold UnlistComponent. intros ->. simpl.
  rewrite RemoveRenderedByUID_entries.
  unfold RemoveRenderedByUID, GetComponent.
  destruct (JsMap.get (AllComponents (this w)) u) as [c|]; [|done].
  by destruct (decide _).
Qed.

Lemma UnlistComponent_absent u w :
  JsMap.get (AllComponents (this w)) u = None →
  this (UnlistComponent u w) = this w.
Proof.
  intros Hu. unfold UnlistComponent.
  rewrite IsComponentActive_absent by done. simpl.
  rewrite RemoveRenderedByUID_absent by done.
  rewrite delete_absent by done. by destruct (this w).
Qed.

Lemma UnlistComponent_detached u w :
  bindings_ok (this w) → IsComponentActive u (this w) = false →
  CurrentRendered (this (UnlistComponent u w)) = CurrentRendered (this w).
Proof.
  intros Hok Hact. unfold UnlistComponent. rewrite Hact. simpl.
  rewrite RemoveRenderedByUID_unbound; [done|].
  intros k Hk. apply not_true_iff_false in Hact. apply Hact.
  apply IsComponentActive_bound; [done|]. by exists k.
Qed.

Lemma UnlistComponent_ok u w : bindings_ok (this w) → bindings_ok (this (UnlistComponent u w)).
Proof.
  intros Hok. destruct (IsComponentActive u (this w)) eqn:Hact.
  { by rewrite UnlistComponent_active. }
  pose proof (UnlistComponent_detached u w Hok Hact) as Hcr.
  destruct (UnlistComponent_inactive u w Hact) as (Hac & _).
  destruct Hok as [Hwf1 Hwf2 Hbound Huid]. split.
  - rewrite Hac. by apply wf_delete.
  - by rewrite Hcr.
  - intros k u'. rewrite Hcr, Hac. intros Hk.
    destruct (Hbound _ _ Hk) as (c & Hc & Hkey). exists c. split; [|done].
    rewrite get_delete, decide_False; [done|]. intros ->.
    apply not_true_iff_false in Hact. apply Hact.
    apply IsComponentActive_bound; [by split|]. by exists k.
  - intros u' c. rewrite Hac, get_delete. destruct (decide (u = u')); [done|]. apply Huid.
Qed.
End removal.

(** ** Rendering *)

Section rendering.
Context {rt : Runtime}.
Implicit Types (w : World) (u : GUID) (self : ControllerRef).

Lemma render_component_item self acc h entry :
  JsMap.get acc entry.1 = None →
  ∃ item, (render_component self (acc, h) entry).1 = acc ++ [item]
          ∧ rendered_as entry item.
Proof.
  destruct entry as [uid c]. simpl. intros Hfresh.
  destruct (props (Element c)) as [| |l] eqn:Hp; simpl.
  - exists (uid, [(Key c, Element c)]). split; [by apply set_absent|].
    split; [done|]. by exists (Element c).
  - eexists (uid, [(Key c, _)]). split; [by apply set_absent|].
    split; [done|]. by eexists.
  - eexists (uid, [(Key c, _)]). split; [by apply set_absent|].
    split; [done|]. by eexists.
Qed.

Lemma render_loop_items self l acc h :
  NoDup (JsMap.keys acc ++ JsMap.keys l) →
  ∃ items, (foldl (render_component self) (acc, h) l).1 = acc ++ items
           ∧ Forall2 rendered_as l items.
Proof.
  unfold JsMap.keys.
  revert acc h. induction l as [|entry l IH]; intros acc h Hnd; cbn [foldl].
  - exists []. by rewrite app_nil_r.
  - rewrite fmap_cons in Hnd. apply NoDup_app in Hnd as (Hacc & Hdisj & Hl).
    apply NoDup_cons in Hl as [Hentry Hl].
    destruct (render_component_item self acc h entry) as ([pk frag] & Hstep & Hitem).
    { apply get_None. intros Hin. apply (Hdisj _ Hin). left. }
    destruct (render_component self (acc, h) entry) as [acc' h'] eqn:E.
    simpl in Hstep. subst acc'.
    destruct (IH (acc ++ [(pk, frag)]) h') as (items & Hitems & Hall).
    { rewrite fmap_app. simpl. rewrite <-app_assoc. simpl.
      destruct Hitem as [Hpk _]. simpl in Hpk. subst pk.
      apply NoDup_app. split_and!; [done| |by apply NoDup_cons].
      intros x Hx. by apply Hdisj. }
    exists ((pk, frag) :: items). split; [|by constructor].
    rewrite Hitems. by rewrite <-app_assoc.
Qed.

Lemma RenderComponents_frame self w :
  this (RenderComponents self w).2 = this w
  ∧ guid_calls (RenderComponents self w).2 = guid_calls w
  ∧ updater_calls (RenderComponents self w).2 = updater_calls w.
Proof.
  unfold RenderComponents.
  by destruct (foldl (render_component self) ([], heap w) (walk (AllComponents (this w)))).
Qed.

(** The items are emitted in the order in which the loop meets the
    entries. *)
Lemma RenderComponents_items self w :
  JsMap.wf (AllComponents (this w)) →
  Forall2 rendered_as (walk (AllComponents (this w))) (RenderComponents self w).1.
Proof.
  intros Hwf%wf_walk.
  destruct (render_loop_items self (walk (AllComponents (this w))) [] (heap w))
    as (items & Hitems & Hall); [done|].
  unfold RenderComponents.
  destruct (foldl (render_component self) ([], heap w) (walk (AllComponents (this w)))).
  simpl in *. by subst.
Qed.

Lemma rendered_as_keys entries items :
  Forall2 rendered_as entries items → JsMap.keys items = JsMap.keys entries.
Proof.
  unfold JsMap.keys. induction 1 as [|entry item entries items [Hk _] _ IH]; [done|].
  rewrite !fmap_cons. by f_equal.
Qed.

Lemma physical_keys_entries self w :
  JsMap.wf (AllComponents (this w)) →
  physical_keys self w = JsMap.keys (walk (AllComponents (this w))).
Proof. intros Hwf. by apply rendered_as_keys, RenderComponents_items. Qed.

Lemma elem_of_physical_keys self w u :
  JsMap.wf (AllComponents (this w)) →
  u ∈ physical_keys self w ↔ u ∈ JsMap.keys (AllComponents (this w)).
Proof. intros Hwf. by rewrite physical_keys_entries, keys_walk. Qed.

Lemma RenderComponents_get self w u c :
  JsMap.wf (AllComponents (this w)) →
  JsMap.get (AllComponents (this w)) u = Some c →
  ∃ el, JsMap.get (RenderComponents self w).1 u = Some [(Key c, el)]
        ∧ type el = type (Element c).
Proof.
  intros Hwf Hc. pose proof (RenderComponents_items self w Hwf) as Hall.
  apply get_Some_elem, elem_walk, list_elem_of_lookup in Hc as [i Hi].
  destruct (Forall2_lookup_l _ _ _ _ _ Hall Hi) as ([pk frag] & Hitem & Hpk & el & Hfrag & Hty).
  simpl in *. subst. exists el. split; [|done].
  apply elem_get.
  - unfold JsMap.wf. erewrite rendered_as_keys by done. by apply wf_walk.
  - by eapply list_elem_of_lookup_2.
Qed.
End rendering.

(** ** Reachable states satisfy the invariants *)

Section reachability.
Context {rt : Runtime} (GenerateGUID : nat → GUID) `{!Inj (=) (=) GenerateGUID}.
Implicit Types (w : World) (u : GUID).

Lemma new_World_Inv : Inv GenerateGUID new_World.
Proof.
  split; [split|]; simpl.
  - apply wf_nil.
  - apply wf_nil.
  - done.
  - done.
  - intros u Hu. by apply elem_of_nil in Hu.
Qed.

Lemma exec_Inv w c : Inv GenerateGUID w → Inv GenerateGUID (exec GenerateGUID w c).
Proof.
  intros HInv.
  destruct c as [updater|b|u0|u0|element key|u0 element|children|self]; simpl.
  - destruct HInv as [[] ?]. by repeat split.
  - destruct HInv as [[] ?]. by repeat split.
  - destruct HInv as [Hok Hi]. split; [by apply RemoveRenderedByUID_ok|].
    apply (issued_same GenerateGUID w); [|done..].
    simpl. by rewrite RemoveRenderedByUID_entries.
  - destruct HInv as [Hok Hi]. split; [by apply UnlistComponent_ok|].
    destruct (IsComponentActive u0 (this w)) eqn:Hact.
    { by rewrite UnlistComponent_active. }
    destruct (UnlistComponent_inactive u0 w Hact) as (Hac & _ & Hn & _).
    by apply (issued_delete GenerateGUID w _ u0).
  - by apply RegistryComponent_Inv.
  - destruct HInv as [Hok Hi]. split; [by apply UpdateComponent_ok|].
    apply (issued_same GenerateGUID w); [|done..].
    simpl. apply UpdateComponent_keys.
  - by apply ProcessChildren_Inv.
  - destruct (RenderComponents_frame self w) as (Ht & Hn & _).
    destruct HInv as [Hok Hi]. split; [by rewrite Ht|].
    apply (issued_same GenerateGUID w); [by rewrite Ht | lia | done].
Qed.

Lemma run_Inv w cs : Inv GenerateGUID w → Inv GenerateGUID (run GenerateGUID w cs).
Proof.
  revert w. induction cs as [|c cs IH]; intros w HInv; simpl; [done|].
  by apply IH, exec_Inv.
Qed.

Lemma reachable_Inv w : reachable GenerateGUID w → Inv GenerateGUID w.
Proof. induction 1; [apply new_World_Inv | by apply exec_Inv]. Qed.

Lemma reachable_run w cs :
  reachable GenerateGUID w → reachable GenerateGUID (run GenerateGUID w cs).
Proof.
  revert w. induction cs as [|c cs IH]; intros w Hw; simpl; [done|].
  apply IH. by constructor.
Qed.
End reachability.

(** ** Only [UnlistComponent] removes an entry *)

Section persistence.
Context {rt : Runtime} (GenerateGUID : nat → GUID).
Implicit Types (w : World) (u : GUID).

Lemma set_keeps {K V} `{!EqDecision K} (m : list (K * V)) k k' v :
  is_Some (JsMap.get m k) → is_Some (JsMap.get (JsMap.set m k' v) k).
Proof. rewrite get_set. by destruct (decide (k' = k)). Qed.

Lemma UpdateComponent_keeps u0 el t u :
  is_Some (JsMap.get (AllComponents t) u) →
  is_Some (JsMap.get (AllComponents (UpdateComponent u0 el t)) u).
Proof. rewrite !get_is_Some. by rewrite UpdateComponent_keys. Qed.

Lemma place_child_keeps w kc u :
  is_Some (JsMap.get (AllComponents (this w)) u) →
  is_Some (JsMap.get (AllComponents (this (place_child GenerateGUID w kc))) u).
Proof.
  intros Hu. destruct kc as [key child]. simpl.
  destruct (JsMap.get (CurrentRendered (this w)) key); [done|].
  destruct (CanRecover (this w)); [|by apply set_keeps].
  destruct (GetRenderedComponentByKey key (this w)); [|by apply set_keeps].
  simpl. by apply UpdateComponent_keeps.
Qed.

Lemma place_loop_keeps l w u :
  is_Some (JsMap.get (AllComponents (this w)) u) →
  is_Some (JsMap.get (AllComponents (this (foldl (place_child GenerateGUID) w l))) u).
Proof.
  revert w. induction l as [|kc l IH]; intros w Hu; simpl; [done|].
  by apply IH, place_child_keeps.
Qed.

Lemma ProcessChildren_keeps children w u :
  is_Some (JsMap.get (AllComponents (this w)) u) →
  is_Some (JsMap.get (AllComponents (this (ProcessChildren GenerateGUID children w))) u).
Proof.
  intros Hu. rewrite ProcessChildren_unfold. apply place_loop_keeps.
  destruct (after_rebind_frame children w) as (_ & _ & _ & _ & _ & Hkeys).
  apply get_is_Some. rewrite Hkeys. by apply get_is_Some.
Qed.

Lemma exec_keeps w c u :
  c ≠ CallUnlistComponent u →
  is_Some (JsMap.get (AllComponents (this w)) u) →
  is_Some (JsMap.get (AllComponents (this (exec GenerateGUID w c))) u).
Proof.
  intros Hc Hu.
  destruct c as [updater|b|u0|u0|element key|u0 element|children|self]; simpl.
  - done.
  - done.
  - by rewrite RemoveRenderedByUID_entries.
  - destruct (IsComponentActive u0 (this w)) eqn:Hact.
    { by rewrite UnlistComponent_active. }
    destruct (UnlistComponent_inactive u0 w Hact) as (-> & _).
    rewrite get_delete, decide_False; [done | congruence].
  - by apply set_keeps.
  - by apply UpdateComponent_keeps.
  - by apply ProcessChildren_keeps.
  - by destruct (RenderComponents_frame self w) as (-> & _).
Qed.

Lemma run_keeps w cs u :
  CallUnlistComponent u ∉ cs →
  is_Some (JsMap.get (AllComponents (this w)) u) →
  is_Some (JsMap.get (AllComponents (this (run GenerateGUID w cs))) u).
Proof.
  revert w. induction cs as [|c cs IH]; intros w Hcs Hu; simpl; [done|].
  apply not_elem_of_cons in Hcs as [Hc Hcs].
  apply IH; [done|]. apply exec_keeps; [congruence | done].
Qed.
End persistence.

(** * The claims *)

#[global] Instance serial_GUID_inj : Inj (=) (=) serial_GUID.
Proof.
  intros n m H. unfold serial_GUID in H.
  apply (inj (String.app "guid-")) in H. by apply (inj pretty) in H.
Qed.

Lemma two_windows_Inv : Inv serial_GUID two_windows.
Proof. apply (run_Inv (rt := stored_order) serial_GUID), (new_World_Inv serial_GUID). Qed.

Section claims.
Context {rt : Runtime} (GenerateGUID : nat → GUID) `{!Inj (=) (=) GenerateGUID}.
Implicit Types (w : World) (k : LogicalKey) (u : GUID) (self : ControllerRef)
  (children : list (LogicalKey * ReactElement)).

(** Claim C1 (identity continuity).  In a state satisfying the data-model
    invariants, if key [k] is bound to identity [u] and [k] is requested
    again with element [child], then after [ProcessChildren] the key is
    still bound to [u], the entry stored under [u] carries [child] (and
    still has key [k] and identity [u]), and in the render output before
    and after the pass the item for that entry sits under the same
    physical key [u]. *)
Theorem identity_continuity children w k u child self self' :
  Inv GenerateGUID w →
  JsMap.get (CurrentRendered (this w)) k = Some u →
  JsMap.get children k = Some child →
  let w' := ProcessChildren GenerateGUID children w in
  JsMap.get (CurrentRendered (this w')) k = Some u
  ∧ (∃ c, JsMap.get (AllComponents (this w)) u = Some c ∧ Key c = k ∧ UID c = u)
  ∧ JsMap.get (AllComponents (this w')) u = Some (mkComponent k child u)
  ∧ IsComponentActive u (this w') = true
  ∧ (∃ el, JsMap.get (RenderComponents self w).1 u = Some [(k, el)])
  ∧ (∃ el, JsMap.get (RenderComponents self' w').1 u = Some [(k, el)]
           ∧ type el = type child).
Proof.
  intros HInv Hk Hchild w'.
  destruct (ProcessChildren_kept GenerateGUID children w k u child HInv Hk Hchild)
    as [Hk' Hc'].
  pose proof (ProcessChildren_Inv GenerateGUID children w HInv) as [Hok' _].
  fold w' in Hk', Hc', Hok'.
  destruct HInv as [Hok _].
  destruct (ok_bound _ Hok _ _ Hk) as (c & Hc & Hkey).
  split_and!.
  - done.
  - exists c. split_and!; [done..|]. apply (ok_uid _ Hok _ _ Hc).
  - done.
  - apply IsComponentActive_true. by eexists.
  - destruct (RenderComponents_get self w u c) as (el & Hel & _); [apply Hok|done|].
    exists el. by rewrite <-Hkey.
  - destruct (RenderComponents_get self' w' u _ (ok_entries_wf _ Hok') Hc')
      as (el & Hel & Hty).
    by exists el.
Qed.

(** Claim C2 (detach, not delete).  If key [k] is bound to [u] and [k]
    is not requested, then after [ProcessChildren] the key has no binding
    and [u] is inactive, yet the entry under [u] is stored unchanged and
    rendered; it stays stored and rendered through any further calls that
    are not [UnlistComponent u], and [UnlistComponent u] removes it. *)
Theorem detach_not_delete children w k u self cs :
  Inv GenerateGUID w →
  JsMap.get (CurrentRendered (this w)) k = Some u →
  JsMap.get children k = None →
  CallUnlistComponent u ∉ cs →
  let w' := ProcessChildren GenerateGUID children w in
  let later := run GenerateGUID w' cs in
  JsMap.get (CurrentRendered (this w')) k = None
  ∧ IsComponentActive u (this w') = false
  ∧ is_Some (JsMap.get (AllComponents (this w)) u)
  ∧ JsMap.get (AllComponents (this w')) u = JsMap.get (AllComponents (this w)) u
  ∧ u ∈ physical_keys self w'
  ∧ is_Some (JsMap.get (AllComponents (this later)) u)
  ∧ u ∈ physical_keys self later
  ∧ JsMap.get (AllComponents (this (UnlistComponent u w'))) u = None
  ∧ u ∉ physical_keys self (UnlistComponent u w').
Proof.
  intros HInv Hk Hchild Hcs w' later.
  destruct (ProcessChildren_dropped GenerateGUID children w k HInv Hchild) as [Hk' Hby].
  pose proof (ProcessChildren_Inv GenerateGUID children w HInv) as HInv'.
  fold w' in Hk', Hby, HInv'.
  pose proof (run_Inv GenerateGUID w' cs HInv') as [[Hwfl _ _ _] _]. fold later in Hwfl.
  destruct HInv as [Hok _]. destruct HInv' as [Hok' _].
  destruct (ok_bound _ Hok _ _ Hk) as (c & Hc & Hkey).
  assert (JsMap.get (AllComponents (this w')) u = Some c) as Hc'.
  { apply get_by_key; [apply Hok'|]. rewrite Hkey, Hby, <-Hkey.
    apply get_by_key; [apply Hok | done]. }
  assert (IsComponentActive u (this w') = false) as Hact.
  { eapply IsComponentActive_unbound; [done|]. by rewrite Hkey. }
  assert (is_Some (JsMap.get (AllComponents (this later)) u)) as Hlater.
  { apply run_keeps; [done|]. by rewrite Hc'. }
  destruct (UnlistComponent_inactive u w' Hact) as (Hac & _).
  split_and!.
  - done.
  - done.
  - by rewrite Hc.
  - by rewrite Hc, Hc'.
  - apply elem_of_physical_keys; [apply Hok'|]. apply get_is_Some. by rewrite Hc'.
  - done.
  - apply elem_of_physical_keys; [done|]. by apply get_is_Some.
  - by rewrite Hac, get_delete, decide_True.
  - rewrite elem_of_physical_keys.
    + apply get_None. by rewrite Hac, get_delete, decide_True.
    + rewrite Hac. apply wf_delete, Hok'.
Qed.

(** Claim C3 (recovery versus creation).  Let [k] be requested with
    element [child] while it has no binding.  The entries stored with key
    [k] are then all detached.  If recovery is on and there is such an
    entry, one of them is rebound: it carries [child], is bound to [k] and
    active again under its old identity, and no entry with key [k] is
    added.  Otherwise (recovery off, or no such entry) a new entry is
    stored under an identity not issued before, with key [k] and element
    [child], bound and active, while every entry previously stored with
    key [k] is unchanged, inactive and still rendered. *)
Theorem recovery_versus_creation children w k child self :
  Inv GenerateGUID w →
  JsMap.get (CurrentRendered (this w)) k = None →
  JsMap.get children k = Some child →
  let w' := ProcessChildren GenerateGUID children w in
  let detached := by_key (AllComponents (this w)) k in
  (∀ u c, (u, c) ∈ detached → IsComponentActive u (this w) = false)
  ∧ (CanRecover (this w) = true → detached ≠ [] →
      ∃ u c, (u, c) ∈ detached
        ∧ JsMap.get (AllComponents (this w')) u = Some (mkComponent k child u)
        ∧ JsMap.get (CurrentRendered (this w')) k = Some u
        ∧ IsComponentActive u (this w') = true
        ∧ JsMap.keys (by_key (AllComponents (this w')) k) = JsMap.keys detached)
  ∧ (CanRecover (this w) = false ∨ detached = [] →
      ∃ n, guid_calls w ≤ n
        ∧ JsMap.get (AllComponents (this w)) (GenerateGUID n) = None
        ∧ JsMap.get (AllComponents (this w')) (GenerateGUID n)
          = Some (mkComponent k child (GenerateGUID n))
        ∧ JsMap.get (CurrentRendered (this w')) k = Some (GenerateGUID n)
        ∧ IsComponentActive (GenerateGUID n) (this w') = true
        ∧ ∀ u c, (u, c) ∈ detached →
            JsMap.get (AllComponents (this w')) u = Some c
            ∧ IsComponentActive u (this w') = false
            ∧ u ∈ physical_keys self w').
Proof.
  intros HInv Hk Hchild w' detached.
  pose proof (ProcessChildren_placed GenerateGUID children w k child HInv Hk Hchild)
    as Hres.
  pose proof (ProcessChildren_Inv GenerateGUID children w HInv) as [Hok' _].
  cbv zeta in Hres. fold w' in Hres, Hok'. fold detached in Hres.
  destruct HInv as [Hok Hi].
  assert (∀ u c, (u, c) ∈ detached →
            JsMap.get (AllComponents (this w)) u = Some c ∧ Key c = k) as Hdet.
  { intros u c [Hin Hkey]%elem_of_by_key. split; [|done].
    apply elem_get; [apply Hok | done]. }
  split_and!.
  - intros u c [Hc Hkey]%Hdet. eapply IsComponentActive_unbound; [done|].
    by rewrite Hkey.
  - intros Hrec Hne. rewrite Hrec in Hres.
    destruct detached as [|x rest] eqn:Edet; [done|].
    destruct Hres as (c & _ & Hin & Hby' & Hk').
    destruct (Hdet _ _ Hin) as [Hc Hkey].
    assert (JsMap.get (AllComponents (this w')) (UID c)
            = Some (mkComponent k child (UID c))) as Hc'.
    { apply get_by_key; [apply Hok'|]. simpl. rewrite Hby'.
      pose proof (elem_of_rebound _ (UID c) child _ _ Hin) as Hre.
      rewrite decide_True in Hre by done. unfold rebind in Hre. by rewrite Hkey in Hre. }
    exists (UID c), c. split_and!; [done..| |].
    + apply IsComponentActive_true. by eexists.
    + rewrite Hby'. apply keys_rebound.
  - intros Hcase.
    assert (∃ n, guid_calls w ≤ n
            ∧ by_key (AllComponents (this w')) k
              = detached ++ [(GenerateGUID n, mkComponent k child (GenerateGUID n))]
            ∧ JsMap.get (CurrentRendered (this w')) k = Some (GenerateGUID n))
      as (n & Hn & Hby' & Hk').
    { destruct Hcase as [Hrec|Hnil].
      - by rewrite Hrec in Hres.
      - rewrite Hnil in Hres |- *. by destruct (CanRecover (this w)). }
    pose proof (issued_fresh GenerateGUID w n Hi Hn) as Hfresh.
    assert (JsMap.get (AllComponents (this w')) (GenerateGUID n)
            = Some (mkComponent k child (GenerateGUID n))) as Hnew.
    { apply get_by_key; [apply Hok'|]. simpl. rewrite Hby'.
      apply elem_of_app. right. left. }
    exists n. split_and!; [done..| |].
    + apply IsComponentActive_true. by eexists.
    + intros u c Hin. destruct (Hdet u c Hin) as [Hc Hkey].
      assert (JsMap.get (AllComponents (this w')) u = Some c) as Hc'.
      { apply get_by_key; [apply Hok'|]. rewrite Hkey, Hby'.
        apply elem_of_app. by left. }
      split_and!; [done| |].
      * apply not_true_is_false. rewrite IsComponentActive_true.
        intros (c0 & Hc0 & _ & Hb). rewrite Hc' in Hc0. injection Hc0 as <-.
        rewrite Hkey, Hk' in Hb. injection Hb as <-. congruence.
      * apply elem_of_physical_keys; [apply Hok'|].
        apply get_is_Some. by rewrite Hc'.
Qed.

(** Claim C4, as the code has it.  The render output has exactly one item
    per stored entry, bound or not: no physical key comes twice, the
    physical keys are the stored identities, the item found under an
    entry's identity holds one element, of the entry's component type,
    labelled with the entry's logical key, and the physical key of each
    item is the entry's [UID].  The items are emitted in the order in which
    the loop over [AllComponents] meets the entries, whatever that order
    is. *)
Theorem render_one_item_per_entry self w :
  bindings_ok (this w) →
  let rendered := (RenderComponents self w).1 in
  length rendered = length (AllComponents (this w))
  ∧ NoDup (JsMap.keys rendered)
  ∧ JsMap.keys rendered ≡ₚ JsMap.keys (AllComponents (this w))
  ∧ (∀ u c, JsMap.get (AllComponents (this w)) u = Some c →
       UID c = u
       ∧ ∃ el, JsMap.get rendered u = Some [(Key c, el)]
               ∧ type el = type (Element c))
  ∧ Forall2 rendered_as (walk (AllComponents (this w))) rendered
  ∧ JsMap.keys rendered = UID <$> (walk (AllComponents (this w))).*2.
Proof.
  intros Hok rendered.
  pose proof (RenderComponents_items self w (ok_entries_wf _ Hok)) as Hall.
  fold rendered in Hall.
  pose proof (rendered_as_keys _ _ Hall) as Hkeys.
  split_and!; [| | | |done|].
  - rewrite <-(Forall2_length _ _ _ Hall). by rewrite walk_visits_all.
  - rewrite Hkeys. apply wf_walk, Hok.
  - rewrite Hkeys. apply keys_walk.
  - intros u c Hc. split; [by apply (ok_uid _ Hok)|].
    by apply RenderComponents_get; [apply Hok|].
  - rewrite Hkeys. unfold JsMap.keys.
    apply list_eq. intros i. rewrite !list_lookup_fmap.
    destruct (walk (AllComponents (this w)) !! i) as [[u c]|] eqn:Hi; [|done].
    simpl. f_equal. symmetry. apply (ok_uid _ Hok).
    apply elem_get; [apply Hok|]. apply walk_elem. by eapply list_elem_of_lookup_2.
Qed.

(** Claim C5 (unlist no-op safety).  [UnlistComponent] is a total
    function, so it never raises.  Called on an active identity or on an
    identity that names no entry it leaves [AllComponents] and
    [CurrentRendered] as they are; called on a stored, inactive identity it
    deletes exactly that entry. *)
Theorem unlist_noop_safety u w :
  (IsComponentActive u (this w) = true ∨ JsMap.get (AllComponents (this w)) u = None →
     AllComponents (this (UnlistComponent u w)) = AllComponents (this w)
     ∧ CurrentRendered (this (UnlistComponent u w)) = CurrentRendered (this w)
     ∧ length (AllComponents (this (UnlistComponent u w)))
       = length (AllComponents (this w)))
  ∧ (IsComponentActive u (this w) = false →
     is_Some (JsMap.get (AllComponents (this w)) u) →
     JsMap.get (AllComponents (this (UnlistComponent u w))) u = None
     ∧ length (AllComponents (this (UnlistComponent u w)))
       < length (AllComponents (this w))
     ∧ ∀ u', u' ≠ u →
         JsMap.get (AllComponents (this (UnlistComponent u w))) u'
         = JsMap.get (AllComponents (this w)) u').
Proof.
  split.
  - intros [Hact|Habs].
    + by rewrite UnlistComponent_active.
    + by rewrite UnlistComponent_absent.
  - intros Hact [c Hc]. destruct (UnlistComponent_inactive u w Hact) as (-> & _).
    split_and!.
    + by rewrite get_delete, decide_True.
    + by eapply length_delete_present.
    + intros u' Hne. by rewrite get_delete, decide_False.
Qed.

(** Claim C7, as the code has it.  [UnlistComponent] invokes the change
    notifier exactly when the identity is not active: on every call that
    removes an entry, and also on a call whose identity names no entry.
    A call on an active identity does not invoke it. *)
Theorem notifier_fires_unless_active u w :
  updater_calls (UnlistComponent u w)
  = (if IsComponentActive u (this w) then updater_calls w
     else updater_calls w ++ [Updater (this w)])
  ∧ (AllComponents (this (UnlistComponent u w)) ≠ AllComponents (this w) ↔
     IsComponentActive u (this w) = false
     ∧ is_Some (JsMap.get (AllComponents (this w)) u)).
Proof.
  destruct (IsComponentActive u (this w)) eqn:Hact.
  - rewrite UnlistComponent_active by done. split; [done|].
    split; [done | by intros [? _]].
  - destruct (UnlistComponent_inactive u w Hact) as (Hac & -> & _).
    split; [done|]. rewrite Hac. split.
    + intros Hne. split; [done|].
      destruct (JsMap.get (AllComponents (this w)) u) eqn:E; [done|].
      by rewrite delete_absent in Hne.
    + intros [_ [c Hc]] Heq.
      pose proof (length_delete_present _ _ _ Hc) as Hlt. rewrite Heq in Hlt. lia.
Qed.

(** Claim C8, as the code has it.  When recovery is on and key [k] is
    requested without a binding while entries are stored with it, the entry
    that is recovered is the one [GetRenderedComponentByKey] returns when
    the second loop comes to [k]: the first entry with key [k] that the
    loop over [AllComponents] meets.  It is one of the detached entries with
    that key; [ProcessChildren] binds [k] to it and hands it the requested
    element.  Every other entry stored with the key stays as it was and
    inactive.  Neither creation nor detachment enters the choice. *)
Theorem recovery_takes_first_met children w k child :
  Inv GenerateGUID w →
  CanRecover (this w) = true →
  JsMap.get (CurrentRendered (this w)) k = None →
  JsMap.get children k = Some child →
  by_key (AllComponents (this w)) k ≠ [] →
  let w' := ProcessChildren GenerateGUID children w in
  let wk := on_reaching GenerateGUID k children w in
  ∃ c pre post,
    GetRenderedComponentByKey k (this wk) = Some c
    ∧ walk (AllComponents (this wk)) = pre ++ (UID c, c) :: post
    ∧ (∀ u' c', (u', c') ∈ pre → Key c' ≠ k)
    ∧ (UID c, c) ∈ by_key (AllComponents (this w)) k
    ∧ JsMap.get (CurrentRendered (this w')) k = Some (UID c)
    ∧ JsMap.get (AllComponents (this w')) (UID c) = Some (mkComponent k child (UID c))
    ∧ IsComponentActive (UID c) (this w') = true
    ∧ ∀ u' c', (u', c') ∈ by_key (AllComponents (this w)) k → u' ≠ UID c →
        JsMap.get (AllComponents (this w')) u' = Some c'
        ∧ IsComponentActive u' (this w') = false.
Proof.
  intros HInv Hrec Hk Hchild Hne w' wk.
  pose proof (ProcessChildren_placed GenerateGUID children w k child HInv Hk Hchild)
    as Hres.
  pose proof (ProcessChildren_Inv GenerateGUID children w HInv) as [Hok' _].
  pose proof (on_reaching_Inv GenerateGUID children w k HInv) as [Hokk _].
  cbv zeta in Hres. fold w' in Hres, Hok'. fold wk in Hres, Hokk.
  rewrite Hrec in Hres.
  destruct (by_key (AllComponents (this w)) k) as [|x rest] eqn:Hby; [done|].
  rewrite <-Hby in *. destruct Hres as (c & Hget & Hin & Hby' & Hk').
  destruct HInv as [Hok _].
  pose proof Hin as [Hc Hkey]%elem_of_by_key.
  apply elem_get in Hc; [|apply Hok].
  assert (JsMap.get (AllComponents (this w')) (UID c)
          = Some (mkComponent k child (UID c))) as Hc'.
  { apply get_by_key; [apply Hok'|]. simpl. rewrite Hby'.
    pose proof (elem_of_rebound _ (UID c) child _ _ Hin) as Hre.
    rewrite decide_True in Hre by done. unfold rebind in Hre. by rewrite Hkey in Hre. }
  pose proof (find_by_key_first (walk (AllComponents (this wk))) k) as Hfirst.
  unfold GetRenderedComponentByKey in Hget. rewrite Hget in Hfirst.
  destruct Hfirst as (pre & u & post & Hsplit & _ & Hpre).
  assert (u = UID c) as ->.
  { symmetry. apply (ok_uid _ Hokk). apply elem_get; [apply Hokk|].
    apply walk_elem. rewrite Hsplit. apply elem_of_app. right. left. }
  exists c, pre, post. split_and!; [done..| |].
  - apply IsComponentActive_true. by eexists.
  - intros u' c' Hin' Hne'.
    pose proof Hin' as [_ Hkey']%elem_of_by_key.
    assert (JsMap.get (AllComponents (this w')) u' = Some c') as Hc''.
    { apply get_by_key; [apply Hok'|]. rewrite Hkey', Hby'.
      pose proof (elem_of_rebound _ (UID c) child _ _ Hin') as Hre.
      by rewrite decide_False in Hre. }
    split; [done|]. apply not_true_is_false. rewrite IsComponentActive_true.
    intros (c0 & Hc0 & _ & Hb). rewrite Hc'' in Hc0. injection Hc0 as <-.
    rewrite Hkey', Hk' in Hb. injection Hb as Hb. congruence.
Qed.

(** Claim C10 (binding consistency).  In every state reached from the new
    controller by calls of its methods: each binding names a stored entry
    whose [Key] is the bound key; two active entries with the same logical
    key are the same entry; an entry is stored under its own [UID]; and
    whatever call comes next, an entry that is still stored afterwards has
    the [UID] it had before. *)
Theorem binding_consistency w :
  reachable GenerateGUID w →
  (∀ k u, JsMap.get (CurrentRendered (this w)) k = Some u →
     ∃ c, JsMap.get (AllComponents (this w)) u = Some c ∧ Key c = k)
  ∧ (∀ u1 u2 c1 c2,
       JsMap.get (AllComponents (this w)) u1 = Some c1 →
       JsMap.get (AllComponents (this w)) u2 = Some c2 →
       IsComponentActive u1 (this w) = true →
       IsComponentActive u2 (this w) = true →
       Key c1 = Key c2 → u1 = u2)
  ∧ (∀ u c, JsMap.get (AllComponents (this w)) u = Some c → UID c = u)
  ∧ (∀ call u c c',
       JsMap.get (AllComponents (this w)) u = Some c →
       JsMap.get (AllComponents (this (exec GenerateGUID w call))) u = Some c' →
       UID c' = UID c).
Proof.
  intros Hreach. pose proof (reachable_Inv GenerateGUID w Hreach) as HInv.
  split_and!.
  - apply HInv.
  - intros u1 u2 c1 c2 Hc1 Hc2 Ha1 Ha2 Hkey.
    apply IsComponentActive_true in Ha1 as (c1' & Hc1' & _ & Hb1).
    apply IsComponentActive_true in Ha2 as (c2' & Hc2' & _ & Hb2).
    congruence.
  - apply HInv.
  - intros call u c c' Hc Hc'.
    pose proof (exec_Inv GenerateGUID w call HInv) as [Hok' _].
    destruct HInv as [Hok _].
    rewrite (ok_uid _ Hok _ _ Hc), (ok_uid _ Hok' _ _ Hc'). done.
Qed.
End claims.

(** ** Hooks *)

Section hook_facts.
Context (store : ControllerRef → LifetimeController).
Implicit Types (props : PropsType).

Lemma useIntrinsicData_None props :
  useIntrinsicData props = None ↔
  UIDInternal props = None ∨ LifetimeInternal props = None.
Proof.
  unfold useIntrinsicData.
  destruct (UIDInternal props), (LifetimeInternal props); simpl;
    (split; [try done; auto | try done; intros [?|?]; done]).
Qed.

(** Without the token every hook stops at the destructuring. *)
Lemma hooks_without_token props :
  UIDInternal props = None ∨ LifetimeInternal props = None →
  ∃ e, useComponentIsActive store props = Raise (TypeError e)
       ∧ useComponentLifetime store props = Raise (TypeError e)
       ∧ useDeferLifetime store props = Raise (TypeError e)
       ∧ useLifetimeAsync store props = Raise (TypeError e).
Proof.
  intros Hno%useIntrinsicData_None. eexists.
  unfold useDeferLifetime, useLifetimeAsync, useComponentIsActive, useComponentLifetime.
  rewrite Hno. simpl. done.
Qed.

(** With the token the activity query is the registry's answer. *)
Lemma useComponentIsActive_with_token props u c :
  UIDInternal props = Some u → LifetimeInternal props = Some c →
  useComponentIsActive store props = Ok (IsComponentActive u (store c)).
Proof.
  intros Hu Hc. unfold useComponentIsActive, useIntrinsicData. by rewrite Hu, Hc.
Qed.
End hook_facts.

(** Claim C9 at a props record without the token.  The documented answer
    of [useComponentIsActive] is [true]; the call raises instead, because
    [useIntrinsicData] returns [undefined] and the result is destructured
    before the guard that would return [true]. *)
Theorem useComponentIsActive_without_token store :
  useIntrinsicData empty_props = None
  ∧ useComponentIsActive store empty_props
    = Raise (TypeError "Cannot destructure property 'uid' of undefined")
  ∧ useComponentIsActive store empty_props ≠ Ok true.
Proof. by split_and!. Qed.

(** ** The scenario, on the runtime that walks the entries as stored *)

Section stored_order_scenario.
#[local] Existing Instance stored_order.

(** Claim C6 at an entry whose element carries a props table.  Before the
    render pass the caller's table at address 0 holds only [title]; after
    it the same table holds the registry reference and the identity as well.
    The new element's table (address 1) is a copy made after the writes. *)
Theorem render_writes_into_caller_props :
  let self := 7 in
  let out := RenderComponents self titled_window in
  AllComponents (this titled_window)
  = [(serial_GUID 0, mkComponent key_A (mkElement "Window" (PropsAt 0)) (serial_GUID 0))]
  ∧ heap titled_window = [titled_props]
  ∧ out.1 = [(serial_GUID 0, [(key_A, mkElement "Window" (PropsAt 1))])]
  ∧ heap out.2 !! 0
    = Some (mkProps {["title" := VStr "hi"]} (Some self) (Some (serial_GUID 0)))
  ∧ heap out.2 !! 1 = heap out.2 !! 0
  ∧ heap out.2 !! 0 ≠ Some titled_props.
Proof. vm_compute. by split_and!. Qed.

(** Claim C7 fails as stated: a call on an identity that names no entry
    removes nothing and still invokes the notifier. *)
Lemma notifier_fires_without_removal :
  let w := with_this (SetUpdater (HostUpdater 1)) new_World in
  let w' := UnlistComponent "ghost" w in
  JsMap.get (AllComponents (this w)) "ghost" = None
  ∧ AllComponents (this w') = AllComponents (this w)
  ∧ updater_calls w = []
  ∧ updater_calls w' = [HostUpdater 1]
  ∧ ¬ (updater_calls w' ≠ updater_calls w ↔
       AllComponents (this w') ≠ AllComponents (this w)).
Proof.
  vm_compute. split_and!; [done..|]. intros [H _]. by apply H.
Qed.

(** Claim C4 fails as stated.  [A] is created first, as [guid-0], and
    [B] second, as [guid-1].  On a runtime whose loops meet the entries of
    a table the other way round, the render pass emits the item of [B]
    before the item of [A]: the output is not in creation order. *)
Lemma render_order_is_walk_order :
  let w := run (rt := reverse_order) serial_GUID new_World
             [CallProcessChildren [(key_A, window "a1"); (key_B, window "b1")]] in
  let rendered := (RenderComponents (rt := reverse_order) 0 w).1 in
  JsMap.get (CurrentRendered (this w)) key_A = Some (serial_GUID 0)
  ∧ JsMap.get (CurrentRendered (this w)) key_B = Some (serial_GUID 1)
  ∧ guid_calls w = 2
  ∧ rendered = [(serial_GUID 1, [(key_B, window "b1")]);
                (serial_GUID 0, [(key_A, window "a1")])]
  ∧ JsMap.keys rendered ≠ [serial_GUID 0; serial_GUID 1].
Proof. vm_compute. by split_and!. Qed.

(** Claim C8 fails as stated.  With recovery off, [A] is created as
    [guid-0], dropped in the second pass, created again as [guid-1] and
    dropped in the fourth pass, so [guid-1] is the entry detached most
    recently.  With recovery switched on, the next request for [A] recovers
    [guid-0], the entry the lookup meets first. *)
Lemma recovery_prefers_oldest_entry :
  let U1 := serial_GUID 0 in
  let U2 := serial_GUID 1 in
  let w := twice_dropped 5 in
  let w' := ProcessChildren serial_GUID [(key_A, window "a3")] w in
  (λ n, IsComponentActive U1 (this (twice_dropped n))) <$> [1; 2; 3; 4; 5]
  = [true; false; false; false; false]
  ∧ (λ n, IsComponentActive U2 (this (twice_dropped n))) <$> [1; 2; 3; 4; 5]
    = [false; false; true; false; false]
  ∧ CanRecover (this w) = true
  ∧ JsMap.keys (by_key (AllComponents (this w)) key_A) = [U1; U2]
  ∧ UID <$> GetRenderedComponentByKey key_A (this w) = Some U1
  ∧ UID <$> GetRenderedComponentByKey key_A (this w) ≠ Some U2
  ∧ JsMap.get (CurrentRendered (this w')) key_A = Some U1
  ∧ IsComponentActive U1 (this w') = true
  ∧ IsComponentActive U2 (this w') = false.
Proof. vm_compute. by split_and!. Qed.

(** The choice follows the walk, not the age of the entries: in the same
    state, a runtime whose loops meet the entries the other way round
    recovers [guid-1]. *)
Lemma recovery_follows_the_walk :
  let w := twice_dropped 5 in
  let w' := ProcessChildren (rt := reverse_order) serial_GUID [(key_A, window "a3")] w in
  JsMap.keys (by_key (AllComponents (this w)) key_A) = [serial_GUID 0; serial_GUID 1]
  ∧ UID <$> GetRenderedComponentByKey (rt := reverse_order) key_A (this w)
    = Some (serial_GUID 1)
  ∧ JsMap.get (CurrentRendered (this w')) key_A = Some (serial_GUID 1)
  ∧ IsComponentActive (serial_GUID 1) (this w') = true
  ∧ IsComponentActive (serial_GUID 0) (this w') = false.
Proof. vm_compute. by split_and!. Qed.

(** ** The statements at the scenario *)

Lemma twice_dropped_Inv n : Inv serial_GUID (twice_dropped n).
Proof. apply (run_Inv serial_GUID), (new_World_Inv serial_GUID). Qed.

Lemma identity_continuity_witness :
  let w' := ProcessChildren serial_GUID [(key_A, window "a2")] two_windows in
  JsMap.get (CurrentRendered (this w')) key_A = Some (serial_GUID 0)
  ∧ JsMap.get (AllComponents (this w')) (serial_GUID 0)
    = Some (mkComponent key_A (window "a2") (serial_GUID 0)).
Proof.
  assert (JsMap.get (CurrentRendered (this two_windows)) key_A = Some (serial_GUID 0))
    as Hbound by (vm_compute; reflexivity).
  pose proof (identity_continuity serial_GUID [(key_A, window "a2")] two_windows
                key_A (serial_GUID 0) (window "a2") 0 0
                two_windows_Inv Hbound eq_refl) as H.
  cbv zeta in H |- *. destruct H as (H1 & _ & H3 & _). split; assumption.
Defined.

Lemma detach_not_delete_witness :
  let w' := ProcessChildren serial_GUID [(key_A, window "a2")] two_windows in
  let later :=
    run serial_GUID w'
      [CallProcessChildren [(key_A, window "a3")];
       CallUnlistComponent (serial_GUID 0);
       CallRenderComponents 0] in
  IsComponentActive (serial_GUID 1) (this w') = false
  ∧ serial_GUID 1 ∈ physical_keys 0 w'
  ∧ serial_GUID 1 ∈ physical_keys 0 later.
Proof.
  assert (JsMap.get (CurrentRendered (this two_windows)) key_B = Some (serial_GUID 1))
    as Hbound by (vm_compute; reflexivity).
  assert (CallUnlistComponent (serial_GUID 1)
          ∉ [CallProcessChildren [(key_A, window "a3")];
             CallUnlistComponent (serial_GUID 0);
             CallRenderComponents 0]) as Hcalls.
  { refine (bool_decide_unpack _ _). vm_compute. exact I. }
  pose proof (detach_not_delete serial_GUID [(key_A, window "a2")] two_windows
                key_B (serial_GUID 1) 0 _
                two_windows_Inv Hbound eq_refl Hcalls) as H.
  cbv zeta in H |- *. destruct H as (_ & H2 & _ & _ & H5 & _ & H7 & _).
  split; [assumption | split; assumption].
Defined.

Lemma recovery_versus_creation_witness :
  let w' := ProcessChildren serial_GUID [(key_A, window "a2")] (twice_dropped 2) in
  ∃ n, JsMap.get (AllComponents (this w')) (serial_GUID n)
       = Some (mkComponent key_A (window "a2") (serial_GUID n)).
Proof.
  assert (JsMap.get (CurrentRendered (this (twice_dropped 2))) key_A = None)
    as Hunbound by (vm_compute; reflexivity).
  pose proof (recovery_versus_creation serial_GUID [(key_A, window "a2")]
                (twice_dropped 2) key_A (window "a2") 0
                (twice_dropped_Inv 2) Hunbound eq_refl) as H.
  cbv zeta in H |- *. destruct H as (_ & _ & H3).
  destruct (H3 (or_introl eq_refl)) as (n & _ & _ & Hnew & _).
  exists n. assumption.
Defined.

Lemma render_one_item_per_entry_witness :
  length (RenderComponents 0 two_windows).1 = length (AllComponents (this two_windows))
  ∧ NoDup (JsMap.keys (RenderComponents 0 two_windows).1).
Proof.
  pose proof (render_one_item_per_entry 0 two_windows (proj1 two_windows_Inv)) as H.
  cbv zeta in H. destruct H as (H1 & H2 & _). split; assumption.
Defined.

Lemma unlist_noop_safety_witness :
  AllComponents (this (UnlistComponent "ghost" two_windows))
  = AllComponents (this two_windows).
Proof.
  assert (JsMap.get (AllComponents (this two_windows)) "ghost" = None)
    as Habsent by (vm_compute; reflexivity).
  destruct (proj1 (unlist_noop_safety "ghost" two_windows) (or_intror Habsent))
    as (H1 & _).
  assumption.
Defined.

Lemma recovery_takes_first_met_witness :
  let w' := ProcessChildren serial_GUID [(key_A, window "a3")] (twice_dropped 5) in
  ∃ c, JsMap.get (CurrentRendered (this w')) key_A = Some (UID c)
       ∧ IsComponentActive (UID c) (this w') = true.
Proof.
  assert (JsMap.get (CurrentRendered (this (twice_dropped 5))) key_A = None)
    as Hunbound by (vm_compute; reflexivity).
  assert (by_key (AllComponents (this (twice_dropped 5))) key_A ≠ []) as Hstored.
  { vm_compute. discriminate. }
  pose proof (recovery_takes_first_met serial_GUID [(key_A, window "a3")]
                (twice_dropped 5) key_A (window "a3")
                (twice_dropped_Inv 5) eq_refl Hunbound eq_refl Hstored) as H.
  cbv zeta in H |- *. destruct H as (c & pre & post & _ & _ & _ & _ & H5 & _ & H7 & _).
  exists c. split; assumption.
Defined.

Lemma binding_consistency_witness :
  ∃ c, JsMap.get (AllComponents (this two_windows)) (serial_GUID 1) = Some c
       ∧ Key c = key_B.
Proof.
  assert (JsMap.get (CurrentRendered (this two_windows)) key_B = Some (serial_GUID 1))
    as Hbound by (vm_compute; reflexivity).
  pose proof (binding_consistency serial_GUID two_windows
                (reachable_run serial_GUID new_World _ (reachable_new serial_GUID))) as H.
  destruct H as (H1 & _). exact (H1 key_B (serial_GUID 1) Hbound).
Defined.

End stored_order_scenario.

(** * Further properties of the controller *)

Section pass_facts.
Context {rt : Runtime} (GenerateGUID : nat → GUID) `{!Inj (=) (=) GenerateGUID}.
Implicit Types (w : World) (k : LogicalKey) (u : GUID)
  (children : list (LogicalKey * ReactElement)).

Lemma set_same {K V} `{!EqDecision K} (m : list (K * V)) (x : K) (v : V) :
  JsMap.get m x = Some v → JsMap.set m x v = m.
Proof.
  induction m as [|[k0 v0] m IH]; simpl; [done|].
  destruct (decide (k0 = x)) as [->|]; [by intros [= ->]|].
  intros H. by rewrite IH.
Qed.

Lemma place_loop_bound l w :
  (∀ k, k ∈ JsMap.keys l → is_Some (JsMap.get (CurrentRendered (this w)) k)) →
  foldl (place_child GenerateGUID) w l = w.
Proof.
  induction l as [|[key child] l IH]; intros Hb; [done|].
  cbn [foldl]. destruct (Hb key) as [u Hu]; [left|].
  rewrite (place_child_bound _ _ _ _ u) by done.
  apply IH. intros k Hk. apply Hb. by right.
Qed.

Lemma keep_loop_fixed children l nc t :
  NoDup (JsMap.keys nc ++ JsMap.keys l) →
  (∀ k u, (k, u) ∈ l →
     ∃ c, JsMap.get (AllComponents t) u = Some c
          ∧ JsMap.get children k = Some (Element c)) →
  foldl (keep_child children) (nc, t) l = (nc ++ l, t).
Proof.
  unfold JsMap.keys.
  revert nc. induction l as [|[k u] l IH]; intros nc Hnd Hl; simpl.
  - by rewrite app_nil_r.
  - destruct (Hl k u) as (c & Hc & Hchild); [left|]. rewrite Hchild.
    assert (UpdateComponent u (Element c) t = t) as ->.
    { unfold UpdateComponent. rewrite Hc.
      replace (mkComponent (Key c) (Element c) (UID c)) with c by (by destruct c).
      rewrite set_same by done. by destruct t. }
    rewrite fmap_cons in Hnd. apply NoDup_app in Hnd as (Hnc & Hdisj & Hl').
    apply NoDup_cons in Hl' as [Hk Hl'].
    rewrite set_absent.
    2: { apply get_None. intros Hin. apply (Hdisj _ Hin). left. }
    rewrite IH.
    + by rewrite <-app_assoc.
    + rewrite fmap_app. simpl. rewrite <-app_assoc. simpl.
      apply NoDup_app. split_and!; [done| |by apply NoDup_cons].
      intros x Hx. by apply Hdisj.
    + intros k' u' Hin. apply Hl. by right.
Qed.

Lemma ProcessChildren_outcome children w k :
  Inv GenerateGUID w →
  let w' := ProcessChildren GenerateGUID children w in
  match JsMap.get children k with
  | None => JsMap.get (CurrentRendered (this w')) k = None
  | Some child =>
      ∃ u, JsMap.get (CurrentRendered (this w')) k = Some u
           ∧ JsMap.get (AllComponents (this w')) u = Some (mkComponent k child u)
           ∧ IsComponentActive u (this w') = true
  end.
Proof.
  intros HInv w'.
  destruct (JsMap.get children k) as [child|] eqn:Hchild.
  2: { by destruct (ProcessChildren_dropped GenerateGUID children w k HInv Hchild). }
  assert (∀ u, JsMap.get (CurrentRendered (this w')) k = Some u →
            JsMap.get (AllComponents (this w')) u = Some (mkComponent k child u) →
            IsComponentActive u (this w') = true) as Hactive.
  { intros u Hk Hc. apply IsComponentActive_true. by eexists. }
  destruct (JsMap.get (CurrentRendered (this w)) k) as [u|] eqn:Hk.
  { destruct (ProcessChildren_kept GenerateGUID children w k u child HInv Hk Hchild)
      as [Hk' Hc'].
    exists u. split_and!; [done..|]. by apply Hactive. }
  pose proof (ProcessChildren_placed GenerateGUID children w k child HInv Hk Hchild)
    as Hres.
  pose proof (ProcessChildren_Inv GenerateGUID children w HInv) as [Hok' _].
  cbv zeta in Hres. fold w' in Hres, Hok'. destruct HInv as [Hok _].
  assert (∀ old n,
    by_key (AllComponents (this w')) k
    = old ++ [(GenerateGUID n, mkComponent k child (GenerateGUID n))] →
    JsMap.get (CurrentRendered (this w')) k = Some (GenerateGUID n) →
    ∃ u, JsMap.get (CurrentRendered (this w')) k = Some u
         ∧ JsMap.get (AllComponents (this w')) u = Some (mkComponent k child u)
         ∧ IsComponentActive u (this w') = true) as Hnew.
  { intros old n Hby' Hk'.
    assert (JsMap.get (AllComponents (this w')) (GenerateGUID n)
            = Some (mkComponent k child (GenerateGUID n))) as Hc'.
    { apply get_by_key; [apply Hok'|]. simpl. rewrite Hby'.
      apply elem_of_app. right. left. }
    eexists. split_and!; [done..|]. by apply Hactive. }
  destruct (CanRecover (this w)) eqn:Hrec,
    (by_key (AllComponents (this w)) k) as [|x rest] eqn:Hby.
  - destruct Hres as (n & _ & Hby' & Hk'). by eapply Hnew.
  - destruct Hres as (c & _ & Hin & Hby' & Hk'). rewrite <-Hby in Hin, Hby'.
    pose proof Hin as [_ Hkey]%elem_of_by_key.
    assert (JsMap.get (AllComponents (this w')) (UID c)
            = Some (mkComponent k child (UID c))) as Hc'.
    { apply get_by_key; [apply Hok'|]. simpl. rewrite Hby'.
      pose proof (elem_of_rebound _ (UID c) child _ _ Hin) as Hre.
      rewrite decide_True in Hre by done. unfold rebind in Hre. by rewrite Hkey in Hre. }
    exists (UID c). split_and!; [done..|]. by apply Hactive.
  - destruct Hres as (n & _ & Hby' & Hk'). by eapply Hnew.
  - destruct Hres as (n & _ & Hby' & Hk'). by eapply Hnew.
Qed.

(** Rendering again with the same children changes nothing: no entry is
    touched, no binding moves and no identifier is drawn. *)
Theorem ProcessChildren_idempotent children w :
  Inv GenerateGUID w →
  ProcessChildren GenerateGUID children (ProcessChildren GenerateGUID children w)
  = ProcessChildren GenerateGUID children w.
Proof.
  intros HInv.
  pose proof (ProcessChildren_Inv GenerateGUID children w HInv) as HInv'.
  set (w' := ProcessChildren GenerateGUID children w) in *.
  assert (∀ k u, JsMap.get (CurrentRendered (this w')) k = Some u →
            ∃ c, JsMap.get (AllComponents (this w')) u = Some c
                 ∧ JsMap.get children k = Some (Element c)) as Hbound.
  { intros k u Hk.
    pose proof (ProcessChildren_outcome children w k HInv) as H.
    cbv zeta in H. fold w' in H.
    destruct (JsMap.get children k) as [child|]; [|congruence].
    destruct H as (u' & Hk' & Hc' & _). assert (u' = u) as -> by congruence.
    by eexists. }
  rewrite ProcessChildren_unfold.
  assert (after_rebind children w' = w') as ->.
  { unfold after_rebind.
    rewrite (keep_loop_fixed children (CurrentRendered (this w')) [] (this w')).
    - simpl. unfold with_this, set_CurrentRendered. simpl.
      by destruct w' as [[] ? ? ?].
    - simpl. apply HInv'.
    - intros k u Hin. apply Hbound. apply elem_get; [apply HInv' | done]. }
  apply place_loop_bound. intros k Hk. apply get_is_Some in Hk as [child Hchild].
  pose proof (ProcessChildren_outcome children w k HInv) as H.
  cbv zeta in H. fold w' in H. rewrite Hchild in H.
  destruct H as (u & -> & _). by eexists.
Qed.

(** After a pass the bound keys are exactly the requested keys, and each
    of them is bound to an active entry that carries the requested element
    under that key. *)
Theorem ProcessChildren_binds_exactly_requested children w :
  Inv GenerateGUID w →
  let w' := ProcessChildren GenerateGUID children w in
  (∀ k, is_Some (JsMap.get (CurrentRendered (this w')) k)
        ↔ is_Some (JsMap.get children k))
  ∧ (∀ k u, JsMap.get (CurrentRendered (this w')) k = Some u →
       ∃ child, JsMap.get children k = Some child
         ∧ JsMap.get (AllComponents (this w')) u = Some (mkComponent k child u)
         ∧ IsComponentActive u (this w') = true).
Proof.
  intros HInv w'. split.
  - intros k. pose proof (ProcessChildren_outcome children w k HInv) as H.
    cbv zeta in H. fold w' in H.
    destruct (JsMap.get children k) as [child|].
    + destruct H as (u & -> & _). split; by eexists.
    + rewrite H. split; by intros [? ?].
  - intros k u Hk. pose proof (ProcessChildren_outcome children w k HInv) as H.
    cbv zeta in H. fold w' in H.
    destruct (JsMap.get children k) as [child|]; [|congruence].
    destruct H as (u' & Hk' & Hc' & Hact). assert (u' = u) as -> by congruence.
    by exists child.
Qed.

Lemma place_child_cost w kc :
  Inv GenerateGUID w →
  let w' := place_child GenerateGUID w kc in
  length (AllComponents (this w')) + guid_calls w
  = length (AllComponents (this w)) + guid_calls w'
  ∧ guid_calls w' ≤ S (guid_calls w).
Proof.
  intros HInv. destruct kc as [key child]. cbv zeta.
  assert (let w' := RegistryComponent GenerateGUID child key w in
          length (AllComponents (this w')) + guid_calls w
          = length (AllComponents (this w)) + guid_calls w'
          ∧ guid_calls w' ≤ S (guid_calls w)) as Hreg.
  { pose proof (RegistryComponent_shape GenerateGUID child key w (proj2 HInv)) as H.
    cbv zeta in H |- *. destruct H as (-> & _ & ->).
    rewrite length_app. simpl. lia. }
  destruct (JsMap.get (CurrentRendered (this w)) key) as [u|] eqn:Hk.
  { erewrite place_child_bound by done. lia. }
  destruct (place_child_cases GenerateGUID w key child Hk)
    as [(-> & _)|(c & Hrec & Hget & ->)]; [done|]. simpl.
  pose proof (UpdateComponent_keys (UID c) child (this w)) as Hkeys.
  apply (f_equal length) in Hkeys. unfold JsMap.keys in Hkeys.
  rewrite !length_fmap in Hkeys. lia.
Qed.

Lemma place_loop_cost l w :
  Inv GenerateGUID w →
  let w' := foldl (place_child GenerateGUID) w l in
  length (AllComponents (this w')) + guid_calls w
  = length (AllComponents (this w)) + guid_calls w'
  ∧ guid_calls w' ≤ guid_calls w + length l.
Proof.
  revert w. induction l as [|kc l IH]; intros w HInv; [simpl; lia|].
  cbn [foldl length].
  destruct (place_child_cost w kc HInv) as [Hstep Hle].
  destruct (IH (place_child GenerateGUID w kc) (place_child_Inv _ _ _ HInv)) as [H1 H2].
  cbv zeta in Hstep, Hle, H1, H2 |- *. lia.
Qed.

(** What a pass costs: it never invokes the notifier and never touches the
    heap, the recovery flag or the notifier; it never removes an entry; it
    adds exactly one entry per identifier it draws, and draws at most one
    per requested child. *)
Theorem ProcessChildren_cost children w :
  Inv GenerateGUID w →
  let w' := ProcessChildren GenerateGUID children w in
  updater_calls w' = updater_calls w
  ∧ heap w' = heap w
  ∧ CanRecover (this w') = CanRecover (this w)
  ∧ Updater (this w') = Updater (this w)
  ∧ (∀ u, is_Some (JsMap.get (AllComponents (this w)) u) →
          is_Some (JsMap.get (AllComponents (this w')) u))
  ∧ length (AllComponents (this w')) + guid_calls w
    = length (AllComponents (this w)) + guid_calls w'
  ∧ guid_calls w ≤ guid_calls w' ≤ guid_calls w + length children.
Proof.
  intros HInv w'.
  destruct (ProcessChildren_frame GenerateGUID children w) as (Hrec & Hupd & Hcalls & Hheap & Hle).
  fold w' in Hrec, Hupd, Hcalls, Hheap, Hle.
  pose proof (after_rebind_Inv GenerateGUID children w HInv) as HInv1.
  destruct (after_rebind_frame children w) as (Hn & _ & _ & _ & _ & Hkeys).
  apply (f_equal length) in Hkeys. unfold JsMap.keys in Hkeys.
  rewrite !length_fmap in Hkeys.
  destruct (place_loop_cost children (after_rebind children w) HInv1) as [H1 H2].
  cbv zeta in H1, H2. rewrite <-ProcessChildren_unfold in H1, H2. fold w' in H1, H2.
  split_and!; [done..| | |done|].
  - intros u. apply ProcessChildren_keeps.
  - lia.
  - lia.
Qed.
End pass_facts.

(** ** Recovery kept on: one entry per logical key *)

Section recovery_facts.
Context {rt : Runtime} (GenerateGUID : nat → GUID) `{!Inj (=) (=) GenerateGUID}.
Implicit Types (w : World) (t : LifetimeController) (k : LogicalKey) (u : GUID)
  (children : list (LogicalKey * ReactElement)).

Lemma stored_set_same_key (m : list (GUID * ComponentState)) u c c0 :
  JsMap.get m u = Some c0 → Key c = Key c0 →
  (λ uc : GUID * ComponentState, Key uc.2) <$> JsMap.set m u c
  = (λ uc : GUID * ComponentState, Key uc.2) <$> m.
Proof.
  intros Hget Hkey. induction m as [|[u' c'] m IH]; simpl in *; [done|].
  destruct (decide (u' = u)) as [->|].
  - injection Hget as ->. rewrite !fmap_cons. simpl. by rewrite Hkey.
  - rewrite !fmap_cons. by rewrite IH.
Qed.

Lemma UpdateComponent_stored_keys u el t :
  stored_keys (UpdateComponent u el t) = stored_keys t.
Proof.
  unfold stored_keys, UpdateComponent.
  destruct (JsMap.get (AllComponents t) u) as [c|] eqn:E; [|done].
  simpl. by apply (stored_set_same_key _ _ _ c).
Qed.

Lemma keep_loop_stored_keys children (l nc : list (LogicalKey * GUID)) t :
  stored_keys (foldl (keep_child children) (nc, t) l).2 = stored_keys t.
Proof.
  revert nc t. induction l as [|[k u] l IH]; intros nc t; simpl; [done|].
  destruct (JsMap.get children k) as [child|]; [|apply IH].
  rewrite IH. apply UpdateComponent_stored_keys.
Qed.

Lemma by_key_nil (m : list (GUID * ComponentState)) k :
  by_key m k = [] → k ∉ (λ uc : GUID * ComponentState, Key uc.2) <$> m.
Proof.
  unfold by_key. intros Hnil Hin.
  apply list_elem_of_fmap in Hin as ([u c] & -> & Hin).
  by apply (filter_nil_not_elem_of _ _ _ Hnil) in Hin.
Qed.

Lemma by_key_unique (m : list (GUID * ComponentState)) k u c :
  NoDup ((λ uc : GUID * ComponentState, Key uc.2) <$> m) →
  (u, c) ∈ m → Key c = k → by_key m k = [(u, c)].
Proof.
  unfold by_key. intros Hnd Hin Hkey.
  induction m as [|[u0 c0] m IH]; [by apply elem_of_nil in Hin|].
  rewrite fmap_cons in Hnd. apply NoDup_cons in Hnd as [Hfresh Hnd]. simpl in Hfresh.
  assert (∀ u' c', (u', c') ∈ m → Key c' ≠ Key c0) as Hother.
  { intros u' c' Hin' Heq. apply Hfresh. rewrite <-Heq.
    apply list_elem_of_fmap. by exists (u', c'). }
  apply elem_of_cons in Hin as [Heq|Hin].
  - injection Heq as <- <-. rewrite filter_cons_True by done. f_equal.
    destruct (filter (λ uc : GUID * ComponentState, Key uc.2 = k) m)
      as [|[u' c'] rest] eqn:E; [done|].
    assert ((u', c') ∈ filter (λ uc : GUID * ComponentState, Key uc.2 = k) m) as Hin'
      by (rewrite E; left).
    apply list_elem_of_filter in Hin' as [Hk' Hin']. simpl in Hk'.
    exfalso. apply (Hother u' c' Hin'). congruence.
  - rewrite filter_cons_False; [by apply IH|].
    simpl. intros Heq. apply (Hother u c Hin). congruence.
Qed.

Lemma place_child_unique w kc :
  Inv GenerateGUID w → CanRecover (this w) = true →
  NoDup (stored_keys (this w)) →
  NoDup (stored_keys (this (place_child GenerateGUID w kc))).
Proof.
  intros HInv Hrec Hnd. destruct kc as [key child].
  destruct (JsMap.get (CurrentRendered (this w)) key) as [u|] eqn:Hk.
  { by erewrite place_child_bound. }
  destruct (place_child_cases GenerateGUID w key child Hk)
    as [(-> & [Hoff|Hby] & _)|(c & _ & Hget & ->)]; [congruence| |].
  - pose proof (RegistryComponent_shape GenerateGUID child key w (proj2 HInv)) as H.
    cbv zeta in H. destruct H as (Hac & _). unfold stored_keys. rewrite Hac, fmap_app.
    apply NoDup_app. split_and!; [done| |apply NoDup_singleton].
    intros x Hx ->%list_elem_of_singleton. simpl in Hx. by apply by_key_nil in Hby.
  - simpl.
    pose proof (UpdateComponent_stored_keys (UID c) child (this w)) as Hs.
    unfold stored_keys in *. simpl. by rewrite Hs.
Qed.

Lemma ProcessChildren_unique children w :
  Inv GenerateGUID w → CanRecover (this w) = true →
  NoDup (stored_keys (this w)) →
  NoDup (stored_keys (this (ProcessChildren GenerateGUID children w))).
Proof.
  intros HInv Hrec Hnd. rewrite ProcessChildren_unfold.
  pose proof (after_rebind_Inv GenerateGUID children w HInv) as HInv1.
  assert (CanRecover (this (after_rebind children w)) = true) as Hrec1.
  { destruct (after_rebind_frame children w) as (_ & _ & _ & -> & _). done. }
  assert (NoDup (stored_keys (this (after_rebind children w)))) as Hnd1.
  { unfold after_rebind. simpl.
    pose proof (keep_loop_stored_keys children (CurrentRendered (this w)) [] (this w)) as Hs.
    unfold stored_keys in *. simpl in *.
    destruct (foldl (keep_child children) ([], this w) (CurrentRendered (this w))).
    simpl in *. by rewrite Hs. }
  generalize dependent (after_rebind children w). intros w1.
  induction children as [|kc l IH] in w1 |- *; intros HInv1 Hrec1 Hnd1; [done|].
  cbn [foldl]. apply IH.
  - by apply place_child_Inv.
  - destruct (place_child_frame GenerateGUID w1 kc) as (-> & _). done.
  - by apply place_child_unique.
Qed.

Lemma fmap_sublist {A B} (f : A → B) (l1 l2 : list A) :
  l1 `sublist_of` l2 → f <$> l1 `sublist_of` f <$> l2.
Proof.
  induction 1; rewrite ?fmap_cons; [done | by apply sublist_skip | by apply sublist_cons].
Qed.

Lemma exec_unique w c :
  Inv GenerateGUID w → CanRecover (this w) = true →
  NoDup (stored_keys (this w)) → keeps_recovery c = true →
  CanRecover (this (exec GenerateGUID w c)) = true
  ∧ NoDup (stored_keys (this (exec GenerateGUID w c))).
Proof.
  intros HInv Hrec Hnd Hc.
  destruct c as [updater|b|u0|u0|element key|u0 element|children|self]; simpl in *.
  - done.
  - by subst b.
  - unfold stored_keys. rewrite RemoveRenderedByUID_entries. split; [|done].
    unfold RemoveRenderedByUID. destruct (GetComponent u0 (this w)); [|done].
    by destruct (decide _).
  - destruct (IsComponentActive u0 (this w)) eqn:Hact.
    { by rewrite UnlistComponent_active. }
    destruct (UnlistComponent_inactive u0 w Hact) as (Hac & _ & _ & _ & ->).
    split; [done|]. unfold stored_keys. rewrite Hac.
    eapply sublist_NoDup; [exact Hnd|]. apply fmap_sublist, sublist_filter.
  - done.
  - destruct (UpdateComponent_fields u0 element (this w)) as (-> & _).
    split; [done|]. by rewrite UpdateComponent_stored_keys.
  - destruct (ProcessChildren_frame GenerateGUID children w) as (-> & _).
    split; [done|]. by apply ProcessChildren_unique.
  - by destruct (RenderComponents_frame self w) as (-> & _).
Qed.

(** With recovery on and left on, and entries created only by
    [ProcessChildren], no two stored entries ever share a logical key: each
    key has at most one entry, bound or detached. *)
Theorem recovery_keeps_one_entry_per_key w cs :
  Inv GenerateGUID w → CanRecover (this w) = true →
  NoDup (stored_keys (this w)) →
  Forall (λ c, keeps_recovery c = true) cs →
  let w' := run GenerateGUID w cs in
  CanRecover (this w') = true
  ∧ NoDup (stored_keys (this w'))
  ∧ ∀ k, length (by_key (AllComponents (this w')) k) ≤ 1.
Proof.
  intros HInv Hrec Hnd Hcs.
  assert (CanRecover (this (run GenerateGUID w cs)) = true
          ∧ NoDup (stored_keys (this (run GenerateGUID w cs)))) as [Hrec' Hnd'].
  { revert w HInv Hrec Hnd. induction Hcs as [|c cs Hc Hcs IH]; intros w HInv Hrec Hnd.
    - done.
    - simpl. destruct (exec_unique w c HInv Hrec Hnd Hc) as [Hrec1 Hnd1].
      apply IH; [by apply exec_Inv | done..]. }
  cbv zeta. split_and!; [done..|]. intros k.
  destruct (by_key (AllComponents (this (run GenerateGUID w cs))) k)
    as [|[u c] rest] eqn:Hby; [simpl; lia|].
  assert ((u, c) ∈ by_key (AllComponents (this (run GenerateGUID w cs))) k) as Hin
    by (rewrite Hby; left).
  apply elem_of_by_key in Hin as [Hin Hkey].
  rewrite (by_key_unique _ k u c Hnd' Hin Hkey) in Hby.
  injection Hby as <-. simpl. lia.
Qed.

(** Dropping a key and requesting it again, with recovery on and one entry
    per key: the key comes back under the identity it had, active, with the
    newly requested element, and no entry is added. *)
Theorem drop_then_request_recovers children1 children2 w k u child :
  Inv GenerateGUID w → CanRecover (this w) = true →
  NoDup (stored_keys (this w)) →
  JsMap.get (CurrentRendered (this w)) k = Some u →
  JsMap.get children1 k = None →
  JsMap.get children2 k = Some child →
  let w1 := ProcessChildren GenerateGUID children1 w in
  let w2 := ProcessChildren GenerateGUID children2 w1 in
  IsComponentActive u (this w1) = false
  ∧ JsMap.get (CurrentRendered (this w2)) k = Some u
  ∧ JsMap.get (AllComponents (this w2)) u = Some (mkComponent k child u)
  ∧ IsComponentActive u (this w2) = true
  ∧ by_key (AllComponents (this w2)) k = [(u, mkComponent k child u)].
Proof.
  intros HInv Hrec Hnd Hk Hc1 Hc2 w1 w2.
  destruct (ProcessChildren_dropped GenerateGUID children1 w k HInv Hc1) as [Hk1 Hby1].
  pose proof (ProcessChildren_Inv GenerateGUID children1 w HInv) as HInv1.
  destruct (ProcessChildren_frame GenerateGUID children1 w) as (Hrec1 & _).
  fold w1 in Hk1, Hby1, HInv1, Hrec1. rewrite Hrec in Hrec1.
  destruct (ok_bound _ (proj1 HInv) _ _ Hk) as (c & Hc & Hkey).
  pose proof (ok_uid _ (proj1 HInv) _ _ Hc) as Huid.
  assert (by_key (AllComponents (this w)) k = [(u, c)]) as Hby.
  { apply by_key_unique; [done | by apply get_Some_elem | done]. }
  rewrite Hby in Hby1.
  pose proof (ProcessChildren_placed GenerateGUID children2 w1 k child HInv1 Hk1 Hc2)
    as Hres.
  pose proof (ProcessChildren_Inv GenerateGUID children2 w1 HInv1) as [Hok2 _].
  cbv zeta in Hres. fold w2 in Hres, Hok2. rewrite Hrec1, Hby1 in Hres.
  destruct Hres as (c' & _ & Hin & Hby2 & Hk2).
  apply list_elem_of_singleton in Hin. injection Hin as Hu' ->.
  rewrite Hu' in Hby2, Hk2. unfold rebound in Hby2. simpl in Hby2.
  rewrite decide_True in Hby2 by done.
  unfold rebind in Hby2. rewrite Hkey, Huid in Hby2.
  assert (JsMap.get (AllComponents (this w2)) u = Some (mkComponent k child u)) as Hc2'.
  { apply get_by_key; [apply Hok2|]. simpl. rewrite Hby2. left. }
  split_and!; [|done..| |done].
  - assert (JsMap.get (AllComponents (this w1)) u = Some c) as Hc1'.
    { apply get_by_key; [apply HInv1|]. rewrite Hkey, Hby1. left. }
    eapply IsComponentActive_unbound; [done|]. by rewrite Hkey.
  - apply IsComponentActive_true. by eexists.
Qed.
End recovery_facts.

(** ** The small methods, on any controller *)

Section method_facts.
Implicit Types (w : World) (t : LifetimeController) (k : LogicalKey) (u : GUID).

Lemma IsComponentActive_congr u t t' :
  (∀ c, JsMap.get (AllComponents t) u = Some c →
     ∃ c', JsMap.get (AllComponents t') u = Some c' ∧ Key c' = Key c ∧ UID c' = UID c) →
  (JsMap.get (AllComponents t) u = None → JsMap.get (AllComponents t') u = None) →
  (∀ c, JsMap.get (AllComponents t) u = Some c →
     JsMap.get (CurrentRendered t') (Key c) = JsMap.get (CurrentRendered t) (Key c)) →
  IsComponentActive u t' = IsComponentActive u t.
Proof.
  intros Hsome Hnone Hcr. unfold IsComponentActive, GetComponent, GetRendered.
  destruct (JsMap.get (AllComponents t) u) as [c|] eqn:Hc.
  - destruct (Hsome c eq_refl) as (c' & -> & Hk & Hu). rewrite Hk, Hu, (Hcr c eq_refl).
    destruct (JsMap.get (CurrentRendered t) (Key c)) as [rk|]; [|done].
    destruct (decide (rk ≠ UID c)); [done|]. by rewrite (Hcr c eq_refl).
  - by rewrite Hnone.
Qed.

(** [UpdateComponent] changes nothing but the element of the named entry:
    called with an identity that names no entry it returns the controller as
    it is, and in every case the stored identities, their order, their
    logical keys, the bindings and the activity of every identity stay the
    same. *)
Theorem UpdateComponent_only_rebinds_content u el t :
  (JsMap.get (AllComponents t) u = None → UpdateComponent u el t = t)
  ∧ (∀ c, JsMap.get (AllComponents t) u = Some c →
       JsMap.get (AllComponents (UpdateComponent u el t)) u
       = Some (mkComponent (Key c) el (UID c)))
  ∧ (∀ u', u' ≠ u →
       JsMap.get (AllComponents (UpdateComponent u el t)) u'
       = JsMap.get (AllComponents t) u')
  ∧ JsMap.keys (AllComponents (UpdateComponent u el t)) = JsMap.keys (AllComponents t)
  ∧ CurrentRendered (UpdateComponent u el t) = CurrentRendered t
  ∧ ∀ u', IsComponentActive u' (UpdateComponent u el t) = IsComponentActive u' t.
Proof.
  destruct (UpdateComponent_fields u el t) as (_ & Hcr & _).
  split_and!.
  - unfold UpdateComponent. by intros ->.
  - intros c Hc. by rewrite UpdateComponent_get, decide_True, Hc.
  - intros u' Hne. by rewrite UpdateComponent_get, decide_False.
  - apply UpdateComponent_keys.
  - done.
  - intros u'. apply IsComponentActive_congr.
    + intros c Hc. rewrite UpdateComponent_get. destruct (decide (u = u')) as [->|].
      * rewrite Hc. by eexists.
      * by exists c.
    + intros Hnone. rewrite UpdateComponent_get.
      destruct (decide (u = u')) as [->|]; [by rewrite Hnone | done].
    + intros c _. by rewrite Hcr.
Qed.

Lemma RemoveRenderedByUID_other_activity u u' t :
  u' ≠ u →
  IsComponentActive u' (RemoveRenderedByUID u t) = IsComponentActive u' t.
Proof.
  intros Hne. unfold RemoveRenderedByUID, GetComponent.
  destruct (JsMap.get (AllComponents t) u) as [c|] eqn:Hc; [|done].
  destruct (decide (JsMap.get (CurrentRendered t) (Key c) = Some u)) as [Hb|]; [|done].
  destruct (IsComponentActive u' t) eqn:Hact.
  - apply IsComponentActive_true in Hact as (c' & Hc' & Hu' & Hb').
    apply IsComponentActive_true. exists c'. simpl. split_and!; [done..|].
    rewrite get_delete, decide_False; [done|]. intros Heq. congruence.
  - apply not_true_is_false. rewrite IsComponentActive_true. simpl.
    intros (c' & Hc' & Hu' & Hb'). rewrite get_delete in Hb'.
    destruct (decide (Key c = Key c')); [done|].
    apply not_true_iff_false in Hact. apply Hact.
    apply IsComponentActive_true. by exists c'.
Qed.

(** [RemoveRenderedByUID] detaches: afterwards the named identity is
    inactive, whatever it was before; every entry is still stored, and the
    activity of every other identity is unchanged. *)
Theorem RemoveRenderedByUID_detaches_only u t :
  IsComponentActive u (RemoveRenderedByUID u t) = false
  ∧ AllComponents (RemoveRenderedByUID u t) = AllComponents t
  ∧ ∀ u', u' ≠ u →
      IsComponentActive u' (RemoveRenderedByUID u t) = IsComponentActive u' t.
Proof.
  split_and!; [|apply RemoveRenderedByUID_entries|].
  - apply not_true_is_false. rewrite IsComponentActive_true.
    rewrite RemoveRenderedByUID_entries. intros (c & Hc & Hu & Hb).
    unfold RemoveRenderedByUID, GetComponent in Hb. rewrite Hc in Hb.
    destruct (decide (JsMap.get (CurrentRendered t) (Key c) = Some u)) as [|Hn].
    + simpl in Hb. by rewrite get_delete, decide_True in Hb.
    + done.
  - intros u' Hne. by apply RemoveRenderedByUID_other_activity.
Qed.

(** [UnlistComponent] concerns one identity only: every other entry stays
    stored as it is and keeps its activity, whether or not the call removes
    anything. *)
Theorem UnlistComponent_leaves_others u u' w :
  u' ≠ u →
  JsMap.get (AllComponents (this (UnlistComponent u w))) u'
  = JsMap.get (AllComponents (this w)) u'
  ∧ IsComponentActive u' (this (UnlistComponent u w)) = IsComponentActive u' (this w).
Proof.
  intros Hne. unfold UnlistComponent.
  destruct (IsComponentActive u (this w)) eqn:Hact; [done|]. simpl.
  rewrite RemoveRenderedByUID_entries.
  split; [by rewrite get_delete, decide_False|].
  rewrite <-(RemoveRenderedByUID_other_activity u u' (this w)) by done.
  apply IsComponentActive_congr; simpl.
  - intros c Hc. rewrite RemoveRenderedByUID_entries in Hc.
    exists c. by rewrite get_delete, decide_False.
  - rewrite RemoveRenderedByUID_entries. intros Hnone.
    by rewrite get_delete, decide_False.
  - done.
Qed.

(** Calling [UnlistComponent] twice on the same identity leaves the
    controller as one call does; the second call removes nothing, yet it
    invokes the notifier again unless the identity is active. *)
Theorem UnlistComponent_repeated u w :
  let once := UnlistComponent u w in
  let twice := UnlistComponent u once in
  this twice = this once
  ∧ updater_calls twice
    = (if IsComponentActive u (this w) then updater_calls w
       else updater_calls w ++ [Updater (this w); Updater (this w)]).
Proof.
  cbv zeta. destruct (IsComponentActive u (this w)) eqn:Hact.
  - rewrite !UnlistComponent_active; by rewrite ?UnlistComponent_active.
  - destruct (UnlistComponent_inactive u w Hact) as (Hac & Hcalls & _).
    assert (JsMap.get (AllComponents (this (UnlistComponent u w))) u = None) as Habs.
    { by rewrite Hac, get_delete, decide_True. }
    split; [by apply UnlistComponent_absent|].
    destruct (UnlistComponent_inactive u (UnlistComponent u w)) as (_ & -> & _).
    { by apply IsComponentActive_absent. }
    rewrite Hcalls, <-app_assoc. simpl. do 3 f_equal.
    unfold UnlistComponent. rewrite Hact. simpl.
    unfold RemoveRenderedByUID. destruct (GetComponent u (this w)); [|done].
    by destruct (decide _).
Qed.
End method_facts.

(** * Rendering and the props heap *)

Section render_heap.
Context {rt : Runtime}.
Implicit Types (w : World) (u : GUID) (self : ControllerRef)
  (h : list PropsType) (acc : list (GUID * Fragment)).

Lemma heap_extends_refl n h : heap_extends n h h.
Proof. split_and!; [done| |done]. intros i p Hp. by exists p. Qed.

Lemma heap_extends_trans n h1 h2 h3 :
  heap_extends n h1 h2 → heap_extends n h2 h3 → heap_extends n h1 h3.
Proof.
  intros (Hl1 & Hf1 & Hk1) (Hl2 & Hf2 & Hk2). split_and!; [lia| |].
  - intros i p Hp. destruct (Hf1 i p Hp) as (p' & Hp' & Heq).
    destruct (Hf2 i p' Hp') as (p'' & Hp'' & Heq'). exists p''. split; [done|congruence].
  - intros i p Hi Hp. by apply Hk2, Hk1.
Qed.

Lemma heap_extends_snoc n h p : heap_extends n h (h ++ [p]).
Proof.
  split_and!.
  - rewrite length_app. simpl. lia.
  - intros i q Hq. exists q. split; [by apply lookup_app_l_Some | done].
  - intros i q _ Hq. by apply lookup_app_l_Some.
Qed.

Lemma heap_extends_alter n h l (f : PropsType → PropsType) :
  (∀ p, fields (f p) = fields p) → l < n ∨ length h ≤ l →
  heap_extends n h (alter f l h).
Proof.
  intros Hf Hl. split_and!.
  - by rewrite length_alter.
  - intros i p Hp. destruct (decide (l = i)) as [->|Hne].
    + exists (f p). rewrite list_lookup_alter_eq, Hp. by split.
    + exists p. by rewrite list_lookup_alter_ne.
  - intros i p Hi Hp. rewrite list_lookup_alter_ne; [done|].
    intros ->. apply lookup_lt_Some in Hp. lia.
Qed.

Lemma write_LifetimeInternal_fields c p : fields (write_LifetimeInternal c p) = fields p.
Proof. done. Qed.

Lemma write_UIDInternal_fields u p : fields (write_UIDInternal u p) = fields p.
Proof. done. Qed.

Lemma heap_extends_alter_new n h h' l (f : PropsType → PropsType) :
  heap_extends n h h' → length h ≤ l → heap_extends n h (alter f l h').
Proof.
  intros (Hlen & Hf & Hk) Hl. split_and!.
  - by rewrite length_alter.
  - intros i p Hp. rewrite list_lookup_alter_ne; [by apply Hf|].
    intros ->. apply lookup_lt_Some in Hp. lia.
  - intros i p Hi Hp. rewrite list_lookup_alter_ne; [by apply Hk|].
    intros ->. apply lookup_lt_Some in Hp. lia.
Qed.

Lemma render_component_heap self acc h u c n :
  n ≤ length h →
  (∀ l, props (Element c) = PropsAt l → l < n ∨ length h ≤ l) →
  heap_extends n h (render_component self (acc, h) (u, c)).2.
Proof.
  intros Hn Hl. simpl. destruct (props (Element c)) as [| |l] eqn:Hp; simpl.
  - apply heap_extends_refl.
  - eapply heap_extends_trans; [|apply heap_extends_snoc].
    apply heap_extends_alter_new; [|done].
    apply heap_extends_alter_new; [|done].
    apply heap_extends_snoc.
  - eapply heap_extends_trans; [|apply heap_extends_snoc].
    eapply heap_extends_trans.
    + apply heap_extends_alter; [apply write_LifetimeInternal_fields | by apply Hl].
    + apply heap_extends_alter; [apply write_UIDInternal_fields|].
      rewrite length_alter. by apply Hl.
Qed.

Lemma unreserved_lookup (config : gmap string PropVal) name :
  unreserved config !! name = if reserved name then None else config !! name.
Proof.
  unfold unreserved. destruct (reserved name) eqn:Hres.
  - apply map_lookup_filter_None. right. intros x _. simpl. congruence.
  - destruct (config !! name) as [x|] eqn:Hx.
    + by apply map_lookup_filter_Some.
    + apply map_lookup_filter_None. by left.
Qed.

Lemma unreserved_id (config : gmap string PropVal) :
  (∀ name, reserved name = true → config !! name = None) → unreserved config = config.
Proof.
  intros Hno. apply map_eq. intros name. rewrite unreserved_lookup.
  destruct (reserved name) eqn:Hres; [|done]. symmetry. by apply Hno.
Qed.

Lemma render_component_at self acc h u c l p :
  props (Element c) = PropsAt l → h !! l = Some p → JsMap.get acc u = None →
  render_component self (acc, h) (u, c)
  = (acc ++ [(u, [(Key c, mkElement (type (Element c)) (PropsAt (length h)))])],
     alter (write_UIDInternal u) l (alter (write_LifetimeInternal self) l h)
       ++ [mkProps (unreserved (fields p)) (Some self) (Some u)]).
Proof.
  intros Hp Hl Hfresh. simpl. rewrite Hp. simpl.
  unfold Loc in *. rewrite !length_alter, !list_lookup_alter_eq, Hl. simpl.
  by rewrite set_absent.
Qed.

Lemma render_loop_token self n (entries : list (GUID * ComponentState)) acc h :
  n ≤ length h →
  NoDup (JsMap.keys acc ++ JsMap.keys entries) →
  (∀ u c l, (u, c) ∈ entries → props (Element c) = PropsAt l → l < n) →
  let r := foldl (render_component self) (acc, h) entries in
  heap_extends n h r.2
  ∧ ∀ u c l p, (u, c) ∈ entries → props (Element c) = PropsAt l → h !! l = Some p →
      ∃ l' p', n ≤ l'
        ∧ JsMap.get r.1 u = Some [(Key c, mkElement (type (Element c)) (PropsAt l'))]
        ∧ r.2 !! l' = Some p'
        ∧ fields p' = unreserved (fields p)
        ∧ LifetimeInternal p' = Some self
        ∧ UIDInternal p' = Some u.
Proof.
  unfold JsMap.keys.
  revert acc h. induction entries as [|[u0 c0] entries IH]; intros acc h Hn Hnd Hcl.
  - simpl. split; [apply heap_extends_refl|]. intros u c l p Hin.
    by apply elem_of_nil in Hin.
  - cbn [foldl]. rewrite fmap_cons in Hnd. simpl in Hnd.
    pose proof Hnd as Hnd0.
    apply NoDup_app in Hnd as (Hacc & Hdisj & Hl).
    apply NoDup_cons in Hl as [Hu0 Hl].
    assert (JsMap.get acc u0 = None) as Hfresh.
    { apply get_None. intros Hin. apply (Hdisj _ Hin). left. }
    destruct (render_component_item self acc h (u0, c0) Hfresh)
      as ([pk frag] & Hstep & Hpk & _). simpl in Hpk. subst pk.
    pose proof (render_component_heap self acc h u0 c0 n Hn) as Hext.
    destruct (render_component self (acc, h) (u0, c0)) as [acc1 h1] eqn:E.
    simpl in Hstep, Hext. subst acc1.
    assert (heap_extends n h h1) as Hext1.
    { apply Hext. intros l Hp. left. apply (Hcl u0 c0); [left | done]. }
    assert (NoDup ((acc ++ [(u0, frag)]).*1 ++ entries.*1)) as Hnd1.
    { rewrite fmap_app. simpl. by rewrite <-app_assoc. }
    destruct (IH (acc ++ [(u0, frag)]) h1) as [Hext2 Htok].
    { destruct Hext1 as (? & _). lia. }
    { done. }
    { intros u c l Hin. apply (Hcl u c l). by right. }
    destruct (render_loop_items self entries (acc ++ [(u0, frag)]) h1 Hnd1)
      as (items & Hitems & _).
    cbv zeta in Hext2, Htok |- *. split; [by eapply heap_extends_trans|].
    intros u c l p Hin Hp Hlp. apply elem_of_cons in Hin as [Heq|Hin].
    + injection Heq as -> ->.
      rewrite (render_component_at self acc h u0 c0 l p Hp Hlp Hfresh) in E.
      injection E as Hfrag Hh1.
      apply app_inj_tail in Hfrag as [_ Hfrag]. injection Hfrag as <-.
      exists (length h), (mkProps (unreserved (fields p)) (Some self) (Some u0)).
      split_and!; [done| | |done..].
      * rewrite Hitems, <-app_assoc, get_app, Hfresh. simpl. by rewrite decide_True.
      * destruct Hext2 as (_ & _ & Hkeep). apply Hkeep; [done|]. subst h1.
        rewrite lookup_app_r by (rewrite !length_alter; lia).
        rewrite !length_alter. by rewrite Nat.sub_diag.
    + destruct Hext1 as (_ & Hf1 & _). destruct (Hf1 l p Hlp) as (p1 & Hp1 & Hfields).
      destruct (Htok u c l p1 Hin Hp Hp1) as (l' & p' & ? & ? & ? & Hf' & ? & ?).
      exists l', p'. split_and!; [done..| |done|done]. congruence.
Qed.

(** The element handed to the host carries the token: for an entry whose
    element has a props table, the rendered element refers to a new table
    that holds the caller's ordinary fields except the reserved ones, [key]
    and [ref] among them, together with this registry and the entry's
    identity; a hook reading that table gets the registry's answer about
    that identity. *)
Theorem rendered_props_carry_token
    (store : ControllerRef → LifetimeController) self w u c l p :
  JsMap.wf (AllComponents (this w)) → heap_closed w →
  JsMap.get (AllComponents (this w)) u = Some c →
  props (Element c) = PropsAt l →
  heap w !! l = Some p →
  let out := RenderComponents self w in
  ∃ l' p', length (heap w) ≤ l'
    ∧ JsMap.get out.1 u = Some [(Key c, mkElement (type (Element c)) (PropsAt l'))]
    ∧ heap out.2 !! l' = Some p'
    ∧ (∀ name, fields p' !! name = if reserved name then None else fields p !! name)
    ∧ fields p' !! "key" = None
    ∧ fields p' !! "ref" = None
    ∧ useIntrinsicData p' = Some (mkIntrinsic (Some u) (Some self))
    ∧ useComponentIsActive store p' = Ok (IsComponentActive u (store self)).
Proof.
  intros Hwf Hclosed Hc Hp Hlp.
  destruct (render_loop_token self (length (heap w)) (walk (AllComponents (this w)))
              [] (heap w)) as [_ Htok].
  { done. }
  { by apply wf_walk. }
  { intros u0 c0 l0 Hin%walk_elem Hp0. by apply (Hclosed u0 c0 l0). }
  destruct (Htok u c l p) as (l' & p' & Hl' & Hget & Hheap & Hf & HL & HU);
    [by apply elem_walk, get_Some_elem|done..|].
  cbv zeta. unfold RenderComponents.
  destruct (foldl (render_component self) ([], heap w) (walk (AllComponents (this w))))
    as [rendered h'].
  simpl in *. exists l', p'.
  assert (useIntrinsicData p' = Some (mkIntrinsic (Some u) (Some self))) as Hdata.
  { unfold useIntrinsicData. by rewrite HL, HU. }
  split_and!; [done..| | | |done|].
  - intros name. rewrite Hf. apply unreserved_lookup.
  - by rewrite Hf, unreserved_lookup, reserved_key.
  - by rewrite Hf, unreserved_lookup, reserved_ref.
  - by apply useComponentIsActive_with_token.
Qed.

Lemma render_loop_fields self (entries : list (GUID * ComponentState)) acc h :
  let r := foldl (render_component self) (acc, h) entries in
  length h ≤ length r.2
  ∧ ∀ i p, h !! i = Some p → ∃ p', r.2 !! i = Some p' ∧ fields p' = fields p.
Proof.
  revert acc h. induction entries as [|[u c] entries IH]; intros acc h.
  - simpl. split; [done|]. intros i p Hp. by exists p.
  - cbn [foldl].
    destruct (render_component_heap self acc h u c (length h)) as (Hlen & Hf & _);
      [done|intros l _; lia|].
    destruct (render_component self (acc, h) (u, c)) as [acc1 h1].
    destruct (IH acc1 h1) as [Hlen' Hf']. cbv zeta in Hlen', Hf' |- *. simpl in *.
    split; [lia|]. intros i p Hp.
    destruct (Hf i p Hp) as (p1 & Hp1 & Heq1).
    destruct (Hf' i p1 Hp1) as (p2 & Hp2 & Heq2). exists p2. split; [done|congruence].
Qed.

Lemma render_loop_pure self (entries : list (GUID * ComponentState)) acc h :
  (∀ u c, (u, c) ∈ entries → props (Element c) = PropsMissing) →
  (foldl (render_component self) (acc, h) entries).2 = h.
Proof.
  revert acc. induction entries as [|[u c] entries IH]; intros acc Hall; [done|].
  cbn [foldl]. simpl. rewrite (Hall u c) by left. apply IH.
  intros u' c' Hin. apply (Hall u' c'). by right.
Qed.

(** What a render pass does to the heap, in any state: it leaves the
    controller as it is, removes no table and changes no ordinary field of
    any table, so the only writes into existing tables are the two private
    slots; and when no stored element has a props member the heap is left
    exactly as it was. *)
Theorem RenderComponents_heap_frame self w :
  let out := RenderComponents self w in
  this out.2 = this w
  ∧ length (heap w) ≤ length (heap out.2)
  ∧ (∀ i p, heap w !! i = Some p →
       ∃ p', heap out.2 !! i = Some p' ∧ fields p' = fields p)
  ∧ ((∀ u c, (u, c) ∈ AllComponents (this w) → props (Element c) = PropsMissing) →
     heap out.2 = heap w).
Proof.
  cbv zeta.
  destruct (render_loop_fields self (walk (AllComponents (this w))) [] (heap w))
    as [Hlen Hf].
  pose proof (render_loop_pure self (walk (AllComponents (this w))) [] (heap w)) as Hpure.
  unfold RenderComponents.
  destruct (foldl (render_component self) ([], heap w) (walk (AllComponents (this w))))
    as [rendered h'].
  simpl in *. split_and!; [done..|].
  intros Hall. apply Hpure. intros u c Hin%walk_elem. by apply (Hall u c).
Qed.
End render_heap.

(** * [SanitizeProps] and the hooks *)

Section sanitize_and_hooks.
Context {rt : Runtime}.
Context (store : ControllerRef → LifetimeController).
Implicit Types (props p : PropsType) (h : list PropsType) (u : GUID).

(** [SanitizeProps] on a table returns a new table with every ordinary
    field and without the token, leaving the given table and every other
    table as they were; a hook reading the result finds no token and stops
    at the destructuring.  A value that is not a table comes back as it is
    and nothing is allocated. *)
Theorem SanitizeProps_strips_token h l p :
  h !! l = Some p →
  let out := SanitizeProps (Some l) h in
  out.1 = Some (length h)
  ∧ out.2 !! length h = Some (mkProps (fields p) None None)
  ∧ length out.2 = S (length h)
  ∧ (∀ i q, h !! i = Some q → out.2 !! i = Some q)
  ∧ useIntrinsicData (mkProps (fields p) None None) = None
  ∧ (∃ e, useComponentIsActive store (mkProps (fields p) None None) = Raise (TypeError e))
  ∧ SanitizeProps None h = (None, h).
Proof.
  intros Hl. cbv zeta. unfold SanitizeProps. unfold Loc in *. rewrite Hl. simpl.
  split_and!; [done| | | |done| |done].
  - by rewrite list_lookup_middle.
  - rewrite length_app. simpl. lia.
  - intros i q Hq. by apply lookup_app_l_Some.
  - by eexists.
Qed.

(** Round trip through a render pass: if the caller's table carried no
    token, sanitizing the props of the rendered element gives a new table
    that holds what the caller's table held before the pass, less the
    reserved entries; it is equal to the caller's table when that held no
    reserved entry. *)
Theorem SanitizeProps_undoes_injection self w u c l p :
  JsMap.wf (AllComponents (this w)) → heap_closed w →
  JsMap.get (AllComponents (this w)) u = Some c →
  props (Element c) = PropsAt l →
  heap w !! l = Some p →
  LifetimeInternal p = None → UIDInternal p = None →
  let out := RenderComponents self w in
  ∃ l', JsMap.get out.1 u = Some [(Key c, mkElement (type (Element c)) (PropsAt l'))]
    ∧ let clean := SanitizeProps (Some l') (heap out.2) in
      ∃ l'', clean.1 = Some l'' ∧ l'' ≠ l'
        ∧ clean.2 !! l'' = Some (mkProps (unreserved (fields p)) None None)
        ∧ ((∀ name, reserved name = true → fields p !! name = None) →
           clean.2 !! l'' = Some p).
Proof.
  intros Hwf Hclosed Hc Hp Hlp HL HU.
  destruct (render_loop_token self (length (heap w)) (walk (AllComponents (this w)))
              [] (heap w)) as [_ Htok].
  { done. }
  { by apply wf_walk. }
  { intros u0 c0 l0 Hin%walk_elem Hp0. by apply (Hclosed u0 c0 l0). }
  destruct (Htok u c l p) as (l' & p' & Hl' & Hget & Hheap & Hf & _);
    [by apply elem_walk, get_Some_elem|done..|].
  cbv zeta. unfold RenderComponents.
  destruct (foldl (render_component self) ([], heap w) (walk (AllComponents (this w))))
    as [rendered h'].
  simpl in *. exists l'. split; [done|]. exists (length h').
  unfold Loc in *. rewrite Hheap. simpl.
  assert ((h' ++ [mkProps (fields p') None None]) !! length h'
          = Some (mkProps (unreserved (fields p)) None None)) as Hclean.
  { rewrite list_lookup_middle by done. by rewrite Hf. }
  split_and!; [done| |done|].
  - apply lookup_lt_Some in Hheap. lia.
  - intros Hno. rewrite Hclean, unreserved_id by done.
    destruct p. simpl in *. by subst.
Qed.

Lemma renders_after_first b (ps : list PropsType) :
  renders_useIsLifetimeComponent (Some b) ps = replicate (length ps) b.
Proof. induction ps as [|p ps IH]; simpl; [done|]. by rewrite IH. Qed.

(** [useIsLifetimeComponent] answers in the first render and never changes
    its answer: in every later render it returns what it returned first,
    whatever props it is given then.  The first answer is [true] exactly
    when both token fields are present. *)
Theorem useIsLifetimeComponent_fixed_at_first_render props (ps : list PropsType) :
  let first := (useIsLifetimeComponent None props).1 in
  renders_useIsLifetimeComponent None (props :: ps) = replicate (S (length ps)) first
  ∧ (first = true ↔ ∃ u c, UIDInternal props = Some u ∧ LifetimeInternal props = Some c).
Proof.
  cbv zeta. simpl. rewrite renders_after_first. split; [done|].
  rewrite bool_decide_eq_true. unfold useIntrinsicData.
  destruct (UIDInternal props) as [u|], (LifetimeInternal props) as [c|]; simpl.
  - split; [intros _; by exists u, c | done].
  - split; [done | by intros (? & ? & _ & ?)].
  - split; [done | by intros (? & ? & ? & _)].
  - split; [done | by intros (? & ? & ? & _)].
Qed.

(** No hook ever throws its invalid-usage message: a call either stops at
    the destructuring with a type error (the token is missing), or returns;
    with the token present all four hooks proceed with the registry's answer
    about the identity in the token. *)
Theorem hooks_never_report_invalid_usage props :
  (∀ msg, useComponentIsActive store props ≠ Raise (Thrown msg)
          ∧ useComponentLifetime store props ≠ Raise (Thrown msg)
          ∧ useDeferLifetime store props ≠ Raise (Thrown msg)
          ∧ useLifetimeAsync store props ≠ Raise (Thrown msg))
  ∧ (∀ u c, UIDInternal props = Some u → LifetimeInternal props = Some c →
       useComponentIsActive store props = Ok (IsComponentActive u (store c))
       ∧ useComponentLifetime store props = Ok (IsComponentActive u (store c))
       ∧ useDeferLifetime store props = Ok (IsComponentActive u (store c))
       ∧ useLifetimeAsync store props = Ok (IsComponentActive u (store c))).
Proof.
  unfold useDeferLifetime, useLifetimeAsync, useComponentIsActive, useComponentLifetime,
    useIntrinsicData.
  split.
  - intros msg.
    destruct (UIDInternal props) as [u|], (LifetimeInternal props) as [c|]; simpl; done.
  - intros u c -> ->. simpl. done.
Qed.

(** The deferred-frames callback, ticking on a stored, inactive entry with
    nothing else happening in between: the entry survives every tick before
    tick [max 1 frames] and is removed by that tick; from then on each
    further tick removes nothing and invokes the notifier once more. *)
Theorem defer_heartbeat_removes_on_time (frames : Z) u w c (n : nat) :
  JsMap.get (AllComponents (this w)) u = Some c →
  IsComponentActive u (this w) = false →
  let st := Nat.iter n (defer_heartbeat frames u) (0%Z, w) in
  st.1 = Z.of_nat n
  ∧ (is_Some (JsMap.get (AllComponents (this st.2)) u) ↔ (Z.of_nat n < Z.max 1 frames)%Z)
  ∧ ((Z.of_nat n < Z.max 1 frames)%Z → st.2 = w)
  ∧ length (updater_calls st.2)
    = length (updater_calls w) + Z.to_nat (Z.of_nat n - Z.max 1 frames + 1).
Proof.
  intros Hc Hact. cbv zeta.
  set (m := Z.max 1 frames).
  assert (let st := Nat.iter n (defer_heartbeat frames u) (0%Z, w) in
          st.1 = Z.of_nat n
          ∧ (((Z.of_nat n < m)%Z ∧ st.2 = w)
             ∨ ((m ≤ Z.of_nat n)%Z
                ∧ JsMap.get (AllComponents (this st.2)) u = None
                ∧ length (updater_calls st.2)
                  = length (updater_calls w) + Z.to_nat (Z.of_nat n - m + 1)))) as H.
  { induction n as [|n IH].
    - simpl. split; [done|]. left. split; [lia | done].
    - rewrite Nat.iter_succ. cbv zeta in IH |- *.
      destruct (Nat.iter n (defer_heartbeat frames u) (0%Z, w)) as [d w0].
      simpl in IH. destruct IH as [-> IH]. unfold defer_heartbeat. simpl.
      destruct (decide (Z.of_nat n + 1 < frames)%Z) as [Hlt|Hge]; simpl.
      + split; [lia|]. left. destruct IH as [[_ ->]|[Hm _]]; [|lia].
        split; [lia | done].
      + split; [lia|]. right. split; [lia|].
        destruct IH as [[Hn ->]|(Hm & Habs & Hlen)].
        * destruct (UnlistComponent_inactive u w Hact) as (-> & -> & _).
          split; [by rewrite get_delete, decide_True|].
          rewrite length_app. simpl. lia.
        * destruct (UnlistComponent_inactive u w0) as (-> & -> & _).
          { by apply IsComponentActive_absent. }
          split; [by rewrite get_delete, decide_True|].
          rewrite length_app, Hlen. simpl. lia. }
  cbv zeta in H. destruct H as [H1 H2]. split_and!; [done| | |].
  - destruct H2 as [[Hn ->]|(Hm & Habs & _)].
    + split; [done | intros _; by rewrite Hc].
    + rewrite Habs. split; [by intros [? ?] | lia].
  - intros Hn. destruct H2 as [[_ ->]|(Hm & _)]; [done | lia].
  - destruct H2 as [[Hn ->]|(_ & _ & Hlen)]; [lia | done].
Qed.
End sanitize_and_hooks.

(** * The host adapter *)

Section children_map.
Implicit Types (node : ReactNode) (entries : list (LogicalKey * ReactNode))
  (a : list (LogicalKey * ReactElement)) (k : LogicalKey).

Lemma ReactNode_nested_ind (P : ReactNode → Prop) :
  P NodeFalse →
  (∀ key element, P (NodeElement key element)) →
  (∀ entries, Forall (λ kn, P kn.2) entries → P (NodeTable entries)) →
  ∀ node, P node.
Proof.
  intros HF HE HT. fix IH 1. intros [|key element|entries].
  - exact HF.
  - apply HE.
  - apply HT. induction entries as [|[k0 n0] entries IHentries].
    + constructor.
    + constructor; [apply IH | apply IHentries].
Qed.

Lemma foldl_flat_map {A B C} (f : A → C → A) (g : B → list C) (l : list B) (x : A) :
  foldl f x (flat_map g l) = foldl (λ y b, foldl f y (g b)) x l.
Proof.
  revert x. induction l as [|b l IH]; intros x; simpl; [done|].
  by rewrite foldl_app, IH.
Qed.

Lemma collect_child_elements node a k :
  collect_child a k node
  = foldl (λ m ke, JsMap.set m ke.1 ke.2) a (node_elements k node).
Proof.
  revert a k. induction node as [|[own|] el|entries IH] using ReactNode_nested_ind;
    intros a k; simpl; [done..|].
  rewrite foldl_flat_map. revert a.
  induction IH as [|[k0 n0] entries Hn0 _ IHentries]; intros a; simpl; [done|].
  rewrite Hn0. apply IHentries.
Qed.

Lemma CreateChildrenMap_elements node append :
  CreateChildrenMap node append
  = foldl (λ m ke, JsMap.set m ke.1 ke.2) (default [] append)
      (node_elements (KNum 1) node).
Proof.
  destruct node as [|key el|entries].
  - done.
  - unfold CreateChildrenMap. cbn [foldl fst snd]. apply collect_child_elements.
  - apply (collect_child_elements (NodeTable entries)).
Qed.

Lemma foldl_set_wf a (l : list (LogicalKey * ReactElement)) :
  JsMap.wf a → JsMap.wf (foldl (λ m ke, JsMap.set m ke.1 ke.2) a l).
Proof.
  revert a. induction l as [|[k e] l IH]; intros a Hwf; simpl; [done|].
  by apply IH, wf_set.
Qed.

Lemma foldl_set_get a (l : list (LogicalKey * ReactElement)) k :
  JsMap.get (foldl (λ m ke, JsMap.set m ke.1 ke.2) a l) k
  = match JsMap.get (reverse l) k with
    | Some e => Some e
    | None => JsMap.get a k
    end.
Proof.
  revert a. induction l as [|[k0 e0] l IH]; intros a; simpl; [done|].
  rewrite IH, reverse_cons, get_app. simpl.
  destruct (JsMap.get (reverse l) k); [done|].
  rewrite get_set. by destruct (decide (k0 = k)).
Qed.

(** What [CreateChildrenMap] returns.  The result is a map; a key looks up
    the last element, in walking order, that is stored under it — an
    element is stored under its own [key] when it has one, else under the key
    of its table entry, and a bare element under 1 — and otherwise what
    [append] held.  Nested tables are walked in place and [false] entries
    contribute nothing. *)
Theorem CreateChildrenMap_lookup node append k :
  JsMap.wf (default [] append) →
  JsMap.wf (CreateChildrenMap node append)
  ∧ JsMap.get (CreateChildrenMap node append) k
    = match JsMap.get (reverse (node_elements (KNum 1) node)) k with
      | Some el => Some el
      | None => JsMap.get (default [] append) k
      end.
Proof.
  intros Hwf. rewrite CreateChildrenMap_elements.
  split; [by apply foldl_set_wf | apply foldl_set_get].
Qed.

(** Flattening laws of [CreateChildrenMap]: a nested table is spliced in
    place of its entry (its own key plays no part), a [false] entry can be
    dropped, and walking a table in two parts, the second with the result of
    the first as [append], gives the same map. *)
Theorem CreateChildrenMap_flattens entries1 entries2 inner k append :
  CreateChildrenMap (NodeTable (entries1 ++ (k, NodeTable inner) :: entries2)) append
  = CreateChildrenMap (NodeTable (entries1 ++ inner ++ entries2)) append
  ∧ CreateChildrenMap (NodeTable (entries1 ++ (k, NodeFalse) :: entries2)) append
    = CreateChildrenMap (NodeTable (entries1 ++ entries2)) append
  ∧ CreateChildrenMap (NodeTable (entries1 ++ entries2)) append
    = CreateChildrenMap (NodeTable entries2)
        (Some (CreateChildrenMap (NodeTable entries1) append)).
Proof.
  unfold CreateChildrenMap. simpl.
  split_and!; by rewrite ?foldl_app; simpl; rewrite ?foldl_app.
Qed.
End children_map.

Section lifetime_component.
Context {rt : Runtime} (GenerateGUID : nat → GUID) `{!Inj (=) (=) GenerateGUID}.
Implicit Types (w : World) (k : LogicalKey) (u : GUID) (self : ControllerRef).

(** One render of [LifetimeComponent]: afterwards the invariants hold,
    the recovery flag is the [CanRecover] prop (off when the prop is absent),
    the output has one item per stored entry, and the bound keys are exactly
    the keys of the flattened children; each of them is bound to an active
    identity whose output item holds an element of the requested component
    type under that key. *)
Theorem LifetimeComponent_renders_requested self CanRecoverProp node w :
  Inv GenerateGUID w →
  let requested := CreateChildrenMap node None in
  let out := LifetimeComponent GenerateGUID self CanRecoverProp node w in
  Inv GenerateGUID out.2
  ∧ CanRecover (this out.2) = default false CanRecoverProp
  ∧ JsMap.keys out.1 = JsMap.keys (walk (AllComponents (this out.2)))
  ∧ JsMap.keys out.1 ≡ₚ JsMap.keys (AllComponents (this out.2))
  ∧ (∀ k, JsMap.get requested k = None → JsMap.get (CurrentRendered (this out.2)) k = None)
  ∧ (∀ k el, JsMap.get requested k = Some el →
       ∃ u rendered,
         JsMap.get (CurrentRendered (this out.2)) k = Some u
         ∧ IsComponentActive u (this out.2) = true
         ∧ JsMap.get (AllComponents (this out.2)) u = Some (mkComponent k el u)
         ∧ JsMap.get out.1 u = Some [(k, rendered)]
         ∧ type rendered = type el).
Proof.
  intros HInv requested out. unfold LifetimeComponent in out. fold requested in out.
  set (w1 := with_this (set_CanRecover (default false CanRecoverProp)) w) in *.
  set (w2 := ProcessChildren GenerateGUID requested w1) in *.
  assert (Inv GenerateGUID w1) as HInv1
    by apply (exec_Inv GenerateGUID w (CallSetCanRecover _) HInv).
  pose proof (ProcessChildren_Inv GenerateGUID requested w1 HInv1) as HInv2.
  fold w2 in HInv2.
  destruct (RenderComponents_frame self w2) as (Hthis & Hn & _).
  fold out in Hthis, Hn.
  destruct (ProcessChildren_frame GenerateGUID requested w1) as (Hrec & _).
  fold w2 in Hrec.
  split_and!.
  - apply (exec_Inv GenerateGUID w2 (CallRenderComponents self) HInv2).
  - by rewrite Hthis, Hrec.
  - rewrite Hthis. apply (physical_keys_entries self w2), HInv2.
  - rewrite Hthis. change (JsMap.keys out.1) with (physical_keys self w2).
    rewrite physical_keys_entries by apply HInv2. apply keys_walk.
  - intros k Hk. rewrite Hthis.
    pose proof (ProcessChildren_outcome GenerateGUID requested w1 k HInv1) as H.
    cbv zeta in H. by rewrite Hk in H.
  - intros k el Hk. rewrite Hthis.
    pose proof (ProcessChildren_outcome GenerateGUID requested w1 k HInv1) as H.
    cbv zeta in H. rewrite Hk in H. fold w2 in H.
    destruct H as (u & Hb & Hc & Hact).
    destruct (RenderComponents_get self w2 u _ (ok_entries_wf _ (proj1 HInv2)) Hc)
      as (rendered & Hr & Hty).
    exists u, rendered. by split_and!.
Qed.
End lifetime_component.

Section lookup_by_key.
Context {rt : Runtime}.
Implicit Types (t : LifetimeController) (k : LogicalKey).

(** [GetRenderedComponentByKey] searches every stored entry, bound or
    not: it returns nothing exactly when no stored entry has the key, and
    otherwise the first entry that has it in the order in which the loop
    meets the entries. *)
Theorem GetRenderedComponentByKey_finds_first k t :
  match GetRenderedComponentByKey k t with
  | None => ∀ u c, (u, c) ∈ AllComponents t → Key c ≠ k
  | Some c =>
      ∃ pre u post, walk (AllComponents t) = pre ++ (u, c) :: post ∧ Key c = k
        ∧ ∀ u' c', (u', c') ∈ pre → Key c' ≠ k
  end.
Proof.
  unfold GetRenderedComponentByKey.
  pose proof (find_by_key_first (walk (AllComponents t)) k) as H.
  destruct (find_by_key (walk (AllComponents t)) k) as [c|]; [done|].
  intros u c Hin. apply (H u c). by apply elem_walk.
Qed.
End lookup_by_key.

(** ** The further statements at the scenario *)

Section stored_order_further.
#[local] Existing Instance stored_order.

Lemma recovering_Inv cs :
  Inv serial_GUID (run serial_GUID new_World cs).
Proof. apply (run_Inv serial_GUID), (new_World_Inv serial_GUID). Qed.

Lemma titled_window_closed : heap_closed titled_window.
Proof.
  intros u c l Hin Hp. vm_compute in Hin. apply list_elem_of_singleton in Hin.
  injection Hin as -> ->. injection Hp as <-. vm_compute. lia.
Qed.

Lemma titled_window_wf : JsMap.wf (AllComponents (this titled_window)).
Proof. refine (bool_decide_unpack _ _). vm_compute. exact I. Qed.

Lemma ProcessChildren_binds_exactly_requested_witness :
  let w' := ProcessChildren serial_GUID [(key_A, window "a2")] two_windows in
  ∃ child, JsMap.get [(key_A, window "a2")] key_A = Some child
    ∧ JsMap.get (AllComponents (this w')) (serial_GUID 0)
      = Some (mkComponent key_A child (serial_GUID 0))
    ∧ IsComponentActive (serial_GUID 0) (this w') = true.
Proof.
  assert (JsMap.get
            (CurrentRendered
               (this (ProcessChildren serial_GUID [(key_A, window "a2")] two_windows)))
            key_A = Some (serial_GUID 0)) as Hb by (vm_compute; reflexivity).
  exact (proj2 (ProcessChildren_binds_exactly_requested serial_GUID
                  [(key_A, window "a2")] two_windows two_windows_Inv)
           key_A (serial_GUID 0) Hb).
Defined.

Lemma ProcessChildren_idempotent_witness :
  ProcessChildren serial_GUID [(key_A, window "a2")]
    (ProcessChildren serial_GUID [(key_A, window "a2")] two_windows)
  = ProcessChildren serial_GUID [(key_A, window "a2")] two_windows.
Proof.
  exact (ProcessChildren_idempotent serial_GUID [(key_A, window "a2")] two_windows
           two_windows_Inv).
Defined.

Lemma ProcessChildren_cost_witness :
  updater_calls
    (ProcessChildren serial_GUID [(key_A, window "a2"); (KStr "C", window "c1")] two_windows)
  = updater_calls two_windows.
Proof.
  exact (proj1 (ProcessChildren_cost serial_GUID
                  [(key_A, window "a2"); (KStr "C", window "c1")] two_windows
                  two_windows_Inv)).
Defined.

Lemma recovery_keeps_one_entry_per_key_witness :
  NoDup (stored_keys (this
    (run serial_GUID
       (run serial_GUID new_World
          [CallSetCanRecover true;
           CallProcessChildren [(key_A, window "a1"); (key_B, window "b1")]])
       [CallProcessChildren [(key_B, window "b2")];
        CallProcessChildren [(key_A, window "a3"); (key_B, window "b3")];
        CallUnlistComponent (serial_GUID 0)]))).
Proof.
  assert (NoDup (stored_keys (this
            (run serial_GUID new_World
               [CallSetCanRecover true;
                CallProcessChildren [(key_A, window "a1"); (key_B, window "b1")]]))))
    as Hnd.
  { refine (bool_decide_unpack _ _). vm_compute. exact I. }
  assert (Forall (λ c, keeps_recovery c = true)
            [CallProcessChildren [(key_B, window "b2")];
             CallProcessChildren [(key_A, window "a3"); (key_B, window "b3")];
             CallUnlistComponent (serial_GUID 0)]) as Hcs.
  { repeat constructor. }
  exact (proj1 (proj2 (recovery_keeps_one_entry_per_key serial_GUID
                         (run serial_GUID new_World
                            [CallSetCanRecover true;
                             CallProcessChildren
                               [(key_A, window "a1"); (key_B, window "b1")]])
                         _ (recovering_Inv _) eq_refl Hnd Hcs))).
Defined.

Lemma drop_then_request_recovers_witness :
  let w := run serial_GUID new_World
             [CallSetCanRecover true;
              CallProcessChildren [(key_A, window "a1"); (key_B, window "b1")]] in
  let w1 := ProcessChildren serial_GUID [(key_B, window "b2")] w in
  let w2 := ProcessChildren serial_GUID [(key_A, window "a3")] w1 in
  IsComponentActive (serial_GUID 0) (this w1) = false
  ∧ JsMap.get (CurrentRendered (this w2)) key_A = Some (serial_GUID 0).
Proof.
  assert (NoDup (stored_keys (this
            (run serial_GUID new_World
               [CallSetCanRecover true;
                CallProcessChildren [(key_A, window "a1"); (key_B, window "b1")]]))))
    as Hnd.
  { refine (bool_decide_unpack _ _). vm_compute. exact I. }
  assert (JsMap.get (CurrentRendered (this
            (run serial_GUID new_World
               [CallSetCanRecover true;
                CallProcessChildren [(key_A, window "a1"); (key_B, window "b1")]])))
            key_A = Some (serial_GUID 0)) as Hb by (vm_compute; reflexivity).
  pose proof (drop_then_request_recovers serial_GUID
                [(key_B, window "b2")] [(key_A, window "a3")]
                (run serial_GUID new_World
                   [CallSetCanRecover true;
                    CallProcessChildren [(key_A, window "a1"); (key_B, window "b1")]])
                key_A (serial_GUID 0)
                (window "a3") (recovering_Inv _) eq_refl Hnd Hb eq_refl eq_refl) as H.
  cbv zeta in H |- *. destruct H as (H1 & H2 & _). split; assumption.
Defined.

Lemma UnlistComponent_leaves_others_witness :
  IsComponentActive (serial_GUID 1) (this (UnlistComponent (serial_GUID 0) two_windows))
  = IsComponentActive (serial_GUID 1) (this two_windows).
Proof.
  assert (serial_GUID 1 ≠ serial_GUID 0) as Hne.
  { intros H. apply (inj serial_GUID) in H. discriminate H. }
  exact (proj2 (UnlistComponent_leaves_others (serial_GUID 0) (serial_GUID 1)
                  two_windows Hne)).
Defined.

Lemma rendered_props_carry_token_witness :
  ∃ l' p', JsMap.get (RenderComponents 7 titled_window).1 (serial_GUID 0)
           = Some [(key_A, mkElement "Window" (PropsAt l'))]
    ∧ heap (RenderComponents 7 titled_window).2 !! l' = Some p'
    ∧ useComponentIsActive (λ _, this titled_window) p'
      = Ok (IsComponentActive (serial_GUID 0) (this titled_window)).
Proof.
  assert (JsMap.get (AllComponents (this titled_window)) (serial_GUID 0)
          = Some (mkComponent key_A (mkElement "Window" (PropsAt 0)) (serial_GUID 0)))
    as Hc by (vm_compute; reflexivity).
  assert (heap titled_window !! 0 = Some titled_props) as Hp by (vm_compute; reflexivity).
  destruct (rendered_props_carry_token (λ _, this titled_window) 7 titled_window
              (serial_GUID 0) _ 0 titled_props
              titled_window_wf titled_window_closed Hc eq_refl Hp)
    as (l' & p' & _ & H1 & H2 & _ & _ & _ & _ & H3).
  exists l', p'. split; [exact H1 | split; [exact H2 | exact H3]].
Defined.

Lemma SanitizeProps_strips_token_witness :
  (SanitizeProps (Some 0) [titled_props]).2 !! 1
  = Some (mkProps (fields titled_props) None None).
Proof.
  exact (proj1 (proj2 (SanitizeProps_strips_token (λ _, new_LifetimeController)
                         [titled_props] 0 titled_props eq_refl))).
Defined.

Lemma SanitizeProps_undoes_injection_witness :
  ∃ l', JsMap.get (RenderComponents 7 titled_window).1 (serial_GUID 0)
        = Some [(key_A, mkElement "Window" (PropsAt l'))]
    ∧ ∃ l'', (SanitizeProps (Some l') (heap (RenderComponents 7 titled_window).2)).1
             = Some l''
        ∧ l'' ≠ l'
        ∧ (SanitizeProps (Some l') (heap (RenderComponents 7 titled_window).2)).2 !! l''
          = Some titled_props.
Proof.
  assert (JsMap.get (AllComponents (this titled_window)) (serial_GUID 0)
          = Some (mkComponent key_A (mkElement "Window" (PropsAt 0)) (serial_GUID 0)))
    as Hc by (vm_compute; reflexivity).
  assert (heap titled_window !! 0 = Some titled_props) as Hp by (vm_compute; reflexivity).
  assert (∀ name, reserved name = true → fields titled_props !! name = None) as Hno.
  { intros name Hres. destruct (decide (name = "title")) as [->|Hne].
    - vm_compute in Hres. discriminate Hres.
    - apply lookup_singleton_ne. congruence. }
  destruct (SanitizeProps_undoes_injection 7 titled_window (serial_GUID 0) _ 0
              titled_props titled_window_wf titled_window_closed Hc eq_refl Hp
              eq_refl eq_refl) as (l' & H1 & l'' & H2 & H3 & _ & H4).
  exists l'. split; [exact H1|]. exists l''.
  split; [exact H2 | split; [exact H3 | exact (H4 Hno)]].
Defined.

Lemma defer_heartbeat_removes_on_time_witness :
  (Nat.iter 2 (defer_heartbeat 3 (serial_GUID 0)) (0%Z, twice_dropped 2)).2
  = twice_dropped 2
  ∧ length (updater_calls
      (Nat.iter 3 (defer_heartbeat 3 (serial_GUID 0)) (0%Z, twice_dropped 2)).2)
    = length (updater_calls (twice_dropped 2)) + 1.
Proof.
  assert (JsMap.get (AllComponents (this (twice_dropped 2))) (serial_GUID 0)
          = Some (mkComponent key_A (window "a1") (serial_GUID 0)))
    as Hc by (vm_compute; reflexivity).
  assert (IsComponentActive (serial_GUID 0) (this (twice_dropped 2)) = false)
    as Hact by (vm_compute; reflexivity).
  split.
  - apply (proj1 (proj2 (proj2 (defer_heartbeat_removes_on_time
                                   3 (serial_GUID 0) (twice_dropped 2) _ 2 Hc Hact)))).
    reflexivity.
  - exact (proj2 (proj2 (proj2 (defer_heartbeat_removes_on_time
                                   3 (serial_GUID 0) (twice_dropped 2) _ 3 Hc Hact)))).
Defined.

Lemma CreateChildrenMap_lookup_witness :
  JsMap.get
    (CreateChildrenMap
       (NodeTable
          [(KNum 1, NodeElement None (window "a"));
           (KNum 2, NodeTable [(KNum 1, NodeElement (Some key_B) (window "b"))])])
       None) key_B
  = Some (window "b").
Proof.
  exact (proj2 (CreateChildrenMap_lookup
                  (NodeTable
                     [(KNum 1, NodeElement None (window "a"));
                      (KNum 2, NodeTable [(KNum 1, NodeElement (Some key_B) (window "b"))])])
                  None key_B (NoDup_nil_2 : JsMap.wf (default [] None)))).
Defined.

Lemma LifetimeComponent_renders_requested_witness :
  CanRecover (this
    (LifetimeComponent serial_GUID 0 None
       (NodeTable [(KNum 1, NodeElement (Some key_A) (window "a2"))]) two_windows).2)
  = false.
Proof.
  exact (proj1 (proj2 (LifetimeComponent_renders_requested serial_GUID 0 None
                         (NodeTable [(KNum 1, NodeElement (Some key_A) (window "a2"))])
                         two_windows two_windows_Inv))).
Defined.
End stored_order_further.
